(** * TRIQS/TPRF density-density mean-field solver: a shallow embedding

    Embedding of [python/hartree_solver.py].

    Conventions of the model.
    - A Python float is a real number ([R]) and a numpy complex a pair of
      reals ([C]): arithmetic is exact, rounding is not modelled.
    - A numpy array is a list (a vector), a list of rows (a matrix) or a
      list of matrices (the per-k-point stack [e_k.data]); an index outside
      a list reads the zero default, shape errors of numpy are not modelled
      except where the source tests a shape itself.
    - Code that can raise returns a [result]; the solver's mutable object is
      a record threaded through its methods.
    - What numpy and scipy provide and the repository only calls
      ([np.linalg.eigh], [np.linalg.eigvalsh], [np.linalg.inv],
      [scipy.optimize.brentq]) is a parameter of the model; [np.exp] and the
      square root of [np.linalg.norm] are the real functions [exp] and
      [sqrt].  Printing is dropped. *)

From Stdlib Require Import Reals Lra Lia String Bool Arith PeanoNat List.
Import ListNotations.

Local Open Scope R_scope.

(* ------------------------------------------------------------------ *)
(** ** Python exceptions and the error monad *)

Inductive exn : Type :=
| AssertionError
| ValueError
| LinAlgError
| TypeError
| NameError (name : string)
| AttributeError (name : string).

Inductive result (A : Type) : Type :=
| Ok (a : A)
| Raise (e : exn).

Arguments Ok {A} a.
Arguments Raise {A} e.

Definition bind {A B : Type} (c : result A) (k : A -> result B) : result B :=
  match c with
  | Ok a => k a
  | Raise e => Raise e
  end.

Notation "x <- c ;; k" := (bind c (fun x => k))
  (at level 61, c at next level, right associativity).
Notation "c ;;; k" := (bind c (fun _ => k))
  (at level 61, right associativity).

(** [assert( b )] *)
Definition py_assert (b : bool) : result unit :=
  if b then Ok tt else Raise AssertionError.

(** Reading an attribute that may not have been set yet. *)
Definition getattr {A : Type} (name : string) (o : option A) : result A :=
  match o with
  | Some a => Ok a
  | None => Raise (AttributeError name)
  end.

(* ------------------------------------------------------------------ *)
(** ** Comparisons of floats as booleans *)

Definition Rltb (x y : R) : bool := if Rlt_dec x y then true else false.
Definition Rleb (x y : R) : bool := if Rle_dec x y then true else false.

(* ------------------------------------------------------------------ *)
(** ** Complex numbers *)

Record C : Type := mkC { Re : R; Im : R }.

Definition C0 : C := mkC 0 0.
Definition C1 : C := mkC 1 0.
Definition RtoC (x : R) : C := mkC x 0.
Definition Cadd (a b : C) : C := mkC (Re a + Re b) (Im a + Im b).
Definition Csub (a b : C) : C := mkC (Re a - Re b) (Im a - Im b).
Definition Cneg (a : C) : C := mkC (- Re a) (- Im a).
Definition Cmul (a b : C) : C :=
  mkC (Re a * Re b - Im a * Im b) (Re a * Im b + Im a * Re b).
Definition Cconj (a : C) : C := mkC (Re a) (- Im a).
(** A float times a complex, a complex over a float. *)
Definition Cscale (x : R) (a : C) : C := mkC (x * Re a) (x * Im a).
Definition Cdivr (a : C) (x : R) : C := mkC (Re a / x) (Im a / x).
(** [abs(z)] squared and [abs(z)]. *)
Definition Cnorm2 (a : C) : R := Re a * Re a + Im a * Im a.
Definition Cabs (a : C) : R := sqrt (Cnorm2 a).

Declare Scope C_scope.
Delimit Scope C_scope with C.
Bind Scope C_scope with C.
Infix "+" := Cadd : C_scope.
Infix "-" := Csub : C_scope.
Infix "*" := Cmul : C_scope.
Notation "- x" := (Cneg x) : C_scope.

(* ------------------------------------------------------------------ *)
(** ** numpy arrays *)

Definition rvec := list R.
Definition vec := list C.
Definition mat := list (list C).
Definition tensor4 := list (list (list (list C))).

(** [A[i]], [A[i, j]], ... with the zero default out of range. *)
Definition rget (v : rvec) (i : nat) : R := nth i v 0.
Definition rget2 (m : list rvec) (k b : nat) : R := nth b (nth k m []) 0.
Definition vget (v : vec) (i : nat) : C := nth i v C0.
Definition mget (m : mat) (i j : nat) : C := nth j (nth i m []) C0.
Definition aget (a : list mat) (k i j : nat) : C := mget (nth k a []) i j.
Definition tget (t : tensor4) (i j k l : nat) : C :=
  mget (nth j (nth i t []) []) k l.

(** [A.shape[0]] and [A.shape[1]] of a matrix. *)
Definition nrows (m : mat) : nat := length m.
Definition ncols (m : mat) : nat := length (hd [] m).
Definition shape (m : mat) : nat * nat := (nrows m, ncols m).

(** The arrays numpy builds are rectangular. *)
Definition is_mat (n p : nat) (m : mat) : Prop :=
  length m = n /\ Forall (fun r => length r = p) m.

(** [np.sum] of a vector. *)
Definition Csum (l : list C) : C := fold_right Cadd C0 l.
Definition Rsum (l : list R) : R := fold_right Rplus 0 l.

(** A table indexed by [range(n)] and by [range(n) x range(p)]. *)
Definition tabulate {A : Type} (n : nat) (f : nat -> A) : list A :=
  map f (seq 0 n).
Definition tabulate2 {A : Type} (n p : nat) (f : nat -> nat -> A)
  : list (list A) :=
  tabulate n (fun i => tabulate p (f i)).

(** [np.zeros(shape)], [np.eye(n)]. *)
Definition zeros (sh : nat * nat) : mat :=
  tabulate2 (fst sh) (snd sh) (fun _ _ => C0).
Definition eye (n : nat) : mat :=
  tabulate2 n n (fun i j => if Nat.eqb i j then C1 else C0).

(** [np.diag(v)] of a vector: the diagonal matrix; [np.diag(m)] of a matrix:
    its diagonal. *)
Definition diag_of_vec (v : vec) : mat :=
  tabulate2 (length v) (length v)
    (fun i j => if Nat.eqb i j then vget v i else C0).
Definition diag_of_mat (m : mat) : vec :=
  tabulate (Nat.min (nrows m) (ncols m)) (fun i => mget m i i).

(** [np.dot(U, v)] of a complex matrix and a real vector. *)
Definition dot_row (row : vec) (v : rvec) : C :=
  Csum (map (fun xy => Cscale (snd xy) (fst xy)) (combine row v)).
Definition dot_mv (U : mat) (v : rvec) : vec :=
  map (fun row => dot_row row v) U.

(** Elementwise operations on matrices of one shape. *)
Definition map2 {A B D : Type} (f : A -> B -> D) (l : list A) (l' : list B)
  : list D :=
  map (fun xy => f (fst xy) (snd xy)) (combine l l').
Definition madd (a b : mat) : mat := map2 (map2 Cadd) a b.
Definition msub (a b : mat) : mat := map2 (map2 Csub) a b.
Definition mneg (a : mat) : mat := map (map Cneg) a.
Definition mscale (x : R) (a : mat) : mat := map (map (Cscale x)) a.
Definition mdivr (a : mat) (x : R) : mat := map (map (fun z => Cdivr z x)) a.
Definition mconj3 (a : list mat) : list mat := map (map (map Cconj)) a.

(** [A + M[None, ...]]: a matrix broadcast over the leading (k) axis, for
    [M] of the shape of the blocks of [A].  On other shapes numpy repeats an
    axis of length 1 or raises [ValueError]: see [np_broadcast], used where
    the shape of the operand is the caller's. *)
Definition bcast_add (a : list mat) (m : mat) : list mat :=
  map (fun ak => madd ak m) a.
Definition bcast_sub (a : list mat) (m : mat) : list mat :=
  map (fun ak => msub ak m) a.

(** The matrix product of [np.mat]. *)
Definition mmul (a b : mat) : mat :=
  tabulate2 (nrows a) (ncols b)
    (fun i j => Csum (tabulate (ncols a) (fun l => (mget a i l * mget b l
        j)%C))).

(* ------------------------------------------------------------------ *)
(** ** The dispersion object and the solver

    A TRIQS [Gf] on a k-mesh: one orbital-space matrix per mesh point.
    [len(e_k.mesh)] is the number of mesh points of [e_k.data]. *)

Record Gf : Type := mkGf { data : list mat; target_shape : nat * nat }.

Definition len_mesh (g : Gf) : nat := length (data g).

(** A keyword argument left out takes its default. *)
Definition kwarg {A : Type} (default : A) (given : option A) : A :=
  match given with
  | Some a => a
  | None => default
  end.

Definition shape_eqb (s s' : nat * nat) : bool :=
  Nat.eqb (fst s) (fst s') && Nat.eqb (snd s) (snd s').

(** [fermi = lambda e, beta: 1./(np.exp(beta * e) + 1)], over the reals,
    where its value lies strictly between 0 and 1; in floating point it
    reaches 0 and 1 where the exponential saturates. *)
Definition fermi (e beta : R) : R := 1 / (exp (beta * e) + 1).

Definition extract_dens_dens (chi_abcd : tensor4) : mat :=
  let norb := length chi_abcd in
  tabulate2 norb norb (fun i1 i2 => tget chi_abcd i1 i1 i2 i2).

(** [np.einsum('kab,kb,kcb->kac', V, f, W)] and
    [np.einsum('kab,kb,kcb->ac', V, f, W)]: the summed index [b] ranges over
    the columns of [V], the free indices over the rows of [V] and of [W]. *)
Definition dim1 (a : list mat) : nat := nrows (hd [] a).
Definition dim2 (a : list mat) : nat := ncols (hd [] a).

Definition einsum_kab_kb_kcb_kac (V : list mat) (f : list rvec) (W : list mat)
  : list mat :=
  tabulate (length V) (fun k =>
    tabulate2 (dim1 V) (dim1 W) (fun a c =>
      Csum (tabulate (dim2 V) (fun b =>
        (Cscale (rget2 f k b) (aget V k a b) * aget W k c b)%C)))).

Definition einsum_kab_kb_kcb_ac (V : list mat) (f : list rvec) (W : list mat)
  : mat :=
  tabulate2 (dim1 V) (dim1 W) (fun a c =>
    Csum (tabulate (length V) (fun k =>
      Csum (tabulate (dim2 V) (fun b =>
        (Cscale (rget2 f k b) (aget V k a b) * aget W k c b)%C))))).

(** [np.linalg.norm] of a real vector, sums and mixtures of real vectors. *)
Definition norm (v : rvec) : R := sqrt (Rsum (map (fun x => x * x) v)).
Definition rvsub (v w : rvec) : rvec := map2 Rminus v w.
Definition rvadd (v w : rvec) : rvec := map2 Rplus v w.
Definition rvscale (x : R) (v : rvec) : rvec := map (Rmult x) v.

(** [x / y < tol] on floats: [x / 0.] is [inf] or [nan], and neither is
    below a tolerance. *)
Definition float_div_ltb (x y tol : R) : bool :=
  if Req_dec_T y 0 then false else Rltb (x / y) tol.

Record Solver : Type := mkSolver {
  self_mu : R;
  self_beta : R;
  self_mu_max : R;
  self_mu_min : R;
  self_e_k : Gf;
  self_e_k_MF : Gf;
  self_target_shape : nat * nat;
  self_norb : nat;
  self_U_abcd : tensor4;
  self_U_ab : mat;
  (* attributes that exist once a method has set them *)
  self_M : option mat;
  self_rho : option mat;
  self_N_tot : option R;
  self_mixing : option R;
  self_nitermax : option nat
}.

Definition set_mu (s : Solver) (v : R) : Solver :=
  mkSolver v (self_beta s) (self_mu_max s) (self_mu_min s) (self_e_k s)
    (self_e_k_MF s) (self_target_shape s) (self_norb s) (self_U_abcd s)
    (self_U_ab s) (self_M s) (self_rho s) (self_N_tot s) (self_mixing s)
    (self_nitermax s).
Definition set_beta (s : Solver) (v : R) : Solver :=
  mkSolver (self_mu s) v (self_mu_max s) (self_mu_min s) (self_e_k s)
    (self_e_k_MF s) (self_target_shape s) (self_norb s) (self_U_abcd s)
    (self_U_ab s) (self_M s) (self_rho s) (self_N_tot s) (self_mixing s)
    (self_nitermax s).
Definition set_e_k_MF (s : Solver) (v : Gf) : Solver :=
  mkSolver (self_mu s) (self_beta s) (self_mu_max s) (self_mu_min s)
    (self_e_k s) v (self_target_shape s) (self_norb s) (self_U_abcd s)
    (self_U_ab s) (self_M s) (self_rho s) (self_N_tot s) (self_mixing s)
    (self_nitermax s).
Definition set_M (s : Solver) (v : mat) : Solver :=
  mkSolver (self_mu s) (self_beta s) (self_mu_max s) (self_mu_min s)
    (self_e_k s) (self_e_k_MF s) (self_target_shape s) (self_norb s)
    (self_U_abcd s) (self_U_ab s) (Some v) (self_rho s) (self_N_tot s)
    (self_mixing s) (self_nitermax s).
Definition set_rho (s : Solver) (v : mat) : Solver :=
  mkSolver (self_mu s) (self_beta s) (self_mu_max s) (self_mu_min s)
    (self_e_k s) (self_e_k_MF s) (self_target_shape s) (self_norb s)
    (self_U_abcd s) (self_U_ab s) (self_M s) (Some v) (self_N_tot s)
    (self_mixing s) (self_nitermax s).
Definition set_N_tot (s : Solver) (v : R) : Solver :=
  mkSolver (self_mu s) (self_beta s) (self_mu_max s) (self_mu_min s)
    (self_e_k s) (self_e_k_MF s) (self_target_shape s) (self_norb s)
    (self_U_abcd s) (self_U_ab s) (self_M s) (self_rho s) (Some v)
    (self_mixing s) (self_nitermax s).
Definition set_mixing (s : Solver) (v : R) : Solver :=
  mkSolver (self_mu s) (self_beta s) (self_mu_max s) (self_mu_min s)
    (self_e_k s) (self_e_k_MF s) (self_target_shape s) (self_norb s)
    (self_U_abcd s) (self_U_ab s) (self_M s) (self_rho s) (self_N_tot s)
    (Some v) (self_nitermax s).
Definition set_nitermax (s : Solver) (v : nat) : Solver :=
  mkSolver (self_mu s) (self_beta s) (self_mu_max s) (self_mu_min s)
    (self_e_k s) (self_e_k_MF s) (self_target_shape s) (self_norb s)
    (self_U_abcd s) (self_U_ab s) (self_M s) (self_rho s) (self_N_tot s)
    (self_mixing s) (Some v).

(** [DensityDensityMeanFieldSolver.__init__].  [U_abcd] is the tensor that
    [get_rpa_tensor(H_int, fundamental_operators)] returned. *)
Definition Solver_init (e_k : Gf) (U_abcd : tensor4)
           (mu_max mu_min : option R) : result Solver :=
  let U_ab := extract_dens_dens U_abcd in
  py_assert (shape_eqb (target_shape e_k) (shape U_ab)) ;;;
  Ok (mkSolver 0 (-1) (kwarg 10 mu_max) (kwarg (-10) mu_min)
        e_k e_k (target_shape e_k) (fst (target_shape e_k))
        U_abcd U_ab None None None None None).

(** [__update_mean_field] *)
Definition update_mean_field (s : Solver) (rho_diag : rvec) : Solver :=
  set_M s (diag_of_vec (dot_mv (self_U_ab s) rho_diag)).

(** [__update_mean_field_dispersion] *)
Definition update_mean_field_dispersion (s : Solver) : result Solver :=
  M <- getattr "M" (self_M s) ;;
  Ok (set_e_k_MF s (mkGf (bcast_add (data (self_e_k s)) M)
                         (target_shape (self_e_k_MF s)))).


(* ------------------------------------------------------------------ *)
(** ** The methods that call numpy and scipy *)

Section Numerics.

(** [np.linalg.eigh] of a stack of matrices: the eigenvalues (floats, one
    row per k-point) and the matrices of eigenvectors (one column per
    eigenvalue); [np.linalg.eigvalsh]: the eigenvalues alone;
    [scipy.optimize.brentq(f, a, b)]: a root of [f] in the bracket, or an
    exception; [np.linalg.inv]: the inverse, or an exception. *)
Variable eigh : list mat -> list rvec * list mat.
Variable eigvalsh : list mat -> list rvec.
Variable brentq : (R -> R) -> R -> R -> result R.
Variable inv : mat -> result mat.

(** The function [__update_chemical_potential] hands to [brentq]:
    [np.sum(fermi(e - mu, beta)) / n_k - N_tot]. *)
Definition target_function (e : list rvec) (n_k : nat) (beta N_tot : R)
           (mu : R) : R :=
  let n :=
    Rsum (map (fun row => Rsum (map (fun x => fermi (x - mu) beta) row)) e)
    / INR n_k in
  n - N_tot.

(** [__update_chemical_potential]: the argument [mu0] is bound and never
    read. *)
Definition update_chemical_potential (s : Solver) (beta N_tot : R)
           (mu0 : option R) : result Solver :=
  let mu0 := kwarg (self_mu s) mu0 in
  let n_k := len_mesh (self_e_k_MF s) in
  let e := eigvalsh (data (self_e_k_MF s)) in
  mu <- brentq (target_function e n_k beta N_tot)
               (self_mu_min s) (self_mu_max s) ;;
  Ok (set_mu s mu).

(** The density matrix of a spectrum [e] with eigenvectors [V], averaged
    over [n_k] points: the [einsum] and the division shared by [rho_mf]
    and [__update_density_matrix]. *)
Definition density_matrix (e : list rvec) (V : list mat) (beta : R)
           (n_k : nat) : mat :=
  let rho :=
    einsum_kab_kb_kcb_ac V (map (map (fun x => fermi x beta)) e) (mconj3 V) in
  mdivr rho (INR n_k).

(** [__update_density_matrix]: stores [self.rho], returns
    [np.diag(self.rho).real]. *)
Definition update_density_matrix (s : Solver) (beta : R) : Solver * rvec :=
  let (e, V) := eigh (data (self_e_k_MF s)) in
  let e := map (map (fun x => x - self_mu s)) e in
  let rho := density_matrix e V beta (len_mesh (self_e_k_MF s)) in
  (set_rho s rho, map Re (diag_of_mat rho)).

(** [density_matrix_step] *)
Definition density_matrix_step (s : Solver) (rho_diag : rvec)
  : result (Solver * rvec) :=
  let s := update_mean_field s rho_diag in
  s <- update_mean_field_dispersion s ;;
  N_tot <- getattr "N_tot" (self_N_tot s) ;;
  s <- update_chemical_potential s (self_beta s) N_tot (Some (self_mu s)) ;;
  Ok (update_density_matrix s (self_beta s)).

(** [solve_setup] *)
Definition solve_setup (s : Solver) (beta N_tot : R)
           (M0 : option mat) (mu0 : option R) : result (Solver * rvec) :=
  let s := set_beta s beta in
  let s := set_N_tot s N_tot in
  s <- match mu0 with
       | None => update_chemical_potential s beta N_tot (Some 0)
       | Some mu0 => Ok (set_mu s mu0)
       end ;;
  let M0 := kwarg (zeros (self_target_shape s)) M0 in
  let s := set_M s M0 in
  s <- update_mean_field_dispersion s ;;
  s <- update_chemical_potential s beta N_tot None ;;
  Ok (update_density_matrix s (self_beta s)).

(** The convergence test of [solve_iter]:
    [norm(rho_diag_old - rho_diag_new) / norm(rho_diag_old) < tol]. *)
Definition converged (rho_diag_old rho_diag_new : rvec) (tol : R) : bool :=
  float_div_ltb (norm (rvsub rho_diag_old rho_diag_new)) (norm rho_diag_old)
      tol.

(** [(1. - mixing) * rho_diag_old + mixing * rho_diag_new] *)
Definition mix (mixing : R) (rho_diag_old rho_diag_new : rvec) : rvec :=
  rvadd (rvscale (1 - mixing) rho_diag_old) (rvscale mixing rho_diag_new).

(** The [for idx in xrange(self.nitermax)] loop of [solve_iter], by the
    iterations left: the solver, the current [rho_diag], and [rho_vec]. *)
Fixpoint solve_iter_loop (left : nat) (mixing tol : R) (s : Solver)
         (rho_diag : rvec) (rho_vec : list rvec)
  : result (Solver * list rvec) :=
  match left with
  | O => Ok (s, rho_vec)
  | S left' =>
      let rho_vec := rho_vec ++ [rho_diag] in
      let rho_diag_old := rho_diag in
      sr <- density_matrix_step s rho_diag ;;
      let (s, rho_diag_new) := sr in
      if converged rho_diag_old rho_diag_new tol then Ok (s, rho_vec)
      else solve_iter_loop left' mixing tol s
             (mix mixing rho_diag_old rho_diag_new) rho_vec
  end.

Definition default_nitermax : nat := 100.
Definition default_mixing : R := 0.5.
Definition default_tol : R := 1 / 10 ^ 9.

(** [solve_iter]: returns the trajectory [rho_vec]; the solver it leaves
    behind is returned with it. *)
Definition solve_iter (s : Solver) (beta N_tot : R)
           (M0 : option mat) (mu0 : option R)
           (nitermax : option nat) (mixing tol : option R)
  : result (Solver * list rvec) :=
  let nitermax := kwarg default_nitermax nitermax in
  let mixing := kwarg default_mixing mixing in
  let tol := kwarg default_tol tol in
  py_assert (Rleb 0 mixing) ;;;
  py_assert (Rleb mixing 1) ;;;
  let s := set_mixing s mixing in
  let s := set_nitermax s nitermax in
  sr <- solve_setup s beta N_tot M0 mu0 ;;
  let (s, rho_diag) := sr in
  solve_iter_loop nitermax mixing tol s rho_diag [].

End Numerics.

(* ------------------------------------------------------------------ *)
(** ** Concrete inputs

    A two-orbital model on one k-point with a density-density interaction
    between the orbitals, used to run the definitions above. *)

Definition two_orbital_e_k : Gf :=
  mkGf [ [ [RtoC 0; RtoC 0]; [RtoC 0; RtoC 1] ] ] (2%nat, 2%nat).

Definition two_orbital_U_abcd : tensor4 :=
  tabulate 2 (fun a => tabulate 2 (fun b => tabulate2 2 2 (fun c d =>
    if Nat.eqb a b && Nat.eqb c d && negb (Nat.eqb a c)
    then RtoC 3 else C0))).

(** The solver [__init__] builds from them. *)
Definition two_orbital_solver : Solver :=
  mkSolver 0 (-1) 10 (-10) two_orbital_e_k two_orbital_e_k (2%nat, 2%nat)
    2%nat two_orbital_U_abcd (extract_dens_dens two_orbital_U_abcd)
    None None None None None.

(** The occupations one composite step computes from [rho_diag]: the
    second component of [density_matrix_step]. *)
Definition step_rho_diag
           (eigh : list mat -> list rvec * list mat)
           (eigvalsh : list mat -> list rvec)
           (brentq : (R -> R) -> R -> R -> result R)
           (s : Solver) (rho_diag : rvec) : result rvec :=
  sr <- density_matrix_step eigh eigvalsh brentq s rho_diag ;;
  Ok (snd sr).

(** What a composite step reads of the solver and never writes. *)
Definition same_model (s s' : Solver) : Prop :=
  self_beta s = self_beta s' /\
  self_N_tot s = self_N_tot s' /\
  self_mu_min s = self_mu_min s' /\
  self_mu_max s = self_mu_max s' /\
  self_e_k s = self_e_k s' /\
  self_U_ab s = self_U_ab s'.

(** A run of [n] composite steps from [(s, rho_diag)] in which every step
    returns and none passes the convergence test: the iterates it visits
    and the solver it ends in. *)
Inductive nonconverging_run
          (eigh : list mat -> list rvec * list mat)
          (eigvalsh : list mat -> list rvec)
          (brentq : (R -> R) -> R -> R -> result R)
          (mixing tol : R)
  : nat -> Solver -> rvec -> list rvec -> Solver -> Prop :=
| nonconverging_nil (s : Solver) (rho_diag : rvec) :
    nonconverging_run eigh eigvalsh brentq mixing tol 0 s rho_diag [] s
| nonconverging_cons (n : nat) (s s1 s' : Solver)
                     (rho_diag rho_diag_new : rvec) (rest : list rvec) :
    density_matrix_step eigh eigvalsh brentq s rho_diag
    = Ok (s1, rho_diag_new) ->
    converged rho_diag rho_diag_new tol = false ->
    nonconverging_run eigh eigvalsh brentq mixing tol n s1
                      (mix mixing rho_diag rho_diag_new) rest s' ->
    nonconverging_run eigh eigvalsh brentq mixing tol (S n) s rho_diag
                      (rho_diag :: rest) s'.

(** [eigh] and [eigvalsh] on a stack of diagonal matrices whose diagonals
    ascend: the eigenvalues are the diagonal entries, the eigenvectors the
    unit vectors. *)
Definition eigh_of_diagonal (E : list mat) : list rvec * list mat :=
  (map (fun m => map Re (diag_of_mat m)) E, map (fun m => eye (nrows m)) E).
Definition eigvalsh_of_diagonal (E : list mat) : list rvec :=
  fst (eigh_of_diagonal E).

(** [brentq] on a function whose root in the bracket is [0]: the sign test
    of scipy, then the root. *)
Definition brentq_root_at_0 (f : R -> R) (a b : R) : result R :=
  if Rlt_dec 0 (f a * f b) then Raise ValueError else Ok 0.

(** One orbital at energy 0 on one k-point, no interaction. *)
Definition atom_e_k : Gf := mkGf [ [ [C0] ] ] (1%nat, 1%nat).
Definition atom_U_abcd : tensor4 := [ [ [ [C0] ] ] ].
Definition atom_solver : Solver :=
  mkSolver 0 (-1) 10 (-10) atom_e_k atom_e_k (1%nat, 1%nat) 1%nat
    atom_U_abcd (extract_dens_dens atom_U_abcd) None None None None None.

(** The atom once [solve_setup] has stored [beta = 1] and
    [N_tot = 1/2] (half filling). *)
Definition atom_ready : Solver := set_N_tot (set_beta atom_solver 1) (1 / 2).

(* ------------------------------------------------------------------ *)
(** ** Density matrix and bare response of a dispersion *)

(** [np.sum(A, axis=0)] of a stack of matrices. *)
Definition sum_axis0 (a : list mat) : mat :=
  tabulate2 (dim1 a) (dim2 a) (fun i j => Csum (map (fun m => mget m i j) a)).

(** [A[i, j] = x] and [A[i] = v] on an array allocated with its shape. *)
Definition assign_entry (m : mat) (i j : nat) (x : C) : mat :=
  tabulate2 (nrows m) (ncols m)
    (fun i' j' => if Nat.eqb i' i && Nat.eqb j' j then x else mget m i' j').
Definition assign_row (m : mat) (i : nat) (v : vec) : mat :=
  tabulate2 (nrows m) (ncols m)
    (fun i' j' => if Nat.eqb i' i then vget v j' else mget m i' j').

Section Response.

Variable eigh : list mat -> list rvec * list mat.
Variable inv : mat -> result mat.

(** [rho_mf] *)
Definition rho_mf (e_k : Gf) (beta : R) (M : option mat) (mu : option R)
  : mat :=
  let M := kwarg (zeros (target_shape e_k)) M in
  let mu := kwarg 0 mu in
  let I := eye (fst (target_shape e_k)) in
  let E := bcast_sub (bcast_add (data e_k) M) (mscale mu I) in
  let (e, V) := eigh E in
  density_matrix e V beta (len_mesh e_k).

(** [chi0_op]; the division by [2 * eps] is that of the reals, and means
    what the code computes for [eps <> 0] (at [eps = 0] the code has nan). *)
Definition chi0_op (e_k : Gf) (beta : R) (op : mat) (eps : R) : mat :=
  let E_p := bcast_add (data e_k) (mscale eps op) in
  let E_m := bcast_sub (data e_k) (mscale eps op) in
  let (e_p, U_p) := eigh E_p in
  let (e_m, U_m) := eigh E_m in
  let rho_p :=
    einsum_kab_kb_kcb_kac U_p (map (map (fun x => fermi x beta)) e_p)
                          (mconj3 U_p) in
  let rho_m :=
    einsum_kab_kb_kcb_kac U_m (map (map (fun x => fermi x beta)) e_m)
                          (mconj3 U_m) in
  let drho := map (fun d => mdivr d (2 * eps)) (map2 msub rho_p rho_m) in
  let drho := mdivr (sum_axis0 drho) (INR (len_mesh e_k)) in
  let chi0 := mneg drho in
  chi0.

(** [chi0_mat]: one row per diagonal field [F]. *)
Definition chi0_mat (e_k : Gf) (beta : R) (eps : R) : mat :=
  let shape := target_shape e_k in
  fold_left
    (fun chi0 idx =>
       let F := assign_entry (zeros shape) idx idx C1 in
       let chi0_F := chi0_op e_k beta F eps in
       assign_row chi0 idx (diag_of_mat chi0_F))
    (seq 0 (fst shape))
    (zeros shape).

(** [BaseResponse] and [HartreeResponse]. *)
Record BaseResponse : Type := mkBaseResponse {
  resp_solver : Solver;
  resp_eps : R;
  resp_beta : R;
  resp_e_k : Gf;
  resp_norb : nat;
  resp_shape_ab : nat * nat;
  resp_shape_abcd : list nat
}.

Record HartreeResponse : Type := mkHartreeResponse {
  base : BaseResponse;
  chi0_ab : mat;
  chi_ab : mat
}.

Definition default_eps : R := 1 / 10 ^ 9.

(** [BaseResponse.__init__] *)
Definition BaseResponse_init (solver : Solver) (eps : option R)
  : BaseResponse :=
  let eps := kwarg default_eps eps in
  let e_k := self_e_k_MF solver in
  let norb := fst (target_shape e_k) in
  let shape_ab := target_shape e_k in
  let shape_abcd := [fst shape_ab; snd shape_ab; fst shape_ab; snd shape_ab] in
  let I_ab := eye norb in
  let e_k := mkGf (bcast_sub (data e_k) (mscale (self_mu solver) I_ab))
                  (target_shape e_k) in
  mkBaseResponse solver eps (self_beta solver) e_k norb shape_ab shape_abcd.

(** [HartreeResponse.__init__]: the [eps] it is given is not handed to
    [BaseResponse.__init__]. *)
Definition HartreeResponse_init (hartree_solver : Solver) (eps : option R)
  : result HartreeResponse :=
  let self := BaseResponse_init hartree_solver None in
  let I_ab := eye (resp_norb self) in
  let U_ab := self_U_ab (resp_solver self) in
  let chi0_ab := chi0_mat (resp_e_k self) (resp_beta self) (resp_eps self) in
  X <- inv (msub I_ab (mmul U_ab chi0_ab)) ;;
  let chi_ab := mmul chi0_ab X in
  Ok (mkHartreeResponse self chi0_ab chi_ab).

End Response.

(** [np.testing.assert_almost_equal(actual, desired)] at its default of 7
    decimals, as numpy documents it: the arrays have one shape and every
    element satisfies [abs(desired - actual) < 1.5 * 10**(-7)]. *)
Definition almost_equal_tol : R := 15 / 100000000.

Definition assert_almost_equal (actual desired : mat) : result unit :=
  py_assert
    (shape_eqb (shape actual) (shape desired) &&
     forallb (fun i =>
       forallb (fun j =>
         Rltb (Cabs (mget desired i j - mget actual i j)%C) almost_equal_tol)
         (seq 0 (ncols actual)))
       (seq 0 (nrows actual))).

(** [HartreeResponse.__check_op] *)
Definition check_op (self : HartreeResponse) (op : mat) : result unit :=
  py_assert (shape_eqb (shape op) (target_shape (resp_e_k (base self)))) ;;;
  assert_almost_equal (msub op (diag_of_vec (diag_of_mat op)))
                      (zeros (shape op)).

(** [np.einsum('aa,ab,bb->', op1, chi, op2)] *)
Definition einsum_aa_ab_bb (op1 chi op2 : mat) : C :=
  Csum (tabulate (nrows chi) (fun a =>
    Csum (tabulate (ncols chi) (fun b =>
      (mget op1 a a * mget chi a b * mget op2 b b)%C)))).

Definition bare_response (self : HartreeResponse) (op1 op2 : mat) : result C :=
  check_op self op1 ;;;
  check_op self op2 ;;;
  Ok (einsum_aa_ab_bb op1 (chi0_ab self) op2).

Definition response (self : HartreeResponse) (op1 op2 : mat) : result C :=
  check_op self op1 ;;;
  check_op self op2 ;;;
  Ok (einsum_aa_ab_bb op1 (chi_ab self) op2).

(** [np.linalg.inv] on diagonal matrices: the reciprocals of the diagonal,
    [LinAlgError] when one of its entries is zero. *)
Definition Cinv (a : C) : C := Cdivr (Cconj a) (Cnorm2 a).

Definition inv_of_diagonal (m : mat) : result mat :=
  if existsb (fun i => if Req_dec_T (Cnorm2 (mget m i i)) 0 then true else
      false)
             (seq 0 (nrows m))
  then Raise LinAlgError
  else Ok (tabulate2 (nrows m) (nrows m)
             (fun i j => if Nat.eqb i j then Cinv (mget m i i) else C0)).

(** The two orbitals without interaction, at [beta = 1]. *)
Definition two_orbital_free_solver : Solver :=
  mkSolver 0 1 10 (-10) two_orbital_e_k two_orbital_e_k (2%nat, 2%nat)
    2%nat (tabulate 2 (fun _ => tabulate 2 (fun _ => zeros (2%nat, 2%nat))))
    (zeros (2%nat, 2%nat)) None None None None None.

(** A probe operator with one off-diagonal entry of [1e-8]. *)
Definition nearly_diagonal_op : mat :=
  [ [C0; RtoC (1 / 100000000)]; [C0; C0] ].

(** What [__check_op] accepts and rejects on a response with [n] orbitals:
    an [n x n] operator whose off-diagonal entries are all below the
    tolerance in magnitude; an operator of another shape, or an [n x n] one
    with an off-diagonal entry at or above it. *)
Definition probe_accepted (n : nat) (op : mat) : Prop :=
  is_mat n n op /\
  forall i j, (i < n)%nat -> (j < n)%nat -> i <> j ->
              Cabs (mget op i j) < almost_equal_tol.

Definition probe_rejected (n : nat) (op : mat) : Prop :=
  shape op <> (n, n) \/
  (is_mat n n op /\
   exists i j, (i < n)%nat /\ (j < n)%nat /\ i <> j /\
               almost_equal_tol <= Cabs (mget op i j)).

(** The dispersion with a field [x * F] added at every k-point, and the
    symmetric difference quotient of the k-averaged density matrix under
    the fields [+eps * F] and [-eps * F], [F] the projector on orbital [a],
    read at the diagonal entry [b]. *)
Definition perturb (e_k : Gf) (x : R) (F : mat) : Gf :=
  mkGf (bcast_add (data e_k) (mscale x F)) (target_shape e_k).

Definition projector (sh : nat * nat) (a : nat) : mat :=
  assign_entry (zeros sh) a a C1.

Definition difference_quotient (eigh : list mat -> list rvec * list mat)
           (e_k : Gf) (beta eps : R) (a b : nat) : C :=
  let F := projector (target_shape e_k) a in
  let rho_p := rho_mf eigh (perturb e_k eps F) beta None None in
  let rho_m := rho_mf eigh (perturb e_k (- eps) F) beta None None in
  Cdivr (mget rho_p b b - mget rho_m b b)%C (2 * eps).

(** [eigh] returned as many matrices of eigenvectors as it was given
    blocks, each [n x n]. *)
Definition eigh_shape_ok (eigh : list mat -> list rvec * list mat)
           (n : nat) (E : list mat) : Prop :=
  length (snd (eigh E)) = length E /\
  Forall (is_mat n n) (snd (eigh E)).

(* ------------------------------------------------------------------ *)
(** ** What a density matrix is *)

Definition hermitian (n : nat) (m : mat) : Prop :=
  forall a c, (a < n)%nat -> (c < n)%nat -> mget m a c = Cconj (mget m c a).

(** [np.trace]. *)
Definition trace (m : mat) : C := Csum (diag_of_mat m).

(** [lam] is an eigenvalue of the [n x n] matrix [m]: [m v = lam v] for a
    vector [v] that is not zero. *)
Definition is_eigenvalue (n : nat) (m : mat) (lam : C) : Prop :=
  exists v : vec,
    length v = n /\
    (exists a, (a < n)%nat /\ vget v a <> C0) /\
    forall a, (a < n)%nat ->
      Csum (tabulate n (fun c => (mget m a c * vget v c)%C))
      = (lam * vget v a)%C.

(** Hermitian, eigenvalues real and in [[0, 1]], trace real and in
    [[0, n]]. *)
Definition valid_density_matrix (n : nat) (rho : mat) : Prop :=
  is_mat n n rho /\
  hermitian n rho /\
  (forall lam, is_eigenvalue n rho lam -> Im lam = 0 /\ 0 <= Re lam <= 1) /\
  Im (trace rho) = 0 /\ 0 <= Re (trace rho) <= INR n.

(** The part of the contract of [np.linalg.eigh] the density matrix rests
    on: on a stack of Hermitian [n x n] blocks it returns one [n x n]
    matrix of eigenvectors per block, and each is unitary,
    [V V^dagger = 1]. *)
Definition eigh_unitary (eigh : list mat -> list rvec * list mat) (n : nat)
  : Prop :=
  forall E : list mat,
    Forall (is_mat n n) E -> Forall (hermitian n) E ->
    length (snd (eigh E)) = length E /\
    Forall (is_mat n n) (snd (eigh E)) /\
    forall k a c, (k < length E)%nat -> (a < n)%nat -> (c < n)%nat ->
      Csum (tabulate n (fun b =>
        (aget (snd (eigh E)) k a b * Cconj (aget (snd (eigh E)) k c b))%C))
      = if Nat.eqb a c then C1 else C0.

(* ------------------------------------------------------------------ *)
(** ** Functions that read names the module never binds

    A name read in a function body and not assigned there is looked up in
    the module's namespace, then among the builtins; a name found in
    neither is a [NameError].  The namespace lists what the module binds at
    its top level: its imports, its functions and its classes. *)

Inductive pyobj : Type :=
| PyModule
| PyCallable
| PyMatFun (f : mat -> mat)
| PyMesh (points : list nat)
| PyShape (sh : nat * nat)
| PyGf (g : Gf)
| PyComplex (z : C).

Definition module_namespace : list (string * pyobj) :=
  [ ("itertools", PyModule); ("np", PyModule);
    ("fsolve", PyCallable); ("brentq", PyCallable);
    ("get_rpa_tensor", PyCallable);
    ("fundamental_operators_from_gf_struct", PyCallable);
    ("fermi_distribution_function", PyCallable);
    ("local_density_matrix_g_wk", PyCallable);
    ("chi0_op_accurate", PyCallable); ("rho_mf", PyCallable);
    ("fix_chemical_potential", PyCallable); ("chi0_op", PyCallable);
    ("chi0_op_op", PyCallable); ("chi0_mat", PyCallable);
    ("R_tensor", PyCallable); ("chi0_tensor", PyCallable);
    ("local_density_matrix", PyCallable); ("tr_op_chi_wk_op", PyCallable);
    ("U_matrix_kanamori_dens_dens", PyCallable);
    ("extract_dens_dens", PyCallable);
    ("DensityDensityMeanFieldSolver", PyCallable);
    ("BaseResponse", PyCallable); ("HartreeResponse", PyCallable);
    ("HartreeFockResponse", PyCallable) ]%string.

Definition builtins : list (string * pyobj) :=
  [ ("range", PyCallable); ("xrange", PyCallable); ("len", PyCallable);
    ("list", PyCallable); ("str", PyCallable); ("super", PyCallable);
    ("object", PyCallable) ]%string.

Fixpoint lookup (name : string) (scope : list (string * pyobj))
  : option pyobj :=
  match scope with
  | [] => None
  | (n, o) :: scope' => if String.eqb name n then Some o else lookup name scope'
  end.

Definition load_global (name : string) : result pyobj :=
  match lookup name (module_namespace ++ builtins) with
  | Some o => Ok o
  | None => Raise (NameError name)
  end.

(** Using an object as what the code needs it to be. *)
Definition as_mesh (o : pyobj) : result (list nat) :=
  match o with PyMesh l => Ok l | _ => Raise TypeError end.
Definition as_shape (o : pyobj) : result (nat * nat) :=
  match o with PyShape sh => Ok sh | _ => Raise TypeError end.
Definition as_gf (o : pyobj) : result Gf :=
  match o with PyGf g => Ok g | _ => Raise TypeError end.
Definition as_complex (o : pyobj) : result C :=
  match o with PyComplex z => Ok z | _ => Raise TypeError end.
Definition as_matfun (o : pyobj) : result (mat -> mat) :=
  match o with PyMatFun f => Ok f | _ => Raise TypeError end.

(** A [for] loop whose body can raise. *)
Definition for_each {A S : Type} (l : list A) (init : S)
           (body : S -> A -> result S) : result S :=
  fold_left (fun acc x => s <- acc ;; body s x) l (Ok init).

(** [R[b, a, :, :] = m] on a four-index array. *)
Definition zeros4 (sh : list nat) : tensor4 :=
  tabulate (nth 0 sh 0%nat) (fun _ => tabulate (nth 1 sh 0%nat) (fun _ =>
    zeros (nth 2 sh 0%nat, nth 3 sh 0%nat))).
Definition assign_block (t : tensor4) (i j : nat) (m : mat) : tensor4 :=
  tabulate (length t) (fun i' =>
    tabulate (length (nth i' t [])) (fun j' =>
      if Nat.eqb i' i && Nat.eqb j' j then m else nth j' (nth i' t []) [])).

(** numpy's broadcasting of the last two axes of [A + x[None, ...]], for a
    stack [A] of blocks of shape [sh] and a matrix [x]: two lengths go
    together when they are equal or one of them is 1, the axis of length 1
    is repeated, and shapes that do not go together are a [ValueError]. *)
Definition broadcast_ok (a b : nat) : bool :=
  Nat.eqb a b || Nat.eqb a 1 || Nat.eqb b 1.
Definition broadcast_dim (a b : nat) : nat := if Nat.eqb a 1 then b else a.
Definition broadcast_get (sh : nat * nat) (m : mat) (i j : nat) : C :=
  mget m (if Nat.eqb (fst sh) 1 then 0%nat else i)
         (if Nat.eqb (snd sh) 1 then 0%nat else j).
Definition broadcast_shape (sh shx : nat * nat) : nat * nat :=
  (broadcast_dim (fst sh) (fst shx), broadcast_dim (snd sh) (snd shx)).
Definition np_broadcast (f : C -> C -> C) (sh : nat * nat) (a : list mat)
           (x : mat) : result (list mat) :=
  let shx := shape x in
  if broadcast_ok (fst sh) (fst shx) && broadcast_ok (snd sh) (snd shx)
  then Ok (map (fun ak =>
             tabulate2 (fst (broadcast_shape sh shx))
                       (snd (broadcast_shape sh shx))
               (fun i j => f (broadcast_get sh ak i j)
                             (broadcast_get shx x i j))) a)
  else Raise ValueError.

Section DeadCode.

Variable eigh : list mat -> list rvec * list mat.
Variable inv : mat -> result mat.

(** [np.linalg.eigh] on a stack of blocks of shape [sh]: blocks that are not
    square are a [LinAlgError]. *)
Definition eigh_of_shape (sh : nat * nat) (E : list mat)
  : result (list rvec * list mat) :=
  if Nat.eqb (fst sh) (snd sh) then Ok (eigh E) else Raise LinAlgError.

(** [fermi_distribution_function]: [expm] is not imported. *)
Definition fermi_distribution_function (E : mat) (beta : R) : result mat :=
  let I := eye (nrows E) in
  o <- load_global "expm" ;;
  expm <- as_matfun o ;;
  inv (madd (expm (mscale beta E)) I).

(** [chi0_op_accurate] *)
Definition chi0_op_accurate (e_k : Gf) (beta : R) (op : mat) (eps : R)
  : result mat :=
  let shape := target_shape e_k in
  let drho := zeros shape in
  o <- load_global "kmesh" ;;
  kmesh <- as_mesh o ;;
  drho <- for_each kmesh drho (fun drho k =>
            let e := nth k (data e_k) [] in
            rho_p <- fermi_distribution_function (madd e (mscale eps op)) beta
                ;;
            rho_m <- fermi_distribution_function (msub e (mscale eps op)) beta
                ;;
            Ok (madd drho (mdivr (msub rho_p rho_m) (2 * eps)))) ;;
  o <- load_global "kmesh" ;;
  kmesh <- as_mesh o ;;
  let drho := mdivr drho (INR (length kmesh)) in
  Ok (mneg drho).

(** [local_density_matrix] *)
Definition local_density_matrix (e_k : Gf) (beta : R) : result mat :=
  let shape := target_shape e_k in
  let rho := zeros shape in
  o <- load_global "kmesh" ;;
  kmesh <- as_mesh o ;;
  rho <- for_each kmesh rho (fun rho k =>
           f <- fermi_distribution_function (nth k (data e_k) []) beta ;;
           Ok (madd rho f)) ;;
  o <- load_global "kmesh" ;;
  kmesh <- as_mesh o ;;
  Ok (mdivr rho (INR (length kmesh))).

(** [BaseResponse._compute_drho_dop]: the two sums broadcast [op] against
    the blocks of the dispersion, [eigh] wants square blocks, and the last
    line reads a global [e_k], not [self.e_k]. *)
Definition _compute_drho_dop (self : BaseResponse) (op : mat) : result mat :=
  let beta := resp_beta self in
  let eps := resp_eps self in
  let sh := target_shape (resp_e_k self) in
  E_p <- np_broadcast Cadd sh (data (resp_e_k self)) (mscale eps op) ;;
  E_m <- np_broadcast Csub sh (data (resp_e_k self)) (mscale eps op) ;;
  eU_p <- eigh_of_shape (broadcast_shape sh (shape op)) E_p ;;
  eU_m <- eigh_of_shape (broadcast_shape sh (shape op)) E_m ;;
  let (e_p, U_p) := (eU_p : list rvec * list mat) in
  let (e_m, U_m) := (eU_m : list rvec * list mat) in
  let rho_p :=
    einsum_kab_kb_kcb_kac U_p (map (map (fun x => fermi x beta)) e_p)
                          (mconj3 U_p) in
  let rho_m :=
    einsum_kab_kb_kcb_kac U_m (map (map (fun x => fermi x beta)) e_m)
                          (mconj3 U_m) in
  let drho := map (fun d => mdivr d (2 * eps)) (map2 msub rho_p rho_m) in
  let total := sum_axis0 drho in
  o <- load_global "e_k" ;;
  e_k <- as_gf o ;;
  Ok (mdivr total (INR (len_mesh e_k))).

(** [self.<name>] for a method taking an operator: [BaseResponse] has one,
    [_compute_drho_dop]. *)
Definition BaseResponse_method (self : BaseResponse) (name : string)
  : result (mat -> result mat) :=
  if String.eqb name "_compute_drho_dop" then Ok (_compute_drho_dop self)
  else Raise (AttributeError name).

(** [BaseResponse._compute_R_ab] *)
Definition _compute_R_ab (self : BaseResponse) : result mat :=
  let R_ab := zeros (resp_shape_ab self) in
  for_each (seq 0 (resp_norb self)) R_ab (fun R_ab a =>
    o <- load_global "shape" ;;
    shape <- as_shape o ;;
    let F_a := assign_entry (zeros shape) a a C1 in
    drho_dop <- BaseResponse_method self "_drho_dop" ;;
    d <- drho_dop F_a ;;
    let R_b := map Cneg (diag_of_mat d) in
    Ok (assign_row R_ab a R_b)).

(** [BaseResponse._compute_R_abcd]: the parameter [field_prefactor] is
    never read, the body reads [scale]. *)
Definition _compute_R_abcd (self : BaseResponse) (field_prefactor : C)
  : result tensor4 :=
  let R_abcd := zeros4 (resp_shape_abcd self) in
  for_each (list_prod (seq 0 (resp_norb self)) (seq 0 (resp_norb self)))
           R_abcd (fun R_abcd ab =>
    let (a, b) := ab in
    o <- load_global "shape" ;;
    shape <- as_shape o ;;
    let F_ab := zeros shape in
    o <- load_global "scale" ;;
    scale <- as_complex o ;;
    let F_ab := assign_entry F_ab a b (mget F_ab a b + scale)%C in
    o <- load_global "scale" ;;
    scale <- as_complex o ;;
    let F_ab := assign_entry F_ab b a (mget F_ab b a + Cconj scale)%C in
    drho_dop <- BaseResponse_method self "_drho_dop" ;;
    d <- drho_dop F_ab ;;
    let R_cd := mneg d in
    Ok (assign_block R_abcd b a R_cd)).

End DeadCode.

(** A solver over a dispersion without orbitals. *)
Definition no_orbital_solver : Solver :=
  mkSolver 0 1 10 (-10) (mkGf [ [] ] (0%nat, 0%nat))
    (mkGf [ [] ] (0%nat, 0%nat)) (0%nat, 0%nat) 0%nat [] [] None None None
    None None.


(* ================================================================== *)
(** * The rest of [hartree_solver.py] *)

(* ------------------------------------------------------------------ *)
(** ** Two-operator bare response and the standalone chemical potential *)

Section StandaloneFunctions.

Variable eigh : list mat -> list rvec * list mat.
Variable brentq : (R -> R) -> R -> R -> result R.

(** [chi0_op_op]: [np.sum(np.diag(np.mat(op2) * np.mat(chi0_op1)))] *)
Definition chi0_op_op (e_k : Gf) (beta : R) (op1 op2 : mat) (eps : R) : C :=
  let chi0_op1 := chi0_op eigh e_k beta op1 eps in
  Csum (diag_of_mat (mmul op2 chi0_op1)).

(** The [target_function] of [fix_chemical_potential]:
    [rho = rho_mf(e_k, beta, -mu * np.eye(norb))],
    [np.sum(np.diag(rho)).real - N]. *)
Definition fix_target_function (e_k : Gf) (beta N : R) (mu : R) : R :=
  let norb := fst (target_shape e_k) in
  let rho := rho_mf eigh e_k beta (Some (mscale (- mu) (eye norb))) None in
  let n := Re (Csum (diag_of_mat rho)) in
  n - N.

(** [fix_chemical_potential]: the bracket is fixed, [mu0] is never read,
    the result is a one-element list. *)
Definition fix_chemical_potential (e_k : Gf) (beta N : R) (mu0 : option R)
  : result (list R) :=
  let mu0 := kwarg 0 mu0 in
  mu <- brentq (fix_target_function e_k beta N) (-10) 10 ;;
  Ok [mu].

(** [R_tensor] *)
Definition R_tensor (e_k : Gf) (beta eps : R) (scale : C) : tensor4 :=
  let shape := target_shape e_k in
  let chi0 := zeros4 [fst shape; snd shape; fst shape; snd shape] in
  fold_left
    (fun chi0 i12 =>
       let (i1, i2) := (i12 : nat * nat) in
       let F := zeros shape in
       let F := assign_entry F i1 i2 (mget F i1 i2 + scale)%C in
       let F := assign_entry F i2 i1 (mget F i2 i1 + Cconj scale)%C in
       let chi0_F := chi0_op eigh e_k beta F eps in
       assign_block chi0 i2 i1 chi0_F)
    (list_prod (seq 0 (fst shape)) (seq 0 (fst shape)))
    chi0.



End StandaloneFunctions.

(* ------------------------------------------------------------------ *)
(** ** [U_matrix_kanamori_dens_dens]

    Real arrays; reading an index outside an array is an [IndexError]. *)

Definition rmat := list (list R).

Inductive index_exn : Type := IndexError.

Definition rmget (m : rmat) (i j : nat) : R := nth j (nth i m []) 0.

(** [np.kron(A, B)] for [A] of shape [(ra, ca)] and [B] of shape
    [(rb, cb)]. *)
Definition rkron (ra ca : nat) (A : rmat) (rb cb : nat) (B : rmat) : rmat :=
  tabulate2 (ra * rb) (ca * cb)
    (fun i j => rmget A (i / rb) (j / cb) * rmget B (i mod rb) (j mod cb)).

(** [np.diag] of a vector and of a square matrix, [np.eye]. *)
Definition rdiag_of_vec (v : rvec) : rmat :=
  tabulate2 (length v) (length v)
    (fun i j => if Nat.eqb i j then rget v i else 0).
Definition rdiag_of_mat (m : rmat) : rvec :=
  tabulate (Nat.min (length m) (length (hd [] m))) (fun i => rmget m i i).
Definition reye (n : nat) : rmat :=
  tabulate2 n n (fun i j => if Nat.eqb i j then 1 else 0).

(** [v[i]] *)
Definition index (v : rvec) (i : nat) : R + index_exn :=
  match nth_error v i with
  | Some x => inl x
  | None => inr IndexError
  end.

(** [M[i, j] = x] on an array allocated with its shape. *)
Definition rassign (m : rmat) (i j : nat) (x : R) : rmat :=
  tabulate2 (length m) (length (hd [] m))
    (fun i' j' => if Nat.eqb i' i && Nat.eqb j' j then x else rmget m i' j').

Definition Reqb (x y : R) : bool := if Req_dec_T x y then true else false.

(** The body of the loop over [(i1, i2)]. *)
Definition kanamori_step (Sidx Oidx : rvec) (U J : R) (U_mat : rmat)
           (i12 : nat * nat) : rmat + index_exn :=
  let (i1, i2) := i12 in
  match index Sidx i1, index Sidx i2, index Oidx i1, index Oidx i2 with
  | inl s1, inl s2, inl o1, inl o2 =>
      if Reqb o1 o2 then
        if negb (Reqb s1 s2) then inl (rassign U_mat i1 i2 U)
        else inl U_mat
      else
        if Reqb s1 s2 then inl (rassign U_mat i1 i2 (U - 3 * J))
        else inl (rassign U_mat i2 i1 (U - 2 * J))
  | _, _, _, _ => inr IndexError
  end.

(** [U_matrix_kanamori_dens_dens]; [norb/2] is the integer division of
    Python 2. *)
Definition U_matrix_kanamori_dens_dens (norb : nat) (U J : R)
  : rmat + index_exn :=
  let half := (norb / 2)%nat in
  let Sz := rkron 2 2 (rdiag_of_vec [1 / 2; - (1 / 2)]) half half (reye half) in
  let Oidx :=
    rdiag_of_mat (rkron 2 2 (reye 2) half half
                        (rdiag_of_vec (map INR (seq 0 half)))) in
  let Sidx := rdiag_of_mat Sz in
  let U_mat : rmat := tabulate2 norb norb (fun _ _ => 0) in
  fold_left
    (fun acc i12 =>
       match acc with
       | inl U_mat => kanamori_step Sidx Oidx U J U_mat i12
       | inr e => inr e
       end)
    (list_prod (seq 0 norb) (seq 0 norb))
    (inl U_mat).

(* ------------------------------------------------------------------ *)
(** ** [HartreeFockResponse] *)

(** [T.reshape((n**2, n**2))] of an [(n, n, n, n)] array and
    [M.reshape((n, n, n, n))] of an [(n**2, n**2)] matrix, row-major. *)
Definition to_matrix (n : nat) (T : tensor4) : mat :=
  tabulate2 (n * n) (n * n)
    (fun A B => tget T (A / n) (A mod n) (B / n) (B mod n)).

Definition to_tensor (n : nat) (M : mat) : tensor4 :=
  tabulate n (fun a => tabulate n (fun b =>
    tabulate2 n n (fun c d => mget M (a * n + b) (c * n + d)))).

(** The four-index arrays numpy builds. *)
Definition is_tensor4 (n : nat) (T : tensor4) : Prop :=
  length T = n /\
  Forall (fun Ta => length Ta = n /\ Forall (is_mat n n) Ta) T.







(* ------------------------------------------------------------------ *)
(** ** Contracts of the library calls of a whole run

    What numpy documents for [eigh] and [eigvalsh] on a stack of [n x n]
    blocks: one row of [n] eigenvalues and one [n x n] matrix per block,
    the same eigenvalues from both routines, and eigenvectors (the columns
    [v[:, b]]) of unit length. *)
Definition eigh_normalised (eigh : list mat -> list rvec * list mat)
           (eigvalsh : list mat -> list rvec) (n : nat) : Prop :=
  forall E : list mat,
    Forall (is_mat n n) E ->
    eigvalsh E = fst (eigh E) /\
    length (fst (eigh E)) = length E /\
    Forall (fun row => length row = n) (fst (eigh E)) /\
    length (snd (eigh E)) = length E /\
    Forall (is_mat n n) (snd (eigh E)) /\
    forall k b, (k < length E)%nat -> (b < n)%nat ->
      Csum (tabulate n (fun a =>
        (Cconj (aget (snd (eigh E)) k a b) * aget (snd (eigh E)) k a b)%C))
      = C1.

(** What scipy documents for [brentq], at the calls the solver makes: on
    the density constraint of a dispersion [e_k + M], the mean field [M] an
    [n x n] matrix, the value it returns is a root. *)
Definition brentq_solves_density
           (brentq : (R -> R) -> R -> R -> result R)
           (eigvalsh : list mat -> list rvec)
           (e_k : Gf) (n : nat) (beta N_tot mu_min mu_max : R) : Prop :=
  forall (M : mat) (mu : R),
    is_mat n n M ->
    let E := bcast_add (data e_k) M in
    brentq (target_function (eigvalsh E) (length E) beta N_tot) mu_min mu_max
    = Ok mu ->
    target_function (eigvalsh E) (length E) beta N_tot mu = 0.

(** [brentq] on functions whose root in the bracket, if they have one, is
    [c]: the sign test of scipy, then the root, checked. *)
Definition brentq_checked_at (c : R) (f : R -> R) (a b : R) : result R :=
  if Rlt_dec 0 (f a * f b) then Raise ValueError
  else if Req_dec_T (f c) 0 then Ok c else Raise ValueError.

(** The two-orbital model at [beta = 1] and half filling, [N_tot = 1],
    started from the mean field of the uniform occupations [(1/2, 1/2)]:
    by particle-hole symmetry the chemical potential of every iterate is
    [2]. *)
Definition two_orbital_ready : Solver :=
  set_N_tot (set_beta two_orbital_solver 1) 1.
Definition two_orbital_M0 : mat :=
  [ [RtoC (3 / 2); C0]; [C0; RtoC (3 / 2)] ].

(** The occupations the two-orbital run visits: where [solve_setup] starts
    it, and what the first composite step computes from there. *)
Definition two_orbital_rho0 : rvec := [fermi (- (1 / 2)) 1; fermi (1 / 2) 1].
Definition two_orbital_new0 : rvec :=
  [fermi (3 * fermi (1 / 2) 1 - 2) 1; fermi (3 * fermi (- (1 / 2)) 1 - 1) 1].

(* ================================================================== *)
(** * Properties *)

(* ------------------------------------------------------------------ *)
(** ** The error monad, comparisons, complex numbers *)

Lemma bind_Ok_inv {A B : Type} (c : result A) (k : A -> result B) (b : B) :
  bind c k = Ok b -> exists a, c = Ok a /\ k a = Ok b.
Proof.
  destruct c as [a | e]; simpl; intros H.
  - exists a; split; [reflexivity | exact H].
  - discriminate H.
Qed.

Lemma Rltb_true (x y : R) : Rltb x y = true <-> x < y.
Proof. unfold Rltb; destruct (Rlt_dec x y); split; intros; auto; discriminate.
    Qed.

Lemma Rltb_false (x y : R) : Rltb x y = false <-> ~ x < y.
Proof.
  unfold Rltb; destruct (Rlt_dec x y); split; intros; auto;
    [discriminate | contradiction].
Qed.

Lemma Rleb_true (x y : R) : Rleb x y = true <-> x <= y.
Proof. unfold Rleb; destruct (Rle_dec x y); split; intros; auto; discriminate.
    Qed.

Lemma Rleb_false (x y : R) : Rleb x y = false <-> ~ x <= y.
Proof.
  unfold Rleb; destruct (Rle_dec x y); split; intros; auto;
    [discriminate | contradiction].
Qed.

Lemma C_eq (a b : C) : Re a = Re b -> Im a = Im b -> a = b.
Proof. destruct a, b; simpl; intros -> ->; reflexivity. Qed.

Ltac Csimp := apply C_eq; simpl; try lra; try nra.

Lemma Cadd_0_l a : (C0 + a)%C = a.  Proof. Csimp. Qed.
Lemma Cadd_0_r a : (a + C0)%C = a.  Proof. Csimp. Qed.
Lemma Cadd_comm a b : (a + b)%C = (b + a)%C.  Proof. Csimp. Qed.
Lemma Cadd_assoc a b c : (a + (b + c))%C = ((a + b) + c)%C.  Proof. Csimp. Qed.
Lemma Csub_0_r a : (a - C0)%C = a.  Proof. Csimp. Qed.
Lemma Cmul_0_l a : (C0 * a)%C = C0.  Proof. Csimp. Qed.
Lemma Cmul_0_r a : (a * C0)%C = C0.  Proof. Csimp. Qed.
Lemma Cmul_1_l a : (C1 * a)%C = a.  Proof. Csimp. Qed.
Lemma Cmul_1_r a : (a * C1)%C = a.  Proof. Csimp. Qed.
Lemma Cmul_comm a b : (a * b)%C = (b * a)%C.  Proof. Csimp. Qed.
Lemma Cconj_invol a : Cconj (Cconj a) = a.  Proof. Csimp. Qed.
Lemma Cneg_0 : (- C0)%C = C0.  Proof. Csimp. Qed.

(* ------------------------------------------------------------------ *)
(** ** Lists as arrays: indexing lemmas *)

Lemma length_tabulate {A : Type} (n : nat) (f : nat -> A) :
  length (tabulate n f) = n.
Proof. unfold tabulate. rewrite length_map, length_seq. reflexivity. Qed.

Lemma nth_tabulate {A : Type} (n : nat) (f : nat -> A) (d : A) (i : nat) :
  (i < n)%nat -> nth i (tabulate n f) d = f i.
Proof.
  intros Hi. unfold tabulate.
  rewrite (nth_indep _ d (f 0%nat)) by (rewrite length_map, length_seq; exact
      Hi).
  rewrite map_nth, seq_nth by exact Hi. reflexivity.
Qed.

Lemma tabulate_ext {A : Type} (n : nat) (f g : nat -> A) :
  (forall i, (i < n)%nat -> f i = g i) -> tabulate n f = tabulate n g.
Proof.
  intros H. unfold tabulate. apply map_ext_in.
  intros i Hi. apply in_seq in Hi. apply H. lia.
Qed.

Lemma tabulate_S {A : Type} (n : nat) (f : nat -> A) :
  tabulate (S n) f = f 0%nat :: tabulate n (fun i => f (S i)).
Proof.
  unfold tabulate. simpl. f_equal.
  rewrite <- seq_shift, map_map. reflexivity.
Qed.

Lemma tabulate_nth {A : Type} (l : list A) (d : A) :
  tabulate (length l) (fun i => nth i l d) = l.
Proof.
  induction l as [| x l IH]; [reflexivity |].
  simpl length. rewrite tabulate_S. simpl. f_equal. exact IH.
Qed.

Lemma list_ext {A : Type} (d : A) (l l' : list A) :
  length l = length l' ->
  (forall i, (i < length l)%nat -> nth i l d = nth i l' d) -> l = l'.
Proof.
  intros Hlen H.
  rewrite <- (tabulate_nth l d), <- (tabulate_nth l' d), <- Hlen.
  apply tabulate_ext. exact H.
Qed.

Lemma is_mat_tabulate2 (n p : nat) (f : nat -> nat -> C) :
  is_mat n p (tabulate2 n p f).
Proof.
  split.
  - apply length_tabulate.
  - apply Forall_forall. intros r Hr. unfold tabulate2, tabulate in Hr.
    apply in_map_iff in Hr. destruct Hr as [i [<- _]]. apply length_tabulate.
Qed.

Lemma mget_tabulate2 (n p : nat) (f : nat -> nat -> C) (i j : nat) :
  (i < n)%nat -> (j < p)%nat -> mget (tabulate2 n p f) i j = f i j.
Proof.
  intros Hi Hj. unfold mget, tabulate2.
  rewrite nth_tabulate by exact Hi. apply nth_tabulate. exact Hj.
Qed.

Lemma is_mat_row (n p : nat) (m : mat) (i : nat) :
  is_mat n p m -> (i < n)%nat -> length (nth i m []) = p.
Proof.
  intros [Hn Hr] Hi. rewrite Forall_forall in Hr. apply Hr.
  apply nth_In. lia.
Qed.

Lemma mat_ext (n p : nat) (a b : mat) :
  is_mat n p a -> is_mat n p b ->
  (forall i j, (i < n)%nat -> (j < p)%nat -> mget a i j = mget b i j) ->
  a = b.
Proof.
  intros Ha Hb H. apply (list_ext []).
  - destruct Ha as [-> _], Hb as [-> _]. reflexivity.
  - intros i Hi. assert (Hi' : (i < n)%nat) by (destruct Ha as [<- _]; exact
      Hi).
    apply (list_ext C0).
    + rewrite (is_mat_row n p a), (is_mat_row n p b) by assumption. reflexivity.
    + intros j Hj. rewrite (is_mat_row n p a) in Hj by assumption.
      apply (H i j Hi' Hj).
Qed.

Lemma length_map2 {A B D : Type} (f : A -> B -> D) (l : list A) (l' : list B) :
  length (map2 f l l') = Nat.min (length l) (length l').
Proof. unfold map2. rewrite length_map, length_combine. reflexivity. Qed.

Lemma nth_map2 {A B D : Type} (f : A -> B -> D) (l : list A) (l' : list B)
      (da : A) (db : B) (dd : D) (i : nat) :
  (i < length l)%nat -> (i < length l')%nat ->
  nth i (map2 f l l') dd = f (nth i l da) (nth i l' db).
Proof.
  unfold map2. revert l' i.
  induction l as [| x l IH]; intros [| y l'] [| i] Hl Hl'; simpl in *;
    try lia; try reflexivity.
  apply IH; lia.
Qed.

(* ------------------------------------------------------------------ *)
(** ** Entries of the arrays numpy builds *)

Lemma mget_out_of_rows (m : mat) (i j : nat) :
  (length m <= i)%nat -> mget m i j = C0.
Proof.
  intros H. unfold mget. rewrite (nth_overflow m) by exact H.
  destruct j; reflexivity.
Qed.

Lemma dot_row_tabulate (row : vec) (v : rvec) :
  length row = length v ->
  dot_row row v =
  Csum (tabulate (length v) (fun c => Cscale (rget v c) (vget row c))).
Proof.
  revert v. induction row as [| x row IH]; intros [| y v] Hlen;
    simpl in Hlen; try discriminate; [reflexivity |].
  injection Hlen as Hlen. simpl length. rewrite tabulate_S.
  unfold dot_row in *. simpl. f_equal. apply IH. exact Hlen.
Qed.

Lemma length_dot_mv (U : mat) (v : rvec) : length (dot_mv U v) = length U.
Proof. unfold dot_mv. apply length_map. Qed.

Lemma vget_dot_mv (U : mat) (v : rvec) (a : nat) :
  (a < length U)%nat ->
  vget (dot_mv U v) a = dot_row (nth a U []) v.
Proof.
  intros Ha. unfold vget, dot_mv.
  rewrite (nth_indep _ C0 (dot_row [] v)) by (rewrite length_map; exact Ha).
  apply (map_nth (fun row => dot_row row v)).
Qed.

Lemma mget_diag_of_vec (v : vec) (a b : nat) :
  (a < length v)%nat -> (b < length v)%nat ->
  mget (diag_of_vec v) a b = if Nat.eqb a b then vget v a else C0.
Proof.
  intros Ha Hb. unfold diag_of_vec.
  rewrite mget_tabulate2 by assumption. reflexivity.
Qed.

Lemma is_mat_madd (n p : nat) (a b : mat) :
  is_mat n p a -> is_mat n p b -> is_mat n p (madd a b).
Proof.
  intros Ha Hb. split.
  - unfold madd. rewrite length_map2.
    destruct Ha as [-> _], Hb as [-> _]. apply Nat.min_id.
  - apply Forall_forall. intros r Hr.
    destruct (In_nth _ _ [] Hr) as [i [Hi <-]].
    unfold madd in Hi. rewrite length_map2 in Hi.
    assert (Hia : (i < n)%nat) by (destruct Ha as [<- _]; lia).
    unfold madd. rewrite (nth_map2 _ _ _ [] []) by
      (destruct Ha as [? _], Hb as [? _]; lia).
    rewrite length_map2, (is_mat_row n p a), (is_mat_row n p b) by assumption.
    apply Nat.min_id.
Qed.

Lemma mget_madd (n p : nat) (a b : mat) (i j : nat) :
  is_mat n p a -> is_mat n p b -> (i < n)%nat -> (j < p)%nat ->
  mget (madd a b) i j = (mget a i j + mget b i j)%C.
Proof.
  intros Ha Hb Hi Hj. unfold mget, madd.
  rewrite (nth_map2 _ _ _ [] []) by (destruct Ha as [? _], Hb as [? _]; lia).
  apply nth_map2.
  - rewrite (is_mat_row n p a); assumption.
  - rewrite (is_mat_row n p b); assumption.
Qed.

Lemma length_bcast_add (a : list mat) (m : mat) :
  length (bcast_add a m) = length a.
Proof. unfold bcast_add. apply length_map. Qed.

Lemma nth_bcast_add (a : list mat) (m : mat) (k : nat) :
  (k < length a)%nat -> nth k (bcast_add a m) [] = madd (nth k a []) m.
Proof.
  intros Hk. unfold bcast_add.
  rewrite (nth_indep _ [] (madd [] m)) by (rewrite length_map; exact Hk).
  apply (map_nth (fun ak => madd ak m)).
Qed.

Lemma Forall_is_mat_nth (n p : nat) (a : list mat) (k : nat) :
  Forall (is_mat n p) a -> (k < length a)%nat -> is_mat n p (nth k a []).
Proof.
  intros H Hk. rewrite Forall_forall in H. apply H. apply nth_In. exact Hk.
Qed.

Lemma aget_bcast_add (n p : nat) (a : list mat) (m : mat) (k i j : nat) :
  Forall (is_mat n p) a -> is_mat n p m ->
  (k < length a)%nat -> (i < n)%nat -> (j < p)%nat ->
  aget (bcast_add a m) k i j = (aget a k i j + mget m i j)%C.
Proof.
  intros Ha Hm Hk Hi Hj. unfold aget.
  rewrite nth_bcast_add by exact Hk.
  apply (mget_madd n p); try assumption.
  apply Forall_is_mat_nth; assumption.
Qed.

Lemma Forall_is_mat_bcast_add (n p : nat) (a : list mat) (m : mat) :
  Forall (is_mat n p) a -> is_mat n p m ->
  Forall (is_mat n p) (bcast_add a m).
Proof.
  intros Ha Hm. unfold bcast_add. apply Forall_forall. intros x Hx.
  apply in_map_iff in Hx. destruct Hx as [ak [<- Hak]].
  apply is_mat_madd; [| exact Hm].
  rewrite Forall_forall in Ha. apply Ha. exact Hak.
Qed.

Lemma mget_extract_dens_dens (U : tensor4) (a b : nat) :
  (a < length U)%nat -> (b < length U)%nat ->
  mget (extract_dens_dens U) a b = tget U a a b b.
Proof.
  intros Ha Hb. unfold extract_dens_dens.
  rewrite mget_tabulate2 by assumption. reflexivity.
Qed.

Lemma is_mat_extract_dens_dens (U : tensor4) :
  is_mat (length U) (length U) (extract_dens_dens U).
Proof. apply is_mat_tabulate2. Qed.

(* ------------------------------------------------------------------ *)
(** ** The mean-field update *)

(** C5.  On a solver of [n] orbitals whose [U_ab] is the density-density
    part of [U_abcd] (as [__init__] leaves it), for every occupation vector
    [rho_diag] of length [n]: [__update_mean_field] sets [M] to
    [diag(U_ab . rho_diag)], the diagonal matrix whose entry [a] is
    [sum_c U_abcd[a,a,c,c] * rho_diag[c]] and whose off-diagonal entries are
    zero, and [__update_mean_field_dispersion] then sets
    [e_k_MF[k] = e_k[k] + M] at every k-point, leaving [e_k] and [U_ab] as
    they were. *)
Theorem mean_field_update_is_diagonal_shift :
  forall (s : Solver) (rho_diag : rvec) (n : nat),
    self_U_ab s = extract_dens_dens (self_U_abcd s) ->
    length (self_U_abcd s) = n ->
    Forall (is_mat n n) (data (self_e_k s)) ->
    length rho_diag = n ->
    exists (M : mat) (s' : Solver),
      self_M (update_mean_field s rho_diag) = Some M /\
      M = diag_of_vec (dot_mv (self_U_ab s) rho_diag) /\
      is_mat n n M /\
      (forall a b, (a < n)%nat -> (b < n)%nat ->
         mget M a b =
         if Nat.eqb a b
         then Csum (tabulate n (fun c =>
                Cscale (rget rho_diag c) (tget (self_U_abcd s) a a c c)))
         else C0) /\
      update_mean_field_dispersion (update_mean_field s rho_diag) = Ok s' /\
      len_mesh (self_e_k_MF s') = len_mesh (self_e_k s) /\
      (forall k a b,
         (k < len_mesh (self_e_k s))%nat -> (a < n)%nat -> (b < n)%nat ->
         aget (data (self_e_k_MF s')) k a b =
         (aget (data (self_e_k s)) k a b + mget M a b)%C) /\
      self_e_k s' = self_e_k s /\
      self_U_ab s' = self_U_ab s.
Proof.
  intros s rho_diag n HU Hn Hwf Hrho.
  set (M := diag_of_vec (dot_mv (self_U_ab s) rho_diag)).
  assert (HlenU : length (self_U_ab s) = n).
  { rewrite HU. rewrite <- Hn. apply (is_mat_extract_dens_dens (self_U_abcd
      s)). }
  assert (HlenM : length (dot_mv (self_U_ab s) rho_diag) = n).
  { rewrite length_dot_mv. exact HlenU. }
  assert (HM : is_mat n n M).
  { unfold M, diag_of_vec. rewrite HlenM. apply is_mat_tabulate2. }
  exists M.
  exists (set_e_k_MF (update_mean_field s rho_diag)
            (mkGf (bcast_add (data (self_e_k s)) M)
                  (target_shape (self_e_k_MF s)))).
  repeat split; try reflexivity; try (apply HM).
  - intros a b Ha Hb. unfold M.
    rewrite mget_diag_of_vec by (rewrite HlenM; assumption).
    destruct (Nat.eqb a b); [| reflexivity].
    rewrite vget_dot_mv by (rewrite HlenU; exact Ha).
    assert (Hrow : length (nth a (self_U_ab s) []) = n).
    { apply (is_mat_row n n); [| exact Ha].
      rewrite HU, <- Hn. apply is_mat_extract_dens_dens. }
    rewrite dot_row_tabulate by (rewrite Hrow, Hrho; reflexivity).
    rewrite Hrho. f_equal. apply tabulate_ext. intros c Hc. f_equal.
    change (vget (nth a (self_U_ab s) []) c) with (mget (self_U_ab s) a c).
    rewrite HU. apply mget_extract_dens_dens; rewrite Hn; assumption.
  - simpl. unfold len_mesh. simpl. apply length_bcast_add.
  - intros k a b Hk Ha Hb. simpl.
    apply (aget_bcast_add n n); assumption.
Qed.

(** Evaluation of the list and index structure of concrete arrays; the real
    numbers inside are left to [lra]. *)
Ltac arr_compute :=
  cbv [tabulate tabulate2 map seq fold_right Csum Rsum nth hd length combine
       fst snd Nat.eqb Nat.min Nat.ltb Nat.leb andb negb orb app
       rget rget2 vget mget aget tget nrows ncols dim1 dim2 shape
       zeros eye diag_of_vec diag_of_mat dot_row dot_mv map2 madd msub mneg
       mscale mdivr mconj3 bcast_add bcast_sub mmul kwarg
       rvsub rvadd rvscale mix fold_left sum_axis0 assign_entry assign_row
       einsum_kab_kb_kcb_ac einsum_kab_kb_kcb_kac density_matrix
       rho_mf chi0_op chi0_mat perturb projector difference_quotient
       extract_dens_dens two_orbital_U_abcd two_orbital_e_k
       two_orbital_solver atom_e_k atom_U_abcd atom_solver atom_ready
       eigh_of_diagonal eigvalsh_of_diagonal
       data target_shape len_mesh
       set_mu set_beta set_e_k_MF set_M set_rho set_N_tot set_mixing
       set_nitermax
       self_mu self_beta self_mu_max self_mu_min self_e_k self_e_k_MF
       self_target_shape self_norb self_U_abcd self_U_ab self_M self_rho
       self_N_tot self_mixing self_nitermax
       RtoC C0 C1 Cadd Csub Cmul Cneg Cconj Cscale Cdivr Cnorm2 Re Im].

Lemma two_orbital_solver_init :
  Solver_init two_orbital_e_k two_orbital_U_abcd None None
  = Ok two_orbital_solver.
Proof. reflexivity. Qed.

(** The mean-field update run on the two-orbital solver at occupations
    [(1/2, 1/4)]: orbital 0 is shifted by [3 * 1/4], orbital 1 by
    [3 * 1/2]. *)
Lemma mean_field_update_is_diagonal_shift_witness :
  self_U_ab two_orbital_solver
  = extract_dens_dens (self_U_abcd two_orbital_solver) /\
  length (self_U_abcd two_orbital_solver) = 2%nat /\
  Forall (is_mat 2 2) (data (self_e_k two_orbital_solver)) /\
  length [1 / 2; 1 / 4] = 2%nat /\
  exists M : mat,
    self_M (update_mean_field two_orbital_solver [1 / 2; 1 / 4]) = Some M /\
    mget M 0 0 = RtoC (3 / 4) /\ mget M 1 1 = RtoC (3 / 2) /\
    mget M 0 1 = C0 /\ mget M 1 0 = C0.
Proof.
  assert (H1 : self_U_ab two_orbital_solver
               = extract_dens_dens (self_U_abcd two_orbital_solver))
    by reflexivity.
  assert (H2 : length (self_U_abcd two_orbital_solver) = 2%nat) by reflexivity.
  assert (H3 : Forall (is_mat 2 2) (data (self_e_k two_orbital_solver))).
  { repeat constructor. }
  assert (H4 : length [1 / 2; 1 / 4] = 2%nat) by reflexivity.
  repeat (split; [assumption |]).
  destruct (mean_field_update_is_diagonal_shift
              two_orbital_solver [1 / 2; 1 / 4] 2 H1 H2 H3 H4)
    as (M & s' & HM & _ & _ & Hent & _).
  exists M. split; [exact HM |].
  repeat split.
  - rewrite (Hent 0%nat 0%nat) by lia. arr_compute. f_equal; lra.
  - rewrite (Hent 1%nat 1%nat) by lia. arr_compute. f_equal; lra.
  - rewrite (Hent 0%nat 1%nat) by lia. reflexivity.
  - rewrite (Hent 1%nat 0%nat) by lia. reflexivity.
Defined.

(* ------------------------------------------------------------------ *)
(** ** The composite step and the self-consistency loop *)

Section Loop.

Variable eigh : list mat -> list rvec * list mat.
Variable eigvalsh : list mat -> list rvec.
Variable brentq : (R -> R) -> R -> R -> result R.

Let step := density_matrix_step eigh eigvalsh brentq.
Let step_rho := step_rho_diag eigh eigvalsh brentq.

Lemma same_model_refl (s : Solver) : same_model s s.
Proof. repeat split. Qed.

Lemma same_model_trans (s1 s2 s3 : Solver) :
  same_model s1 s2 -> same_model s2 s3 -> same_model s1 s3.
Proof.
  unfold same_model. intros (a1 & a2 & a3 & a4 & a5 & a6)
                            (b1 & b2 & b3 & b4 & b5 & b6).
  repeat split; etransitivity; eassumption.
Qed.

(** The composite step, unfolded: the mean field from [rho_diag], the
    shifted dispersion, the root of the density constraint, the new density
    matrix. *)
Lemma density_matrix_step_unfold (s : Solver) (rho_diag : rvec) :
  step s rho_diag =
  let M := diag_of_vec (dot_mv (self_U_ab s) rho_diag) in
  let e_k_MF := mkGf (bcast_add (data (self_e_k s)) M)
                     (target_shape (self_e_k_MF s)) in
  N_tot <- getattr "N_tot" (self_N_tot s) ;;
  mu <- brentq (target_function (eigvalsh (data e_k_MF)) (len_mesh e_k_MF)
                                (self_beta s) N_tot)
               (self_mu_min s) (self_mu_max s) ;;
  Ok (update_density_matrix eigh
        (set_mu (set_e_k_MF (set_M s M) e_k_MF) mu) (self_beta s)).
Proof.
  unfold step, density_matrix_step, update_mean_field,
    update_mean_field_dispersion, update_chemical_potential.
  cbv zeta. simpl.
  destruct (self_N_tot s) as [N |]; simpl; [| reflexivity].
  destruct (brentq _ _ _) as [mu |]; reflexivity.
Qed.

Lemma density_matrix_step_same_model (s s1 : Solver) (rho_diag new : rvec) :
  step s rho_diag = Ok (s1, new) -> same_model s s1.
Proof.
  rewrite density_matrix_step_unfold. cbv zeta.
  destruct (self_N_tot s) as [N |] eqn:HN; simpl; [| discriminate].
  destruct (brentq _ _ _) as [mu |]; simpl; [| discriminate].
  unfold update_density_matrix. destruct (eigh _) as [e V]. simpl.
  intros H. injection H as <- _. repeat split.
Qed.

Lemma step_rho_diag_same_model (s s' : Solver) (rho_diag : rvec) :
  same_model s s' -> step_rho s rho_diag = step_rho s' rho_diag.
Proof.
  intros (Hb & HN & Hmin & Hmax & He & HU).
  unfold step_rho, step_rho_diag.
  fold step. rewrite !density_matrix_step_unfold. cbv zeta.
  rewrite <- Hb, <- HN, <- Hmin, <- Hmax, <- He, <- HU.
  destruct (self_N_tot s) as [N |]; simpl; [| reflexivity].
  unfold len_mesh. simpl.
  destruct (brentq _ _ _) as [mu |]; simpl; [| reflexivity].
  unfold update_density_matrix. simpl.
  destruct (eigh _) as [e V]. simpl. unfold len_mesh. simpl. reflexivity.
Qed.

Lemma step_rho_diag_of_step (s s1 : Solver) (rho_diag new : rvec) :
  step s rho_diag = Ok (s1, new) -> step_rho s rho_diag = Ok new.
Proof.
  intros H. unfold step_rho, step_rho_diag. fold step. rewrite H. reflexivity.
Qed.

(** The loop, from any state of the same model as [s0]: what it appends to
    [rho_vec]. *)
Lemma solve_iter_loop_spec (mixing tol : R) (s0 : Solver) :
  forall (left : nat) (s : Solver) (rho : rvec) (acc : list rvec)
         (s' : Solver) (traj : list rvec),
    same_model s0 s ->
    solve_iter_loop eigh eigvalsh brentq left mixing tol s rho acc
    = Ok (s', traj) ->
    exists steps : list rvec,
      traj = acc ++ steps /\
      (length steps <= left)%nat /\
      ((0 < left)%nat -> nth 0 steps [] = rho /\ (0 < length steps)%nat) /\
      (forall i, (S i < length steps)%nat ->
         exists new,
           step_rho s0 (nth i steps []) = Ok new /\
           converged (nth i steps []) new tol = false /\
           nth (S i) steps [] = mix mixing (nth i steps []) new) /\
      ((length steps < left)%nat ->
         exists new,
           step_rho s0 (last steps []) = Ok new /\
           converged (last steps []) new tol = true) /\
      same_model s0 s'.
Proof.
  induction left as [| left IH]; intros s rho acc s' traj Hs H.
  - simpl in H. injection H as <- <-. exists [].
    rewrite app_nil_r. repeat split; simpl; try lia; try (apply Hs).
  - simpl in H. apply bind_Ok_inv in H. destruct H as [[s1 new] [Hstep H]].
    fold step in Hstep.
    assert (Hs1 : same_model s0 s1).
    { apply (same_model_trans _ s); [exact Hs |].
      apply (density_matrix_step_same_model _ _ _ _ Hstep). }
    assert (Hnew : step_rho s0 rho = Ok new).
    { rewrite (step_rho_diag_same_model s0 s rho Hs).
      apply (step_rho_diag_of_step _ _ _ _ Hstep). }
    destruct (converged rho new tol) eqn:Hconv.
    + injection H as <- <-. exists [rho].
      split; [reflexivity |]. split; [simpl; lia |].
      split; [intros _; simpl; split; [reflexivity | lia] |].
      split; [intros i Hi; simpl in Hi; lia |].
      split; [| exact Hs1].
      intros _. exists new. split; assumption.
    + apply (IH _ _ _ _ _ Hs1) in H.
      destruct H as (steps & Htraj & Hlen & Hhd & Hmid & Hlast & Hs').
      exists (rho :: steps).
      split; [rewrite Htraj, <- app_assoc; reflexivity |].
      split; [simpl; lia |].
      split; [intros _; simpl; split; [reflexivity | lia] |].
      split; [| split; [| exact Hs']].
      * intros [| i] Hi; simpl in Hi.
        -- exists new. split; [exact Hnew |]. split; [exact Hconv |].
           simpl. destruct left as [| left'].
           ++ lia.
           ++ destruct Hhd as [Hhd _]; [lia |]. exact Hhd.
        -- destruct (Hmid i) as (new' & H1 & H2 & H3); [lia |].
           exists new'. simpl nth.
           repeat split; assumption.
      * intros Hlt. simpl in Hlt.
        destruct steps as [| x steps'].
        -- simpl in Hlt. destruct left as [| left']; [lia |].
           destruct Hhd as [_ Hhd]; [lia |]. simpl in Hhd. lia.
        -- destruct Hlast as (new' & H1 & H2); [simpl in *; lia |].
           exists new'.
           change (last (rho :: x :: steps') []) with (last (x :: steps') []).
           split; assumption.
Qed.

End Loop.

(** The relative change of the iterate that [solve_iter] tests, when the
    old iterate is not the zero vector. *)
Lemma converged_iff (old new : rvec) (tol : R) :
  norm old <> 0 ->
  (converged old new tol = true <-> norm (rvsub old new) / norm old < tol).
Proof.
  intros Hn. unfold converged, float_div_ltb.
  destruct (Req_dec_T (norm old) 0) as [H0 | _]; [contradiction |].
  apply Rltb_true.
Qed.

(** The loop on a run in which no step converges: all [n] iterates are
    appended and nothing is raised. *)
Lemma solve_iter_loop_nonconverging
      (eigh : list mat -> list rvec * list mat)
      (eigvalsh : list mat -> list rvec)
      (brentq : (R -> R) -> R -> R -> result R) (mixing tol : R)
      (n : nat) (s s' : Solver) (rho : rvec) (steps : list rvec) :
  nonconverging_run eigh eigvalsh brentq mixing tol n s rho steps s' ->
  forall acc,
    solve_iter_loop eigh eigvalsh brentq n mixing tol s rho acc
    = Ok (s', acc ++ steps) /\ length steps = n.
Proof.
  induction 1 as [s rho | n s s1 s' rho new rest Hstep Hconv Hrun IH];
    intros acc.
  - simpl. rewrite app_nil_r. split; reflexivity.
  - simpl. rewrite Hstep. simpl. rewrite Hconv.
    destruct (IH (acc ++ [rho])) as [-> ->].
    rewrite <- app_assoc. split; reflexivity.
Qed.

(** C4.  When [nitermax] composite steps run from the state [solve_setup]
    leaves and none of them passes the convergence test, [solve_iter] raises
    nothing: it returns the [nitermax] iterates it visited, as a converged
    run would return its own. *)
Theorem solve_iter_silent_nonconvergence :
  forall (eigh : list mat -> list rvec * list mat)
         (eigvalsh : list mat -> list rvec)
         (brentq : (R -> R) -> R -> R -> result R)
         (s : Solver) (beta N_tot : R) (M0 : option mat) (mu0 : option R)
         (nitermax : nat) (mixing tol : R)
         (s0 s' : Solver) (rho0 : rvec) (steps : list rvec),
    0 <= mixing <= 1 ->
    solve_setup eigh eigvalsh brentq
                (set_nitermax (set_mixing s mixing) nitermax)
                beta N_tot M0 mu0 = Ok (s0, rho0) ->
    nonconverging_run eigh eigvalsh brentq mixing tol nitermax s0 rho0
                      steps s' ->
    solve_iter eigh eigvalsh brentq s beta N_tot M0 mu0
               (Some nitermax) (Some mixing) (Some tol) = Ok (s', steps) /\
    length steps = nitermax.
Proof.
  intros eigh eigvalsh brentq s beta N_tot M0 mu0 nitermax mixing tol
         s0 s' rho0 steps [Hlo Hhi] Hsetup Hrun.
  unfold solve_iter. simpl kwarg.
  apply Rleb_true in Hlo. apply Rleb_true in Hhi.
  rewrite Hlo, Hhi. simpl. rewrite Hsetup. simpl.
  destruct (solve_iter_loop_nonconverging _ _ _ _ _ _ _ _ _ _ Hrun [])
    as [Hloop Hlen].
  split; [exact Hloop | exact Hlen].
Qed.

(* ------------------------------------------------------------------ *)
(** ** The Fermi function *)

Lemma exp_gt_1 (x : R) : 0 < x -> 1 < exp x.
Proof. intros H. rewrite <- exp_0. apply exp_increasing. exact H. Qed.

Lemma exp_lt_1 (x : R) : x < 0 -> exp x < 1.
Proof. intros H. rewrite <- exp_0. apply exp_increasing. exact H. Qed.

Ltac fermi_bound :=
  unfold fermi;
  match goal with
  | |- context [exp ?x] =>
      let t := fresh "t" in
      pose proof (exp_pos x); set (t := exp x) in *;
      assert (0 < / (t + 1)) by (apply Rinv_0_lt_compat; lra);
      assert ((t + 1) * / (t + 1) = 1) by (apply Rinv_r; lra);
      unfold Rdiv; nra
  end.

Lemma fermi_0 (beta : R) : fermi 0 beta = 1 / 2.
Proof. unfold fermi. rewrite Rmult_0_r, exp_0. lra. Qed.

Lemma fermi_pos (e beta : R) : 0 < fermi e beta.
Proof. fermi_bound. Qed.

Lemma fermi_lt_1 (e beta : R) : fermi e beta < 1.
Proof. fermi_bound. Qed.

Lemma fermi_lt_half (e beta : R) : 0 < beta * e -> fermi e beta < 1 / 2.
Proof. intros H. pose proof (exp_gt_1 _ H). fermi_bound. Qed.

Lemma fermi_gt_half (e beta : R) : beta * e < 0 -> 1 / 2 < fermi e beta.
Proof. intros H. pose proof (exp_lt_1 _ H). fermi_bound. Qed.

(* ------------------------------------------------------------------ *)
(** ** The atom at half filling, run *)

Lemma brentq_atom_target (x : R) :
  x = 0 ->
  brentq_root_at_0 (target_function [[x]] 1 1 (1 / 2)) (-10) 10 = Ok 0.
Proof.
  intros ->. unfold brentq_root_at_0.
  match goal with
  | |- context [Rlt_dec 0 ?x] => destruct (Rlt_dec 0 x) as [Hpos | Hneg]
  end; [exfalso | reflexivity].
  revert Hpos. unfold target_function. arr_compute. cbv [INR].
  assert (H1 : fermi (0 - -10) 1 < 1 / 2) by (apply fermi_lt_half; lra).
  assert (H2 : 1 / 2 < fermi (0 - 10) 1) by (apply fermi_gt_half; lra).
  intros Hpos. nra.
Qed.

Ltac fermi_at_0 :=
  match goal with
  | |- context [fermi ?a ?b] => replace a with 0 by lra
  end;
  rewrite fermi_0; lra.

Lemma atom_step (s : Solver) (r : R) :
  same_model atom_ready s ->
  exists s1,
    density_matrix_step eigh_of_diagonal eigvalsh_of_diagonal brentq_root_at_0
                        s [r] = Ok (s1, [1 / 2]) /\
    same_model atom_ready s1.
Proof.
  intros Hs.
  assert (Hex : exists s1,
             density_matrix_step eigh_of_diagonal eigvalsh_of_diagonal
               brentq_root_at_0 s [r] = Ok (s1, [1 / 2])).
  { destruct Hs as (Hb & HN & Hmin & Hmax & He & HU).
    rewrite density_matrix_step_unfold. cbv zeta.
    rewrite <- Hb, <- HN, <- Hmin, <- Hmax, <- He, <- HU.
    unfold atom_ready. simpl getattr. cbv [bind]. arr_compute.
    rewrite brentq_atom_target by lra.
    unfold update_density_matrix. arr_compute. cbv [INR].
    eexists. f_equal. f_equal. f_equal. fermi_at_0. }
  destruct Hex as [s1 Hstep]. exists s1. split; [exact Hstep |].
  apply (same_model_trans _ s); [exact Hs |].
  apply (density_matrix_step_same_model _ _ _ _ _ _ _ Hstep).
Qed.

Lemma atom_setup (mixing : R) (nitermax : nat) :
  exists s0,
    solve_setup eigh_of_diagonal eigvalsh_of_diagonal brentq_root_at_0
                (set_nitermax (set_mixing atom_solver mixing) nitermax)
                1 (1 / 2) None None = Ok (s0, [1 / 2]) /\
    same_model atom_ready s0.
Proof.
  unfold solve_setup, update_chemical_potential, update_mean_field_dispersion.
  arr_compute. simpl getattr. cbv [bind]. arr_compute.
  rewrite brentq_atom_target by lra. arr_compute.
  rewrite brentq_atom_target by lra.
  unfold update_density_matrix. arr_compute. cbv [INR].
  eexists. split.
  - f_equal. f_equal. f_equal. fermi_at_0.
  - repeat split.
Qed.

Lemma converged_tol_0 (old new : rvec) : converged old new 0 = false.
Proof.
  unfold converged, float_div_ltb.
  destruct (Req_dec_T (norm old) 0) as [H0 | Hn]; [reflexivity |].
  apply Rltb_false. intros Hlt.
  assert (Hx : 0 <= norm (rvsub old new)) by apply sqrt_pos.
  assert (Hy : 0 < norm old).
  { destruct (sqrt_pos (Rsum (map (fun x => x * x) old))) as [H | H];
      [exact H | exfalso; apply Hn; symmetry; exact H]. }
  assert (Hq : 0 <= norm (rvsub old new) / norm old).
  { apply Rmult_le_pos; [exact Hx |]. left. apply Rinv_0_lt_compat. exact Hy. }
  lra.
Qed.

Lemma converged_atom_fixed_point :
  converged [1 / 2] [1 / 2] default_tol = true.
Proof.
  unfold converged, float_div_ltb, norm. arr_compute.
  destruct (Req_dec_T (sqrt (1 / 2 * (1 / 2) + 0)) 0) as [H0 | _].
  - exfalso. apply sqrt_eq_0 in H0; lra.
  - apply Rltb_true.
    replace ((1 / 2 - 1 / 2) * (1 / 2 - 1 / 2) + 0) with 0 by lra.
    rewrite sqrt_0. unfold Rdiv at 1. rewrite Rmult_0_l.
    unfold default_tol. apply Rdiv_lt_0_compat; [lra |].
    apply pow_lt. lra.
Qed.

(** The atom converges at the first composite step. *)
Lemma atom_solve_iter_converges :
  exists s',
    solve_iter eigh_of_diagonal eigvalsh_of_diagonal brentq_root_at_0
               atom_solver 1 (1 / 2) None None (Some 2%nat) (Some (1 / 2)) None
    = Ok (s', [[1 / 2]]).
Proof.
  unfold solve_iter. cbv [kwarg].
  rewrite (proj2 (Rleb_true 0 (1 / 2))) by lra.
  rewrite (proj2 (Rleb_true (1 / 2) 1)) by lra.
  cbv [py_assert bind].
  destruct (atom_setup (1 / 2) 2) as (s0 & -> & Hs0).
  destruct (atom_step s0 (1 / 2) Hs0) as (s1 & Hstep & _).
  cbn [solve_iter_loop app]. rewrite Hstep. cbv [bind].
  rewrite converged_atom_fixed_point. exists s1. reflexivity.
Qed.

(** [solve_iter] run on the atom with [tol = 0], which no step can pass:
    both allowed iterations are used and the two iterates returned. *)
Lemma solve_iter_silent_nonconvergence_witness :
  0 <= 1 / 2 <= 1 /\
  exists (s0 s' : Solver) (steps : list rvec),
    solve_setup eigh_of_diagonal eigvalsh_of_diagonal brentq_root_at_0
                (set_nitermax (set_mixing atom_solver (1 / 2)) 2)
                1 (1 / 2) None None = Ok (s0, [1 / 2]) /\
    nonconverging_run eigh_of_diagonal eigvalsh_of_diagonal brentq_root_at_0
                      (1 / 2) 0 2 s0 [1 / 2] steps s' /\
    solve_iter eigh_of_diagonal eigvalsh_of_diagonal brentq_root_at_0
               atom_solver 1 (1 / 2) None None
               (Some 2%nat) (Some (1 / 2)) (Some 0) = Ok (s', steps) /\
    length steps = 2%nat.
Proof.
  assert (Hmix : 0 <= 1 / 2 <= 1) by lra.
  split; [exact Hmix |].
  destruct (atom_setup (1 / 2) 2) as (s0 & Hsetup & Hs0).
  destruct (atom_step s0 (1 / 2) Hs0) as (s1 & Hstep1 & Hs1).
  destruct (atom_step s1 ((1 - 1 / 2) * (1 / 2) + 1 / 2 * (1 / 2)) Hs1)
    as (s2 & Hstep2 & _).
  assert (Hrun : nonconverging_run eigh_of_diagonal eigvalsh_of_diagonal
                   brentq_root_at_0 (1 / 2) 0 2 s0 [1 / 2]
                   [[1 / 2]; mix (1 / 2) [1 / 2] [1 / 2]] s2).
  { eapply nonconverging_cons; [exact Hstep1 | apply converged_tol_0 |].
    eapply nonconverging_cons; [exact Hstep2 | apply converged_tol_0 |].
    apply nonconverging_nil. }
  exists s0, s2, [[1 / 2]; mix (1 / 2) [1 / 2] [1 / 2]].
  split; [exact Hsetup |]. split; [exact Hrun |].
  apply (solve_iter_silent_nonconvergence _ _ _ _ _ _ _ _ _ _ _ _ _ _ _
           Hmix Hsetup Hrun).
Defined.

(* ------------------------------------------------------------------ *)
(** ** The chemical potential *)

(** C3.  [__update_chemical_potential] hands to [brentq] the function
    [mu |-> sum_k sum_b fermi(e_kb - mu) / N_k - N_tot] and the bracket
    [[mu_min, mu_max]] stored at construction ([[-10, 10]] unless given).
    Given scipy's contract for that call (no sign change over the bracket is
    a [ValueError]; a returned value is a root inside the bracket): without
    a sign change the update raises and returns no solver; whatever [brentq]
    raises is raised; and a returned solver differs from the old one in
    [mu] alone, which lies in the bracket and satisfies
    [sum_k sum_b fermi(e_kb - mu) / N_k = N_tot]. *)
Theorem update_chemical_potential_bracketed_root :
  forall (eigvalsh : list mat -> list rvec)
         (brentq : (R -> R) -> R -> R -> result R)
         (s : Solver) (beta N_tot : R) (mu0 : option R),
    let e := eigvalsh (data (self_e_k_MF s)) in
    let n_k := len_mesh (self_e_k_MF s) in
    let density := fun mu : R =>
      Rsum (map (fun row => Rsum (map (fun x => fermi (x - mu) beta) row)) e)
      / INR n_k in
    let f := target_function e n_k beta N_tot in
    (0 < f (self_mu_min s) * f (self_mu_max s) ->
     brentq f (self_mu_min s) (self_mu_max s) = Raise ValueError) ->
    (forall x, brentq f (self_mu_min s) (self_mu_max s) = Ok x ->
               f x = 0 /\ self_mu_min s <= x <= self_mu_max s) ->
    (forall mu, f mu = density mu - N_tot) /\
    (0 < f (self_mu_min s) * f (self_mu_max s) ->
     update_chemical_potential eigvalsh brentq s beta N_tot mu0
     = Raise ValueError) /\
    (forall err, brentq f (self_mu_min s) (self_mu_max s) = Raise err ->
       update_chemical_potential eigvalsh brentq s beta N_tot mu0
       = Raise err) /\
    (forall s', update_chemical_potential eigvalsh brentq s beta N_tot mu0
                = Ok s' ->
       s' = set_mu s (self_mu s') /\
       brentq f (self_mu_min s) (self_mu_max s) = Ok (self_mu s') /\
       self_mu_min s <= self_mu s' <= self_mu_max s /\
       density (self_mu s') = N_tot) /\
    (forall e_k U_abcd s0,
       Solver_init e_k U_abcd None None = Ok s0 ->
       self_mu_min s0 = -10 /\ self_mu_max s0 = 10) /\
    (forall e_k U_abcd mu_max mu_min s0,
       Solver_init e_k U_abcd (Some mu_max) (Some mu_min) = Ok s0 ->
       self_mu_min s0 = mu_min /\ self_mu_max s0 = mu_max).
Proof.
  intros eigvalsh brentq s beta N_tot mu0 e n_k density f Hsign Hroot.
  assert (Hraise : forall err,
             brentq f (self_mu_min s) (self_mu_max s) = Raise err ->
             update_chemical_potential eigvalsh brentq s beta N_tot mu0
             = Raise err).
  { intros err Herr. unfold update_chemical_potential.
    fold e n_k f. rewrite Herr. reflexivity. }
  split; [intros mu; reflexivity |].
  split; [intros Hpos; apply Hraise, Hsign, Hpos |].
  split; [exact Hraise |].
  split; [| split].
  - intros s' H. unfold update_chemical_potential in H. fold e n_k f in H.
    apply bind_Ok_inv in H. destruct H as [mu [Hb H]].
    injection H as <-. simpl self_mu.
    destruct (Hroot mu Hb) as [Hf Hin].
    repeat split; try assumption; try (apply Hin).
    change (f mu = 0) with (density mu - N_tot = 0) in Hf. lra.
  - intros e_k U_abcd s0 H. unfold Solver_init in H.
    apply bind_Ok_inv in H. destruct H as [[] [_ H]].
    injection H as <-. split; reflexivity.
  - intros e_k U_abcd mu_max mu_min s0 H. unfold Solver_init in H.
    apply bind_Ok_inv in H. destruct H as [[] [_ H]].
    injection H as <-. split; reflexivity.
Qed.

(** The chemical potential of the atom at half filling: the bracketed
    function changes sign over [[-10, 10]] and its root is [0]. *)
Lemma update_chemical_potential_bracketed_root_witness :
  exists s',
    update_chemical_potential eigvalsh_of_diagonal brentq_root_at_0
                              atom_ready 1 (1 / 2) None = Ok s' /\
    self_mu s' = 0 /\
    Rsum (map (fun row => Rsum (map (fun x => fermi (x - self_mu s') 1) row))
              (eigvalsh_of_diagonal (data (self_e_k_MF atom_ready))))
    / INR (len_mesh (self_e_k_MF atom_ready)) = 1 / 2.
Proof.
  pose (f := target_function
               (eigvalsh_of_diagonal (data (self_e_k_MF atom_ready)))
               (len_mesh (self_e_k_MF atom_ready)) 1 (1 / 2)).
  assert (Hsign : 0 < f (self_mu_min atom_ready) * f (self_mu_max atom_ready) ->
                  brentq_root_at_0 f (self_mu_min atom_ready)
                                   (self_mu_max atom_ready)
                  = Raise ValueError).
  { intros Hpos. unfold brentq_root_at_0.
    destruct (Rlt_dec 0 (f (self_mu_min atom_ready) * f (self_mu_max
        atom_ready)));
      [reflexivity | contradiction]. }
  assert (Hroot : forall x,
             brentq_root_at_0 f (self_mu_min atom_ready)
                              (self_mu_max atom_ready) = Ok x ->
             f x = 0 /\
             self_mu_min atom_ready <= x <= self_mu_max atom_ready).
  { intros x Hx. unfold brentq_root_at_0 in Hx.
    destruct (Rlt_dec 0 (f (self_mu_min atom_ready) * f (self_mu_max
        atom_ready)));
      [discriminate |].
    injection Hx as <-. split.
    - unfold f, target_function. arr_compute. cbv [INR].
      fermi_at_0.
    - arr_compute. lra. }
  destruct (update_chemical_potential_bracketed_root
              eigvalsh_of_diagonal brentq_root_at_0 atom_ready 1 (1 / 2) None
              Hsign Hroot) as (_ & _ & _ & Hok & _).
  assert (Hrun : update_chemical_potential eigvalsh_of_diagonal
                   brentq_root_at_0 atom_ready 1 (1 / 2) None
                 = Ok (set_mu atom_ready 0)).
  { unfold update_chemical_potential. arr_compute.
    rewrite brentq_atom_target by reflexivity. reflexivity. }
  exists (set_mu atom_ready 0). split; [exact Hrun |].
  split; [reflexivity |].
  destruct (Hok _ Hrun) as (_ & _ & _ & Hdens). exact Hdens.
Defined.

(* ------------------------------------------------------------------ *)
(** ** The Hartree response *)

(** C10.  [HartreeResponse(solver, eps)] does not depend on [eps]: two
    constructions from one solver with any two values of the argument give
    the same result, and an object that is returned stores the default
    [eps = 1e-9] of [BaseResponse.__init__] and has its [chi0_ab] computed
    with that step. *)
Theorem HartreeResponse_init_ignores_eps :
  forall (eigh : list mat -> list rvec * list mat)
         (inv : mat -> result mat)
         (solver : Solver) (eps eps' : option R),
    HartreeResponse_init eigh inv solver eps
    = HartreeResponse_init eigh inv solver eps' /\
    match HartreeResponse_init eigh inv solver eps with
    | Ok self =>
        resp_eps (base self) = 1 / 10 ^ 9 /\
        chi0_ab self = chi0_mat eigh (resp_e_k (base self))
                                (resp_beta (base self)) (1 / 10 ^ 9)
    | Raise _ => True
    end.
Proof.
  intros eigh inv solver eps eps'. split; [reflexivity |].
  unfold HartreeResponse_init. cbv zeta.
  destruct (inv _) as [X | err]; simpl; [| exact I].
  split; reflexivity.
Qed.

Lemma is_mat_zeros (n p : nat) : is_mat n p (zeros (n, p)).
Proof. apply is_mat_tabulate2. Qed.

Lemma ncols_square (n : nat) (m : mat) : is_mat n n m -> ncols m = n.
Proof.
  intros [Hn Hr]. unfold ncols. destruct m as [| r m]; simpl in *.
  - exact Hn.
  - inversion Hr; assumption.
Qed.

Lemma ncols_is_mat (n p : nat) (m : mat) :
  is_mat n p m -> (0 < n)%nat -> ncols m = p.
Proof.
  intros [Hn Hr] Hpos. unfold ncols. destruct m as [| r m]; simpl in *.
  - lia.
  - inversion Hr; assumption.
Qed.

Lemma nrows_is_mat (n p : nat) (m : mat) : is_mat n p m -> nrows m = n.
Proof. intros [Hn _]. exact Hn. Qed.

Lemma is_mat_assign_row (n p : nat) (m : mat) (i : nat) (v : vec) :
  is_mat n p m -> (0 < n)%nat -> is_mat n p (assign_row m i v).
Proof.
  intros Hm Hpos. unfold assign_row.
  rewrite (nrows_is_mat n p), (ncols_is_mat n p) by assumption.
  apply is_mat_tabulate2.
Qed.

Lemma fold_left_invariant {A B : Type} (P : A -> Prop) (f : A -> B -> A)
      (l : list B) (a : A) :
  P a -> (forall x y, P x -> P (f x y)) -> P (fold_left f l a).
Proof.
  intros Ha Hf. revert a Ha. induction l as [| y l IH]; intros a Ha; simpl.
  - exact Ha.
  - apply IH. apply Hf. exact Ha.
Qed.

Lemma is_mat_chi0_mat (eigh : list mat -> list rvec * list mat)
      (e_k : Gf) (beta eps : R) :
  is_mat (fst (target_shape e_k)) (snd (target_shape e_k))
         (chi0_mat eigh e_k beta eps).
Proof.
  unfold chi0_mat. cbv zeta.
  destruct (target_shape e_k) as [n p]. simpl fst. simpl snd.
  destruct n as [| n].
  - simpl. apply is_mat_zeros.
  - apply fold_left_invariant.
    + apply is_mat_zeros.
    + intros x y Hx. apply is_mat_assign_row; [exact Hx | lia].
Qed.

Lemma Csum_zeros (n : nat) (f : nat -> C) :
  (forall i, (i < n)%nat -> f i = C0) -> Csum (tabulate n f) = C0.
Proof.
  intros H. rewrite (tabulate_ext n f (fun _ => C0) H).
  unfold tabulate. induction (seq 0 n) as [| x l IH]; simpl.
  - reflexivity.
  - rewrite IH. apply Cadd_0_l.
Qed.

(** A sum against a Kronecker delta picks one term. *)
Lemma Csum_delta_r (n : nat) (f : nat -> C) (j : nat) :
  (j < n)%nat ->
  Csum (tabulate n (fun l => (f l * (if Nat.eqb l j then C1 else C0))%C))
  = f j.
Proof.
  revert f j. induction n as [| n IH]; intros f j Hj; [lia |].
  rewrite tabulate_S. simpl Csum. destruct j as [| j].
  - simpl Nat.eqb. rewrite Cmul_1_r.
    rewrite Csum_zeros; [apply Cadd_0_r |].
    intros i _. simpl. apply Cmul_0_r.
  - simpl Nat.eqb at 1. rewrite Cmul_0_r, Cadd_0_l.
    apply (IH (fun l => f (S l))). lia.
Qed.

Lemma is_mat_eye (n : nat) : is_mat n n (eye n).
Proof. apply is_mat_tabulate2. Qed.

Lemma mget_eye (n i j : nat) :
  (i < n)%nat -> (j < n)%nat ->
  mget (eye n) i j = if Nat.eqb i j then C1 else C0.
Proof.
  intros Hi Hj. unfold eye. rewrite mget_tabulate2 by assumption. reflexivity.
Qed.

Lemma is_mat_mmul (n p q : nat) (a b : mat) :
  is_mat n p a -> is_mat q q b -> is_mat n q (mmul a b).
Proof.
  intros Ha Hb. unfold mmul.
  rewrite (nrows_is_mat n p a Ha), (ncols_square q b Hb).
  apply is_mat_tabulate2.
Qed.

Lemma mmul_eye_r (n : nat) (a : mat) : is_mat n n a -> mmul a (eye n) = a.
Proof.
  intros Ha. apply (mat_ext n n).
  - apply (is_mat_mmul n n n); [exact Ha | apply is_mat_eye].
  - exact Ha.
  - intros i j Hi Hj. unfold mmul.
    rewrite (nrows_is_mat n n a Ha), (ncols_square n (eye n) (is_mat_eye n)),
      (ncols_square n a Ha).
    rewrite mget_tabulate2 by assumption.
    rewrite (tabulate_ext n _
               (fun l => (mget a i l * (if Nat.eqb l j then C1 else C0))%C)).
    + apply Csum_delta_r. exact Hj.
    + intros l Hl. rewrite mget_eye by assumption. reflexivity.
Qed.

Lemma mmul_zero_l (n : nat) (u a : mat) :
  is_mat n n u -> is_mat n n a ->
  (forall i j, (i < n)%nat -> (j < n)%nat -> mget u i j = C0) ->
  mmul u a = zeros (n, n).
Proof.
  intros Hu Ha Hz. apply (mat_ext n n).
  - apply (is_mat_mmul n n n); assumption.
  - apply is_mat_zeros.
  - intros i j Hi Hj. unfold mmul, zeros. simpl fst. simpl snd.
    rewrite (nrows_is_mat n n u Hu), (ncols_square n a Ha),
      (ncols_square n u Hu).
    rewrite !mget_tabulate2 by assumption.
    apply Csum_zeros. intros l Hl. rewrite Hz by assumption. apply Cmul_0_l.
Qed.

Lemma is_mat_msub (n p : nat) (a b : mat) :
  is_mat n p a -> is_mat n p b -> is_mat n p (msub a b).
Proof.
  intros Ha Hb. split.
  - unfold msub. rewrite length_map2.
    destruct Ha as [-> _], Hb as [-> _]. apply Nat.min_id.
  - apply Forall_forall. intros r Hr.
    destruct (In_nth _ _ [] Hr) as [i [Hi <-]].
    unfold msub in Hi. rewrite length_map2 in Hi.
    assert (Hia : (i < n)%nat) by (destruct Ha as [<- _]; lia).
    unfold msub. rewrite (nth_map2 _ _ _ [] []) by
      (destruct Ha as [? _], Hb as [? _]; lia).
    rewrite length_map2, (is_mat_row n p a), (is_mat_row n p b) by assumption.
    apply Nat.min_id.
Qed.

Lemma mget_msub (n p : nat) (a b : mat) (i j : nat) :
  is_mat n p a -> is_mat n p b -> (i < n)%nat -> (j < p)%nat ->
  mget (msub a b) i j = (mget a i j - mget b i j)%C.
Proof.
  intros Ha Hb Hi Hj. unfold mget, msub.
  rewrite (nth_map2 _ _ _ [] []) by (destruct Ha as [? _], Hb as [? _]; lia).
  apply nth_map2.
  - rewrite (is_mat_row n p a); assumption.
  - rewrite (is_mat_row n p b); assumption.
Qed.

Lemma msub_zeros_r (n p : nat) (a : mat) :
  is_mat n p a -> msub a (zeros (n, p)) = a.
Proof.
  intros Ha. apply (mat_ext n p).
  - apply is_mat_msub; [exact Ha | apply is_mat_zeros].
  - exact Ha.
  - intros i j Hi Hj.
    rewrite (mget_msub n p) by (try assumption; apply is_mat_zeros).
    unfold zeros. simpl fst. simpl snd.
    rewrite mget_tabulate2 by assumption. apply Csub_0_r.
Qed.

(** Without interaction the matrix [I - U_ab * chi0_ab] of the Dyson
    equation is the identity. *)
Lemma dyson_matrix_without_interaction
      (eigh : list mat -> list rvec * list mat) (solver : Solver) (n : nat) :
  target_shape (self_e_k_MF solver) = (n, n) ->
  is_mat n n (self_U_ab solver) ->
  (forall i j, (i < n)%nat -> (j < n)%nat ->
               mget (self_U_ab solver) i j = C0) ->
  let self := BaseResponse_init solver None in
  let chi0 := chi0_mat eigh (resp_e_k self) (resp_beta self) (resp_eps self) in
  is_mat n n chi0 /\
  msub (eye (resp_norb self)) (mmul (self_U_ab (resp_solver self)) chi0)
  = eye n.
Proof.
  intros Hshape HU Hzero self chi0.
  assert (Hn : resp_norb self = n).
  { unfold self, BaseResponse_init. simpl. rewrite Hshape. reflexivity. }
  assert (Hchi0 : is_mat n n chi0).
  { pose proof (is_mat_chi0_mat eigh (resp_e_k self) (resp_beta self)
                                 (resp_eps self)) as H.
    assert (Ht : target_shape (resp_e_k self) = (n, n)) by exact Hshape.
    rewrite Ht in H. exact H. }
  split; [exact Hchi0 |].
  rewrite Hn. change (resp_solver self) with solver.
  rewrite (mmul_zero_l n) by assumption.
  apply msub_zeros_r. apply is_mat_eye.
Qed.

(** C6.  On a solver with [n] orbitals whose interaction matrix [U_ab] is
    identically zero, and with [np.linalg.inv] returning the identity for
    the identity: the constructor returns a response object, its [chi_ab]
    is its [chi0_ab], and [response(op1, op2)] is [bare_response(op1, op2)]
    for all probe operators (a returned value or the same exception). *)
Theorem response_is_bare_response_without_interaction :
  forall (eigh : list mat -> list rvec * list mat)
         (inv : mat -> result mat)
         (solver : Solver) (eps : option R) (n : nat),
    target_shape (self_e_k_MF solver) = (n, n) ->
    is_mat n n (self_U_ab solver) ->
    (forall i j, (i < n)%nat -> (j < n)%nat ->
                 mget (self_U_ab solver) i j = C0) ->
    inv (eye n) = Ok (eye n) ->
    exists self : HartreeResponse,
      HartreeResponse_init eigh inv solver eps = Ok self /\
      chi_ab self = chi0_ab self /\
      forall op1 op2 : mat, response self op1 op2 = bare_response self op1 op2.
Proof.
  intros eigh inv solver eps n Hshape HU Hzero Hinv.
  destruct (dyson_matrix_without_interaction eigh solver n Hshape HU Hzero)
    as [Hchi0 HI].
  unfold HartreeResponse_init. cbv zeta.
  rewrite HI, Hinv. cbv [bind].
  rewrite (mmul_eye_r n _ Hchi0).
  eexists. split; [reflexivity |].
  split; [reflexivity |].
  intros op1 op2. unfold response, bare_response. reflexivity.
Qed.

Lemma Cnorm2_C1 : Cnorm2 C1 = 1.
Proof. unfold Cnorm2, C1. simpl. lra. Qed.

Lemma Cinv_C1 : Cinv C1 = C1.
Proof. unfold Cinv, Cdivr, Cconj, Cnorm2, C1. simpl. apply C_eq; simpl; field.
    Qed.

Lemma inv_of_diagonal_eye (n : nat) : inv_of_diagonal (eye n) = Ok (eye n).
Proof.
  unfold inv_of_diagonal.
  rewrite (nrows_is_mat n n (eye n) (is_mat_eye n)).
  replace (existsb _ (seq 0 n)) with false.
  - f_equal. unfold eye, tabulate2. apply tabulate_ext. intros i Hi.
    apply tabulate_ext. intros j Hj.
    destruct (Nat.eqb i j) eqn:E; [| reflexivity].
    fold (tabulate2 n n (fun i j => if Nat.eqb i j then C1 else C0)).
    fold (eye n). rewrite mget_eye by assumption.
    rewrite Nat.eqb_refl. apply Cinv_C1.
  - symmetry. apply not_true_is_false. intros H.
    apply existsb_exists in H. destruct H as [i [Hi H]].
    apply in_seq in Hi. rewrite mget_eye in H by lia.
    rewrite Nat.eqb_refl, Cnorm2_C1 in H.
    destruct (Req_dec_T 1 0); [lra | discriminate].
Qed.

(** The response of the non-interacting atom. *)
Lemma response_is_bare_response_without_interaction_witness :
  target_shape (self_e_k_MF atom_ready) = (1%nat, 1%nat) /\
  is_mat 1 1 (self_U_ab atom_ready) /\
  inv_of_diagonal (eye 1) = Ok (eye 1) /\
  exists self : HartreeResponse,
    HartreeResponse_init eigh_of_diagonal inv_of_diagonal atom_ready None = Ok
        self /\
    response self [[C1]] [[C1]] = bare_response self [[C1]] [[C1]].
Proof.
  assert (H1 : target_shape (self_e_k_MF atom_ready) = (1%nat, 1%nat))
    by reflexivity.
  assert (H2 : is_mat 1 1 (self_U_ab atom_ready)) by (repeat constructor).
  assert (H3 : forall i j, (i < 1)%nat -> (j < 1)%nat ->
                           mget (self_U_ab atom_ready) i j = C0).
  { intros i j Hi Hj. destruct i; [| lia]. destruct j; [| lia]. reflexivity. }
  split; [exact H1 |]. split; [exact H2 |]. split; [exact (inv_of_diagonal_eye
      1) |].
  destruct (response_is_bare_response_without_interaction
              eigh_of_diagonal inv_of_diagonal atom_ready None 1 H1 H2 H3
                  (inv_of_diagonal_eye 1))
    as (self & Hinit & _ & Hresp).
  exists self. split; [exact Hinit | apply Hresp].
Defined.

(* ------------------------------------------------------------------ *)
(** ** The check of the probe operators *)

Lemma shape_eqb_true (s s' : nat * nat) : shape_eqb s s' = true <-> s = s'.
Proof.
  destruct s as [a b], s' as [a' b']. unfold shape_eqb. simpl.
  rewrite andb_true_iff, !Nat.eqb_eq. split.
  - intros [-> ->]. reflexivity.
  - intros H. injection H as -> ->. split; reflexivity.
Qed.

Lemma shape_square (n : nat) (m : mat) : is_mat n n m -> shape m = (n, n).
Proof.
  intros H. unfold shape.
  rewrite (nrows_is_mat n n m H), (ncols_square n m H). reflexivity.
Qed.

Lemma is_mat_diag_of_vec (v : vec) :
  is_mat (length v) (length v) (diag_of_vec v).
Proof. apply is_mat_tabulate2. Qed.

Lemma Cabs_C0 : Cabs C0 = 0.
Proof.
  unfold Cabs, Cnorm2, C0. simpl.
  replace (0 * 0 + 0 * 0) with 0 by lra. apply sqrt_0.
Qed.

Lemma Cabs_zero_minus_diff (x : C) : Cabs (C0 - (x - x))%C = 0.
Proof.
  replace (C0 - (x - x))%C with C0 by (apply C_eq; simpl; lra). apply Cabs_C0.
Qed.

Lemma Cabs_zero_minus (x : C) : Cabs (C0 - (x - C0))%C = Cabs x.
Proof. unfold Cabs. f_equal. unfold Cnorm2. simpl. lra. Qed.

(** The entries [__check_op] compares with zero: [op - diag(diag(op))]. *)
Lemma mget_off_diagonal_part (n : nat) (op : mat) (i j : nat) :
  is_mat n n op -> (i < n)%nat -> (j < n)%nat ->
  mget (msub op (diag_of_vec (diag_of_mat op))) i j
  = if Nat.eqb i j then (mget op i j - mget op i j)%C
    else (mget op i j - C0)%C.
Proof.
  intros Hop Hi Hj.
  assert (Hlen : length (diag_of_mat op) = n).
  { unfold diag_of_mat. rewrite length_tabulate.
    rewrite (nrows_is_mat n n op Hop), (ncols_square n op Hop).
    apply Nat.min_id. }
  assert (HD : is_mat n n (diag_of_vec (diag_of_mat op))).
  { pose proof (is_mat_diag_of_vec (diag_of_mat op)) as H.
    rewrite Hlen in H. exact H. }
  rewrite (mget_msub n n) by assumption.
  rewrite mget_diag_of_vec by (rewrite Hlen; assumption).
  destruct (Nat.eqb i j) eqn:E; [| reflexivity].
  apply Nat.eqb_eq in E. subst j. f_equal.
  unfold vget, diag_of_mat. rewrite nth_tabulate; [reflexivity |].
  rewrite (nrows_is_mat n n op Hop), (ncols_square n op Hop), Nat.min_id.
  exact Hi.
Qed.

Lemma is_mat_off_diagonal_part (n : nat) (op : mat) :
  is_mat n n op -> is_mat n n (msub op (diag_of_vec (diag_of_mat op))).
Proof.
  intros Hop. apply is_mat_msub; [exact Hop |].
  pose proof (is_mat_diag_of_vec (diag_of_mat op)) as H.
  replace (length (diag_of_mat op)) with n in H; [exact H |].
  unfold diag_of_mat. rewrite length_tabulate.
  rewrite (nrows_is_mat n n op Hop), (ncols_square n op Hop).
  symmetry. apply Nat.min_id.
Qed.

Lemma check_op_cases (self : HartreeResponse) (op : mat) :
  check_op self op = Ok tt \/ check_op self op = Raise AssertionError.
Proof.
  unfold check_op, assert_almost_equal, py_assert.
  destruct (shape_eqb _ _); simpl; [| right; reflexivity].
  destruct (_ && _); [left | right]; reflexivity.
Qed.

Lemma check_op_wrong_shape (self : HartreeResponse) (op : mat) :
  shape op <> target_shape (resp_e_k (base self)) ->
  check_op self op = Raise AssertionError.
Proof.
  intros H. unfold check_op.
  destruct (shape_eqb (shape op) (target_shape (resp_e_k (base self)))) eqn:E.
  - apply shape_eqb_true in E. contradiction.
  - reflexivity.
Qed.

(** On an operator of the right shape the check passes exactly when every
    off-diagonal entry is below the tolerance in magnitude. *)
Lemma check_op_square (self : HartreeResponse) (op : mat) (n : nat) :
  target_shape (resp_e_k (base self)) = (n, n) ->
  is_mat n n op ->
  (check_op self op = Ok tt <->
   forall i j, (i < n)%nat -> (j < n)%nat -> i <> j ->
               Cabs (mget op i j) < almost_equal_tol).
Proof.
  intros Ht Hop. unfold check_op. rewrite Ht.
  rewrite (proj2 (shape_eqb_true (shape op) (n, n)) (shape_square n op Hop)).
  simpl bind. unfold assert_almost_equal.
  set (A := msub op (diag_of_vec (diag_of_mat op))).
  assert (HA : is_mat n n A) by (apply is_mat_off_diagonal_part; exact Hop).
  rewrite (shape_square n op Hop).
  rewrite (shape_square n A HA), (shape_square n _ (is_mat_zeros n n)).
  rewrite (proj2 (shape_eqb_true (n, n) (n, n)) eq_refl). simpl andb.
  rewrite (nrows_is_mat n n A HA), (ncols_square n A HA).
  assert (Hentry : forall i j, (i < n)%nat -> (j < n)%nat ->
            Cabs (mget (zeros (n, n)) i j - mget A i j)%C
            = if Nat.eqb i j then 0 else Cabs (mget op i j)).
  { intros i j Hi Hj. unfold zeros. simpl fst. simpl snd.
    rewrite mget_tabulate2 by assumption.
    unfold A. rewrite (mget_off_diagonal_part n) by assumption.
    destruct (Nat.eqb i j).
    - apply Cabs_zero_minus_diff.
    - apply Cabs_zero_minus. }
  assert (Htol : 0 < almost_equal_tol) by (unfold almost_equal_tol; lra).
  unfold py_assert. split.
  - intros H i j Hi Hj Hij.
    destruct (forallb _ (seq 0 n)) eqn:E; [| discriminate].
    rewrite forallb_forall in E.
    assert (Ei := E i (proj2 (in_seq n 0 i) (conj (Nat.le_0_l i) Hi))).
    rewrite forallb_forall in Ei.
    assert (Eij := Ei j (proj2 (in_seq n 0 j) (conj (Nat.le_0_l j) Hj))).
    apply Rltb_true in Eij. rewrite Hentry in Eij by assumption.
    apply Nat.eqb_neq in Hij. rewrite Hij in Eij. exact Eij.
  - intros H.
    replace (forallb _ (seq 0 n)) with true; [reflexivity |].
    symmetry. apply forallb_forall. intros i Hi. apply in_seq in Hi.
    apply forallb_forall. intros j Hj. apply in_seq in Hj.
    apply Rltb_true. rewrite Hentry by lia.
    destruct (Nat.eqb i j) eqn:E; [exact Htol |].
    apply Nat.eqb_neq in E. apply H; lia.
Qed.

Lemma check_op_accepted (self : HartreeResponse) (op : mat) (n : nat) :
  target_shape (resp_e_k (base self)) = (n, n) ->
  probe_accepted n op -> check_op self op = Ok tt.
Proof.
  intros Ht [Hop Hsmall]. apply (check_op_square self op n Ht Hop). exact
      Hsmall.
Qed.

Lemma check_op_rejected (self : HartreeResponse) (op : mat) (n : nat) :
  target_shape (resp_e_k (base self)) = (n, n) ->
  probe_rejected n op -> check_op self op = Raise AssertionError.
Proof.
  intros Ht [Hshape | [Hop (i & j & Hi & Hj & Hij & Hbig)]].
  - apply check_op_wrong_shape. rewrite Ht. exact Hshape.
  - destruct (check_op_cases self op) as [Hok | Hraise]; [| exact Hraise].
    exfalso.
    pose proof (proj1 (check_op_square self op n Ht Hop) Hok i j Hi Hj Hij).
    lra.
Qed.

(** C7, as the code has it.  On a response with [n] orbitals,
    [bare_response] and [response] check both probe operators before the
    contraction, with [assert_almost_equal]: they raise [AssertionError]
    when a probe has another shape than [n x n] or an off-diagonal entry of
    magnitude [1.5e-7] or more, and for [n x n] probes whose off-diagonal
    entries are all smaller than that (diagonal probes among them) they
    return the double contraction with [chi0_ab], resp. [chi_ab]. *)
Theorem probe_check_up_to_tolerance :
  forall (self : HartreeResponse) (op1 op2 : mat) (n : nat),
    target_shape (resp_e_k (base self)) = (n, n) ->
    (probe_rejected n op1 \/ probe_rejected n op2 ->
     bare_response self op1 op2 = Raise AssertionError /\
     response self op1 op2 = Raise AssertionError) /\
    (probe_accepted n op1 -> probe_accepted n op2 ->
     bare_response self op1 op2
     = Ok (einsum_aa_ab_bb op1 (chi0_ab self) op2) /\
     response self op1 op2
     = Ok (einsum_aa_ab_bb op1 (chi_ab self) op2)) /\
    (forall op, is_mat n n op ->
                (forall i j, i <> j -> mget op i j = C0) ->
                probe_accepted n op) /\
    almost_equal_tol = 15 / 10 ^ 8.
Proof.
  intros self op1 op2 n Ht.
  split; [| split; [| split]].
  - intros Hrej. unfold bare_response, response.
    destruct Hrej as [H1 | H2].
    + rewrite (check_op_rejected self op1 n Ht H1). split; reflexivity.
    + rewrite (check_op_rejected self op2 n Ht H2).
      destruct (check_op_cases self op1) as [-> | ->]; split; reflexivity.
  - intros H1 H2. unfold bare_response, response.
    rewrite (check_op_accepted self op1 n Ht H1).
    rewrite (check_op_accepted self op2 n Ht H2).
    split; reflexivity.
  - intros op Hop Hdiag. split; [exact Hop |].
    intros i j _ _ Hij. rewrite (Hdiag i j Hij), Cabs_C0.
    unfold almost_equal_tol. lra.
  - unfold almost_equal_tol. lra.
Qed.

Lemma Cabs_RtoC (r : R) : 0 <= r -> Cabs (RtoC r) = r.
Proof.
  intros Hr. unfold Cabs, Cnorm2, RtoC. simpl.
  replace (r * r + 0 * 0) with (r * r) by lra. apply sqrt_square. exact Hr.
Qed.

Lemma mget_eye_off_diagonal (n i j : nat) : i <> j -> mget (eye n) i j = C0.
Proof.
  intros Hij.
  destruct (Nat.lt_ge_cases i n) as [Hi | Hi].
  - destruct (Nat.lt_ge_cases j n) as [Hj | Hj].
    + rewrite mget_eye by assumption.
      apply Nat.eqb_neq in Hij. rewrite Hij. reflexivity.
    + unfold mget. apply nth_overflow.
      rewrite (is_mat_row n n (eye n) i (is_mat_eye n) Hi). exact Hj.
  - apply mget_out_of_rows. destruct (is_mat_eye n) as [-> _]. exact Hi.
Qed.

Lemma nearly_diagonal_op_accepted : probe_accepted 2 nearly_diagonal_op.
Proof.
  split; [repeat constructor |].
  intros i j Hi Hj Hij.
  assert (Hcase : (i = 0 /\ j = 1)%nat \/ (i = 1 /\ j = 0)%nat) by lia.
  destruct Hcase as [[-> ->] | [-> ->]].
  - change (mget nearly_diagonal_op 0 1) with (RtoC (1 / 100000000)).
    rewrite Cabs_RtoC by lra. unfold almost_equal_tol. lra.
  - change (mget nearly_diagonal_op 1 0) with C0.
    rewrite Cabs_C0. unfold almost_equal_tol. lra.
Qed.

(** The response of the two free orbitals is built without error. *)
Lemma two_orbital_free_response :
  exists self : HartreeResponse,
    HartreeResponse_init eigh_of_diagonal inv_of_diagonal
                         two_orbital_free_solver None = Ok self /\
    target_shape (resp_e_k (base self)) = (2%nat, 2%nat).
Proof.
  assert (H1 : target_shape (self_e_k_MF two_orbital_free_solver)
               = (2%nat, 2%nat)) by reflexivity.
  assert (H2 : is_mat 2 2 (self_U_ab two_orbital_free_solver))
    by (repeat constructor).
  assert (H3 : forall i j, (i < 2)%nat -> (j < 2)%nat ->
                           mget (self_U_ab two_orbital_free_solver) i j = C0).
  { intros i j Hi Hj.
    change (self_U_ab two_orbital_free_solver) with (zeros (2%nat, 2%nat)).
    unfold zeros. rewrite mget_tabulate2 by assumption. reflexivity. }
  destruct (dyson_matrix_without_interaction
              eigh_of_diagonal two_orbital_free_solver 2 H1 H2 H3)
    as [_ HI].
  unfold HartreeResponse_init. cbv zeta.
  rewrite HI, inv_of_diagonal_eye. cbv [bind].
  eexists. split; reflexivity.
Qed.

(** The probe check on the response of the two free orbitals: an operator
    of the wrong shape is rejected, the nearly diagonal operator and the
    identity are accepted. *)
Lemma probe_check_up_to_tolerance_witness :
  exists self : HartreeResponse,
    HartreeResponse_init eigh_of_diagonal inv_of_diagonal
                         two_orbital_free_solver None = Ok self /\
    target_shape (resp_e_k (base self)) = (2%nat, 2%nat) /\
    bare_response self [[C1]] (eye 2) = Raise AssertionError /\
    bare_response self nearly_diagonal_op (eye 2)
    = Ok (einsum_aa_ab_bb nearly_diagonal_op (chi0_ab self) (eye 2)).
Proof.
  destruct two_orbital_free_response as (self & Hinit & Ht).
  exists self. split; [exact Hinit |]. split; [exact Ht |].
  destruct (probe_check_up_to_tolerance self [[C1]] (eye 2) 2 Ht)
    as (Hrej & _ & _ & _).
  destruct (probe_check_up_to_tolerance self nearly_diagonal_op (eye 2) 2 Ht)
    as (_ & Hacc & Hdiag & _).
  split.
  - apply Hrej. left. left. unfold shape. simpl. intros H. discriminate H.
  - apply Hacc; [exact nearly_diagonal_op_accepted |].
    apply Hdiag; [apply is_mat_eye |].
    intros i j Hij. apply mget_eye_off_diagonal. exact Hij.
Defined.

(** C7 as stated fails: the probe operator with the off-diagonal entry
    [1e-8] is not diagonal, has the right shape, and [bare_response] and
    [response] accept it and return a value. *)
Lemma nearly_diagonal_probe_not_rejected :
  exists (self : HartreeResponse) (v v' : C),
    HartreeResponse_init eigh_of_diagonal inv_of_diagonal
                         two_orbital_free_solver None = Ok self /\
    shape nearly_diagonal_op = target_shape (resp_e_k (base self)) /\
    mget nearly_diagonal_op 0 1 <> C0 /\
    bare_response self nearly_diagonal_op nearly_diagonal_op = Ok v /\
    response self nearly_diagonal_op nearly_diagonal_op = Ok v'.
Proof.
  destruct two_orbital_free_response as (self & Hinit & Ht).
  exists self.
  exists (einsum_aa_ab_bb nearly_diagonal_op (chi0_ab self) nearly_diagonal_op).
  exists (einsum_aa_ab_bb nearly_diagonal_op (chi_ab self) nearly_diagonal_op).
  split; [exact Hinit |]. split; [rewrite Ht; reflexivity |]. split.
  - change (mget nearly_diagonal_op 0 1) with (RtoC (1 / 100000000)).
    intros H. apply (f_equal Re) in H. simpl in H. lra.
  - unfold bare_response, response.
    rewrite (check_op_accepted self _ 2 Ht nearly_diagonal_op_accepted).
    split; reflexivity.
Qed.

(* ------------------------------------------------------------------ *)
(** ** Finite sums *)

Lemma Csum_map_ext {A : Type} (f g : A -> C) (l : list A) :
  (forall x, In x l -> f x = g x) -> Csum (map f l) = Csum (map g l).
Proof. intros H. rewrite (map_ext_in f g l H). reflexivity. Qed.

Lemma Csum_map_add {A : Type} (f g : A -> C) (l : list A) :
  Csum (map (fun x => (f x + g x)%C) l)
  = (Csum (map f l) + Csum (map g l))%C.
Proof.
  induction l as [| x l IH]; simpl.
  - apply C_eq; simpl; ring.
  - rewrite IH. apply C_eq; simpl; ring.
Qed.

Lemma Csum_map_sub {A : Type} (f g : A -> C) (l : list A) :
  Csum (map (fun x => (f x - g x)%C) l)
  = (Csum (map f l) - Csum (map g l))%C.
Proof.
  induction l as [| x l IH]; simpl.
  - apply C_eq; simpl; ring.
  - rewrite IH. apply C_eq; simpl; ring.
Qed.

Lemma Csum_map_divr {A : Type} (f : A -> C) (r : R) (l : list A) :
  Csum (map (fun x => Cdivr (f x) r) l) = Cdivr (Csum (map f l)) r.
Proof.
  induction l as [| x l IH]; simpl.
  - apply C_eq; simpl; unfold Rdiv; ring.
  - rewrite IH. apply C_eq; simpl; unfold Rdiv; ring.
Qed.

Lemma Csum_map_scale {A : Type} (f : A -> C) (r : R) (l : list A) :
  Csum (map (fun x => Cscale r (f x)) l) = Cscale r (Csum (map f l)).
Proof.
  induction l as [| x l IH]; simpl.
  - apply C_eq; simpl; ring.
  - rewrite IH. apply C_eq; simpl; ring.
Qed.

Lemma Csum_map_mul_l {A : Type} (c : C) (f : A -> C) (l : list A) :
  Csum (map (fun x => (c * f x)%C) l) = (c * Csum (map f l))%C.
Proof.
  induction l as [| x l IH]; simpl.
  - apply C_eq; simpl; ring.
  - rewrite IH. apply C_eq; simpl; ring.
Qed.

Lemma Csum_map_mul_r {A : Type} (c : C) (f : A -> C) (l : list A) :
  Csum (map (fun x => (f x * c)%C) l) = (Csum (map f l) * c)%C.
Proof.
  induction l as [| x l IH]; simpl.
  - apply C_eq; simpl; ring.
  - rewrite IH. apply C_eq; simpl; ring.
Qed.

Lemma Csum_map_C0 {A : Type} (l : list A) : Csum (map (fun _ => C0) l) = C0.
Proof.
  induction l as [| x l IH]; simpl; [reflexivity |].
  rewrite IH. apply Cadd_0_l.
Qed.

Lemma Csum_map_swap {A B : Type} (f : A -> B -> C) (l : list A) (l' : list B) :
  Csum (map (fun x => Csum (map (fun y => f x y) l')) l)
  = Csum (map (fun y => Csum (map (fun x => f x y) l)) l').
Proof.
  induction l as [| x l IH]; simpl.
  - symmetry. apply Csum_map_C0.
  - rewrite IH. symmetry. apply (Csum_map_add (f x)).
Qed.

Lemma Cconj_Csum_map {A : Type} (f : A -> C) (l : list A) :
  Cconj (Csum (map f l)) = Csum (map (fun x => Cconj (f x)) l).
Proof.
  induction l as [| x l IH]; simpl.
  - apply C_eq; simpl; ring.
  - rewrite <- IH. apply C_eq; simpl; ring.
Qed.

Lemma Re_Csum_map {A : Type} (f : A -> C) (l : list A) :
  Re (Csum (map f l)) = Rsum (map (fun x => Re (f x)) l).
Proof.
  induction l as [| x l IH]; simpl; [reflexivity |]. rewrite IH. reflexivity.
Qed.

Lemma Im_Csum_map {A : Type} (f : A -> C) (l : list A) :
  Im (Csum (map f l)) = Rsum (map (fun x => Im (f x)) l).
Proof.
  induction l as [| x l IH]; simpl; [reflexivity |]. rewrite IH. reflexivity.
Qed.

Lemma Rsum_map_le {A : Type} (f g : A -> R) (l : list A) :
  (forall x, In x l -> f x <= g x) -> Rsum (map f l) <= Rsum (map g l).
Proof.
  induction l as [| x l IH]; intros H; simpl; [lra |].
  assert (f x <= g x) by (apply H; left; reflexivity).
  assert (Rsum (map f l) <= Rsum (map g l))
    by (apply IH; intros y Hy; apply H; right; exact Hy).
  lra.
Qed.

Lemma Rsum_map_nonneg {A : Type} (f : A -> R) (l : list A) :
  (forall x, In x l -> 0 <= f x) -> 0 <= Rsum (map f l).
Proof.
  induction l as [| x l IH]; intros H; simpl; [lra |].
  assert (0 <= f x) by (apply H; left; reflexivity).
  assert (0 <= Rsum (map f l))
    by (apply IH; intros y Hy; apply H; right; exact Hy).
  lra.
Qed.

Lemma Rsum_map_ext {A : Type} (f g : A -> R) (l : list A) :
  (forall x, In x l -> f x = g x) -> Rsum (map f l) = Rsum (map g l).
Proof. intros H. rewrite (map_ext_in f g l H). reflexivity. Qed.

Lemma Rsum_map_const {A : Type} (c : R) (l : list A) :
  Rsum (map (fun _ => c) l) = INR (length l) * c.
Proof.
  induction l as [| x l IH].
  - simpl. lra.
  - change (Rsum (map (fun _ => c) (x :: l)))
      with (c + Rsum (map (fun _ => c) l)).
    rewrite IH. change (length (x :: l)) with (S (length l)).
    rewrite S_INR. lra.
Qed.

Lemma Rsum_map_mul_l {A : Type} (c : R) (f : A -> R) (l : list A) :
  Rsum (map (fun x => c * f x) l) = c * Rsum (map f l).
Proof.
  induction l as [| x l IH]; simpl; [lra |]. rewrite IH. lra.
Qed.

Lemma Rsum_map_swap {A B : Type} (f : A -> B -> R) (l : list A) (l' : list B) :
  Rsum (map (fun x => Rsum (map (fun y => f x y) l')) l)
  = Rsum (map (fun y => Rsum (map (fun x => f x y) l)) l').
Proof.
  induction l as [| x l IH]; simpl.
  - induction l' as [| y l' IH']; simpl; [reflexivity | rewrite <- IH'; lra].
  - rewrite IH. clear IH.
    induction l' as [| y l' IH']; simpl; [lra | rewrite <- IH'; lra].
Qed.

(* ------------------------------------------------------------------ *)
(** ** Shapes and entries of mapped arrays *)

Lemma nth_map_default {A B : Type} (f : A -> B) (l : list A) (d : A) (d' : B)
      (i : nat) :
  f d = d' -> nth i (map f l) d' = f (nth i l d).
Proof. intros <-. apply map_nth. Qed.

Lemma mget_map_map (f : C -> C) (m : mat) (i j : nat) :
  f C0 = C0 -> mget (map (map f) m) i j = f (mget m i j).
Proof.
  intros Hf. unfold mget.
  rewrite (nth_map_default (map f) m [] [] i eq_refl).
  apply nth_map_default. exact Hf.
Qed.

Lemma is_mat_map_map (f : C -> C) (n p : nat) (m : mat) :
  is_mat n p m -> is_mat n p (map (map f) m).
Proof.
  intros [Hn Hr]. split.
  - rewrite length_map. exact Hn.
  - apply Forall_forall. intros r Hin. apply in_map_iff in Hin.
    destruct Hin as [r' [<- Hr']]. rewrite length_map.
    rewrite Forall_forall in Hr. apply Hr. exact Hr'.
Qed.

Lemma Cdivr_C0 (r : R) : Cdivr C0 r = C0.
Proof. apply C_eq; simpl; unfold Rdiv; ring. Qed.

Lemma Cconj_C0 : Cconj C0 = C0.
Proof. apply C_eq; simpl; ring. Qed.

Lemma mget_mneg (m : mat) (i j : nat) : mget (mneg m) i j = (- mget m i j)%C.
Proof. unfold mneg. apply mget_map_map. apply Cneg_0. Qed.

Lemma mget_mdivr (m : mat) (r : R) (i j : nat) :
  mget (mdivr m r) i j = Cdivr (mget m i j) r.
Proof.
  unfold mdivr. apply (mget_map_map (fun z => Cdivr z r)). apply Cdivr_C0.
Qed.

Lemma map_fst_combine {A B : Type} (l : list A) (l' : list B) :
  length l = length l' -> map fst (combine l l') = l.
Proof.
  revert l'. induction l as [| x l IH]; intros [| y l'] H; simpl in *;
    try discriminate; [reflexivity |].
  f_equal. apply IH. lia.
Qed.

Lemma map_snd_combine {A B : Type} (l : list A) (l' : list B) :
  length l = length l' -> map snd (combine l l') = l'.
Proof.
  revert l'. induction l as [| x l IH]; intros [| y l'] H; simpl in *;
    try discriminate; [reflexivity |].
  f_equal. apply IH. lia.
Qed.

Lemma dims_of_stack (n p : nat) (a : list mat) :
  Forall (is_mat n p) a -> (0 < length a)%nat -> (0 < n)%nat ->
  dim1 a = n /\ dim2 a = p.
Proof.
  intros Ha Hlen Hn. destruct a as [| m a]; [simpl in Hlen; lia |].
  inversion Ha as [| ? ? Hm _]. subst. unfold dim1, dim2. simpl hd.
  split; [apply (nrows_is_mat n p m Hm) | apply (ncols_is_mat n p m Hm Hn)].
Qed.

Lemma is_mat_sum_axis0 (n p : nat) (a : list mat) :
  Forall (is_mat n p) a -> (0 < length a)%nat -> (0 < n)%nat ->
  is_mat n p (sum_axis0 a).
Proof.
  intros Ha Hlen Hn. unfold sum_axis0.
  destruct (dims_of_stack n p a Ha Hlen Hn) as [-> ->].
  apply is_mat_tabulate2.
Qed.

Lemma mget_sum_axis0 (n p : nat) (a : list mat) (i j : nat) :
  Forall (is_mat n p) a -> (0 < length a)%nat ->
  (i < n)%nat -> (j < p)%nat ->
  mget (sum_axis0 a) i j = Csum (map (fun m => mget m i j) a).
Proof.
  intros Ha Hlen Hi Hj. unfold sum_axis0.
  destruct (dims_of_stack n p a Ha Hlen) as [-> ->]; [lia |].
  rewrite mget_tabulate2 by assumption. reflexivity.
Qed.

(* ------------------------------------------------------------------ *)
(** ** The einsum of the density matrix *)

Lemma dim1_mconj3 (V : list mat) : dim1 (mconj3 V) = dim1 V.
Proof.
  unfold dim1, mconj3, nrows. destruct V as [| m V]; [reflexivity |].
  simpl. apply length_map.
Qed.

Lemma length_einsum_kac (V : list mat) (f : list rvec) (W : list mat) :
  length (einsum_kab_kb_kcb_kac V f W) = length V.
Proof. unfold einsum_kab_kb_kcb_kac. apply length_tabulate. Qed.

Lemma Forall_is_mat_einsum_kac (V : list mat) (f : list rvec) (W : list mat) :
  Forall (is_mat (dim1 V) (dim1 W)) (einsum_kab_kb_kcb_kac V f W).
Proof.
  apply Forall_forall. intros m Hm. unfold einsum_kab_kb_kcb_kac, tabulate in
      Hm.
  apply in_map_iff in Hm. destruct Hm as [k [<- _]]. apply is_mat_tabulate2.
Qed.

Lemma is_mat_einsum_ac (V : list mat) (f : list rvec) (W : list mat) :
  is_mat (dim1 V) (dim1 W) (einsum_kab_kb_kcb_ac V f W).
Proof. apply is_mat_tabulate2. Qed.

(** Summing the per-k einsum over k gives the k-summed einsum. *)
Lemma einsum_kac_sum (V : list mat) (f : list rvec) (W : list mat) (a c : nat) :
  (a < dim1 V)%nat -> (c < dim1 W)%nat ->
  Csum (map (fun m => mget m a c) (einsum_kab_kb_kcb_kac V f W))
  = mget (einsum_kab_kb_kcb_ac V f W) a c.
Proof.
  intros Ha Hc. unfold einsum_kab_kb_kcb_kac, einsum_kab_kb_kcb_ac.
  rewrite mget_tabulate2 by assumption.
  unfold tabulate at 1. rewrite map_map.
  fold (tabulate (length V)
          (fun k => mget (tabulate2 (dim1 V) (dim1 W) (fun a0 c0 =>
             Csum (tabulate (dim2 V) (fun b =>
               (Cscale (rget2 f k b) (aget V k a0 b) * aget W k c0 b)%C))))
             a c)).
  f_equal. apply tabulate_ext. intros k Hk.
  rewrite mget_tabulate2 by assumption. reflexivity.
Qed.

Lemma Forall_is_mat_map2_msub (n p : nat) (A B : list mat) :
  Forall (is_mat n p) A -> Forall (is_mat n p) B ->
  Forall (is_mat n p) (map2 msub A B).
Proof.
  intros HA HB. apply Forall_forall. intros m Hm. unfold map2 in Hm.
  apply in_map_iff in Hm. destruct Hm as [[x y] [<- Hxy]]. simpl.
  rewrite Forall_forall in HA, HB.
  apply is_mat_msub;
    [apply HA; apply (in_combine_l _ _ _ _ Hxy)
    | apply HB; apply (in_combine_r _ _ _ _ Hxy)].
Qed.

(** The entries of [chi0_op], for eigenvector stacks of the right shape. *)
Lemma mget_chi0_op (eigh : list mat -> list rvec * list mat)
      (e_k : Gf) (beta : R) (op : mat) (eps : R) (n i j : nat) :
  let E_p := bcast_add (data e_k) (mscale eps op) in
  let E_m := bcast_sub (data e_k) (mscale eps op) in
  let fermi_of := fun e : list rvec => map (map (fun x => fermi x beta)) e in
  length (snd (eigh E_p)) = length (snd (eigh E_m)) ->
  (0 < length (snd (eigh E_p)))%nat ->
  Forall (is_mat n n) (snd (eigh E_p)) ->
  Forall (is_mat n n) (snd (eigh E_m)) ->
  (i < n)%nat -> (j < n)%nat ->
  is_mat n n (chi0_op eigh e_k beta op eps) /\
  mget (chi0_op eigh e_k beta op eps) i j
  = (- Cdivr
       (Cdivr
          (mget (einsum_kab_kb_kcb_ac (snd (eigh E_p))
                   (fermi_of (fst (eigh E_p))) (mconj3 (snd (eigh E_p)))) i j
           - mget (einsum_kab_kb_kcb_ac (snd (eigh E_m))
                     (fermi_of (fst (eigh E_m))) (mconj3 (snd (eigh E_m)))) i j)
          (2 * eps))
       (INR (len_mesh e_k)))%C.
Proof.
  intros E_p E_m fermi_of Hlen Hpos HVp HVm Hi Hj.
  unfold chi0_op. fold E_p E_m.
  destruct (eigh E_p) as [e_p U_p] eqn:Ep.
  destruct (eigh E_m) as [e_m U_m] eqn:Em.
  simpl fst in *. simpl snd in *. cbv zeta. fold (fermi_of e_p) (fermi_of e_m).
  set (P := einsum_kab_kb_kcb_kac U_p (fermi_of e_p) (mconj3 U_p)).
  set (Q := einsum_kab_kb_kcb_kac U_m (fermi_of e_m) (mconj3 U_m)).
  assert (Hn : (0 < n)%nat) by lia.
  assert (Hposm : (0 < length U_m)%nat) by lia.
  destruct (dims_of_stack n n U_p HVp Hpos Hn) as [Hd1p _].
  destruct (dims_of_stack n n U_m HVm Hposm Hn) as [Hd1m _].
  assert (HP : Forall (is_mat n n) P).
  { pose proof (Forall_is_mat_einsum_kac U_p (fermi_of e_p) (mconj3 U_p)) as H.
    rewrite dim1_mconj3, Hd1p in H. exact H. }
  assert (HQ : Forall (is_mat n n) Q).
  { pose proof (Forall_is_mat_einsum_kac U_m (fermi_of e_m) (mconj3 U_m)) as H.
    rewrite dim1_mconj3, Hd1m in H. exact H. }
  assert (HlenP : length P = length U_p) by apply length_einsum_kac.
  assert (HlenQ : length Q = length U_m) by apply length_einsum_kac.
  set (D := map (fun d => mdivr d (2 * eps)) (map2 msub P Q)).
  assert (HD : Forall (is_mat n n) D).
  { unfold D. apply Forall_forall. intros m Hm. apply in_map_iff in Hm.
    destruct Hm as [d [<- Hd]]. apply is_mat_map_map.
    pose proof (Forall_is_mat_map2_msub n n P Q HP HQ) as H.
    rewrite Forall_forall in H. apply H. exact Hd. }
  assert (HlenD : (0 < length D)%nat).
  { unfold D. rewrite length_map, length_map2. lia. }
  split.
  - apply is_mat_map_map. apply is_mat_map_map.
    apply is_mat_sum_axis0; assumption.
  - rewrite mget_mneg, mget_mdivr. f_equal. f_equal.
    rewrite (mget_sum_axis0 n n) by assumption.
    unfold D. rewrite map_map.
    rewrite (Csum_map_ext _ (fun d => Cdivr (mget d i j) (2 * eps)))
      by (intros d _; apply mget_mdivr).
    rewrite Csum_map_divr. f_equal.
    unfold map2. rewrite map_map.
    rewrite (Csum_map_ext _
               (fun xy => (mget (fst xy) i j - mget (snd xy) i j)%C)).
    + rewrite Csum_map_sub.
      rewrite <- (map_map fst (fun m => mget m i j)).
      rewrite <- (map_map snd (fun m => mget m i j)).
      rewrite map_fst_combine, map_snd_combine by lia.
      unfold P, Q.
      rewrite !einsum_kac_sum by (rewrite ?dim1_mconj3; lia).
      reflexivity.
    + intros [x y] Hxy. simpl. rewrite Forall_forall in HP, HQ.
      apply (mget_msub n n); try assumption;
        [apply HP; apply (in_combine_l _ _ _ _ Hxy)
        | apply HQ; apply (in_combine_r _ _ _ _ Hxy)].
Qed.

(* ------------------------------------------------------------------ *)
(** ** Row assignment and the rows of [chi0_mat] *)

Lemma mget_assign_row (n p : nat) (m : mat) (i : nat) (v : vec) (a b : nat) :
  is_mat n p m -> (a < n)%nat -> (b < p)%nat ->
  mget (assign_row m i v) a b = if Nat.eqb a i then vget v b else mget m a b.
Proof.
  intros Hm Ha Hb. unfold assign_row.
  rewrite (nrows_is_mat n p m Hm), (ncols_is_mat n p m Hm) by lia.
  rewrite mget_tabulate2 by assumption. reflexivity.
Qed.

(** A loop that assigns row [idx] for each [idx] of a list: row [a] holds
    what its last assignment wrote, or what it held before. *)
Lemma mget_fold_assign_row (n p : nat) (row : nat -> vec) (l : list nat)
      (m0 : mat) (a b : nat) :
  is_mat n p m0 -> (a < n)%nat -> (b < p)%nat ->
  let m := fold_left (fun m idx => assign_row m idx (row idx)) l m0 in
  is_mat n p m /\
  mget m a b = if existsb (Nat.eqb a) l then vget (row a) b else mget m0 a b.
Proof.
  intros Hm0 Ha Hb. cbv zeta.
  induction l as [| x l IH] using rev_ind.
  - simpl. split; [exact Hm0 | reflexivity].
  - rewrite fold_left_app. simpl fold_left. destruct IH as [Hm IH].
    split; [apply is_mat_assign_row; [exact Hm | lia] |].
    rewrite (mget_assign_row n p) by assumption.
    rewrite existsb_app. simpl existsb. rewrite orb_false_r.
    destruct (Nat.eqb a x) eqn:E.
    + apply Nat.eqb_eq in E. subst x. rewrite orb_true_r. reflexivity.
    + rewrite orb_false_r. exact IH.
Qed.

Lemma existsb_eqb_seq (a n : nat) :
  (a < n)%nat -> existsb (Nat.eqb a) (seq 0 n) = true.
Proof.
  intros Ha. apply existsb_exists. exists a. split.
  - apply in_seq. lia.
  - apply Nat.eqb_refl.
Qed.

Lemma vget_diag_of_mat (n : nat) (m : mat) (b : nat) :
  is_mat n n m -> (b < n)%nat -> vget (diag_of_mat m) b = mget m b b.
Proof.
  intros Hm Hb. unfold vget, diag_of_mat.
  rewrite nth_tabulate; [reflexivity |].
  rewrite (nrows_is_mat n n m Hm), (ncols_square n m Hm), Nat.min_id. exact Hb.
Qed.

(** Row [a] of [chi0_mat] is the diagonal of [chi0_op] for the projector on
    orbital [a]. *)
Lemma mget_chi0_mat (eigh : list mat -> list rvec * list mat)
      (e_k : Gf) (beta eps : R) (n a b : nat) :
  target_shape e_k = (n, n) -> (a < n)%nat -> (b < n)%nat ->
  is_mat n n (chi0_op eigh e_k beta (projector (n, n) a) eps) ->
  mget (chi0_mat eigh e_k beta eps) a b
  = mget (chi0_op eigh e_k beta (projector (n, n) a) eps) b b.
Proof.
  intros Ht Ha Hb Hop. unfold chi0_mat. rewrite Ht. cbv zeta. simpl fst.
  destruct (mget_fold_assign_row n n
              (fun idx => diag_of_mat
                 (chi0_op eigh e_k beta (assign_entry (zeros (n, n)) idx idx C1)
                          eps))
              (seq 0 n) (zeros (n, n)) a b (is_mat_zeros n n) Ha Hb)
    as [_ H].
  rewrite H, existsb_eqb_seq by exact Ha.
  apply (vget_diag_of_mat n); assumption.
Qed.

(* ------------------------------------------------------------------ *)
(** ** [rho_mf] without mean field and chemical potential *)

Lemma madd_zeros_r (n p : nat) (a : mat) :
  is_mat n p a -> madd a (zeros (n, p)) = a.
Proof.
  intros Ha. apply (mat_ext n p).
  - apply is_mat_madd; [exact Ha | apply is_mat_zeros].
  - exact Ha.
  - intros i j Hi Hj.
    rewrite (mget_madd n p) by (try assumption; apply is_mat_zeros).
    unfold zeros. simpl fst. simpl snd.
    rewrite mget_tabulate2 by assumption. apply Cadd_0_r.
Qed.

Lemma mscale_0_eye (n : nat) : mscale 0 (eye n) = zeros (n, n).
Proof.
  apply (mat_ext n n).
  - apply is_mat_map_map. apply is_mat_eye.
  - apply is_mat_zeros.
  - intros i j Hi Hj. unfold mscale.
    rewrite (mget_map_map (Cscale 0)) by (apply C_eq; simpl; ring).
    unfold zeros. simpl fst. simpl snd. rewrite mget_tabulate2 by assumption.
    apply C_eq; simpl; ring.
Qed.

Lemma map_id_in {A : Type} (f : A -> A) (l : list A) :
  (forall x, In x l -> f x = x) -> map f l = l.
Proof.
  intros H. rewrite (map_ext_in f (fun x => x) l H). apply map_id.
Qed.

Lemma rho_mf_plain (eigh : list mat -> list rvec * list mat)
      (g : Gf) (beta : R) (n : nat) :
  target_shape g = (n, n) -> Forall (is_mat n n) (data g) ->
  rho_mf eigh g beta None None
  = density_matrix (fst (eigh (data g))) (snd (eigh (data g))) beta
                   (len_mesh g).
Proof.
  intros Ht Hwf. unfold rho_mf. cbv [kwarg]. rewrite Ht. simpl fst.
  rewrite mscale_0_eye.
  assert (HE : bcast_sub (bcast_add (data g) (zeros (n, n))) (zeros (n, n))
               = data g).
  { unfold bcast_sub, bcast_add. rewrite map_map. apply map_id_in.
    intros m Hm. rewrite Forall_forall in Hwf.
    rewrite (madd_zeros_r n n m (Hwf m Hm)).
    apply msub_zeros_r. apply Hwf. exact Hm. }
  rewrite HE. destruct (eigh (data g)) as [e V]. reflexivity.
Qed.

Lemma bcast_sub_as_add (n p : nat) (a : list mat) (x : R) (F : mat) :
  Forall (is_mat n p) a -> is_mat n p F ->
  bcast_sub a (mscale x F) = bcast_add a (mscale (- x) F).
Proof.
  intros Ha HF. unfold bcast_sub, bcast_add. apply map_ext_in.
  intros m Hm. rewrite Forall_forall in Ha. specialize (Ha m Hm).
  assert (H1 : is_mat n p (mscale x F)) by (apply is_mat_map_map; exact HF).
  assert (H2 : is_mat n p (mscale (- x) F))
    by (apply is_mat_map_map; exact HF).
  apply (mat_ext n p).
  - apply is_mat_msub; assumption.
  - apply is_mat_madd; assumption.
  - intros i j Hi Hj.
    rewrite (mget_msub n p), (mget_madd n p) by assumption.
    unfold mscale.
    rewrite !(mget_map_map (Cscale _)) by (apply C_eq; simpl; ring).
    apply C_eq; simpl; ring.
Qed.

Lemma is_mat_projector (n p a : nat) : is_mat n p (projector (n, p) a).
Proof.
  unfold projector, assign_entry.
  destruct n as [| n].
  - unfold zeros, tabulate2, tabulate. simpl. split; [reflexivity |
      constructor].
  - rewrite (nrows_is_mat _ _ _ (is_mat_zeros (S n) p)).
    rewrite (ncols_is_mat _ _ _ (is_mat_zeros (S n) p)) by lia.
    apply is_mat_tabulate2.
Qed.

(* ------------------------------------------------------------------ *)
(** ** The bare response as a finite difference *)

(** C8, as the code has it.  For a dispersion of [n x n] blocks on a
    non-empty mesh, a step [eps] that is not zero, and [eigh] returning
    eigenvector stacks of the shape of its argument for the two perturbed
    dispersions: the entry [(a, b)] of
    [chi0_mat] is MINUS the symmetric difference quotient
    [(rho(+eps) - rho(-eps)) / (2 eps)] of the k-averaged density matrix
    under the fields [+eps F] and [-eps F], [F] the projector on orbital
    [a], read at the diagonal entry [b] ([chi0 = -drho] in [chi0_op]). *)
Theorem chi0_mat_is_minus_difference_quotient :
  forall (eigh : list mat -> list rvec * list mat)
         (e_k : Gf) (beta eps : R) (n a b : nat),
    target_shape e_k = (n, n) ->
    Forall (is_mat n n) (data e_k) ->
    (0 < len_mesh e_k)%nat ->
    eps <> 0 ->
    eigh_shape_ok eigh n (data (perturb e_k eps (projector (n, n) a))) ->
    eigh_shape_ok eigh n (data (perturb e_k (- eps) (projector (n, n) a))) ->
    (a < n)%nat -> (b < n)%nat ->
    mget (chi0_mat eigh e_k beta eps) a b
    = (- difference_quotient eigh e_k beta eps a b)%C.
Proof.
  intros eigh e_k beta eps n a b Ht Hwf Hmesh _ [Hlp HVp] [Hlm HVm] Ha Hb.
  set (F := projector (n, n) a) in *.
  assert (HF : is_mat n n F) by apply is_mat_projector.
  assert (HEm : bcast_sub (data e_k) (mscale eps F)
                = data (perturb e_k (- eps) F)).
  { unfold perturb. simpl data. apply (bcast_sub_as_add n n); assumption. }
  assert (Hlen : forall x, length (data (perturb e_k x F)) = len_mesh e_k).
  { intros x. unfold perturb. simpl data. apply length_bcast_add. }
  assert (Hwfp : forall x, Forall (is_mat n n) (data (perturb e_k x F))).
  { intros x. unfold perturb. simpl data.
    apply Forall_is_mat_bcast_add; [exact Hwf |].
    apply is_mat_map_map. exact HF. }
  pose proof (mget_chi0_op eigh e_k beta F eps n b b) as Hop.
  cbv zeta in Hop. rewrite HEm in Hop.
  change (bcast_add (data e_k) (mscale eps F))
    with (data (perturb e_k eps F)) in Hop.
  rewrite Hlp, Hlm, !Hlen in Hop.
  destruct (Hop eq_refl Hmesh HVp HVm Hb Hb) as [Hshape Hentry].
  rewrite (mget_chi0_mat eigh e_k beta eps n a b Ht Ha Hb Hshape).
  fold F. rewrite Hentry.
  unfold difference_quotient. cbv zeta. rewrite Ht. fold F.
  rewrite !(rho_mf_plain eigh _ beta n) by (try apply Hwfp; exact Ht).
  unfold density_matrix. rewrite !mget_mdivr.
  unfold len_mesh at 2 3. rewrite !Hlen.
  apply C_eq; simpl; unfold Rdiv; ring.
Qed.

Lemma eigh_of_diagonal_shape_ok (n : nat) (E : list mat) :
  Forall (is_mat n n) E -> eigh_shape_ok eigh_of_diagonal n E.
Proof.
  intros HE. unfold eigh_shape_ok, eigh_of_diagonal. simpl snd. split.
  - apply length_map.
  - apply Forall_forall. intros V HV. apply in_map_iff in HV.
    destruct HV as [m [<- Hm]]. rewrite Forall_forall in HE.
    rewrite (nrows_is_mat n n m (HE m Hm)). apply is_mat_eye.
Qed.

(** The bare response of the atom: the finite difference with step 1. *)
Lemma chi0_mat_is_minus_difference_quotient_witness :
  target_shape atom_e_k = (1%nat, 1%nat) /\
  Forall (is_mat 1 1) (data atom_e_k) /\
  (0 < len_mesh atom_e_k)%nat /\
  mget (chi0_mat eigh_of_diagonal atom_e_k 1 1) 0 0
  = (- difference_quotient eigh_of_diagonal atom_e_k 1 1 0 0)%C.
Proof.
  assert (H1 : target_shape atom_e_k = (1%nat, 1%nat)) by reflexivity.
  assert (H2 : Forall (is_mat 1 1) (data atom_e_k)) by (repeat constructor).
  assert (H3 : (0 < len_mesh atom_e_k)%nat) by (unfold len_mesh; simpl; lia).
  repeat (split; [assumption |]).
  apply (chi0_mat_is_minus_difference_quotient
           eigh_of_diagonal atom_e_k 1 1 1 0 0 H1 H2 H3);
    try lia; try lra;
    apply eigh_of_diagonal_shape_ok; repeat constructor.
Defined.

(** C8 as stated fails: on the atom with [beta = 1] and [eps = 1] the entry
    of [chi0_mat] is positive and the difference quotient negative. *)
Lemma chi0_mat_is_not_difference_quotient :
  mget (chi0_mat eigh_of_diagonal atom_e_k 1 1) 0 0
  <> difference_quotient eigh_of_diagonal atom_e_k 1 1 0 0.
Proof.
  arr_compute. cbv [INR]. intros H. apply (f_equal Re) in H. cbv [Re] in H.
  replace (0 + 1 * 1 + 0 - 0 * 1) with 1 in H by lra.
  replace (0 + - (1) * 1 + 0 - 0 * 1) with (-1) in H by lra.
  replace (0 + 1 * 1) with 1 in H by lra.
  replace (0 - 1 * 1) with (-1) in H by lra.
  assert (Hp : fermi 1 1 < 1 / 2) by (apply fermi_lt_half; lra).
  assert (Hm : 1 / 2 < fermi (-1) 1) by (apply fermi_gt_half; lra).
  lra.
Qed.

(* ------------------------------------------------------------------ *)
(** ** The spectrum of an averaged projector sum

    For unitary [V_k] and weights [0 <= f_kb <= 1] the matrix
    [rho = 1/N_k sum_k V_k diag(f_k) V_k^dagger] is Hermitian, its quadratic
    form lies between [0] and [|v|^2], and its trace between [0] and [n]. *)

Section QuadraticForm.

Variable V : nat -> nat -> C.
Variable f : nat -> R.
Variable v : nat -> C.
Variable l lb : list nat.

Let w (b : nat) : C := Csum (map (fun c => (Cconj (V c b) * v c)%C) l).

Lemma Cconj_w (b : nat) :
  Cconj (w b) = Csum (map (fun a => (V a b * Cconj (v a))%C) l).
Proof.
  unfold w. rewrite Cconj_Csum_map. apply Csum_map_ext. intros a _.
  apply C_eq; simpl; ring.
Qed.

Lemma quad_form_single :
  Csum (map (fun a =>
    (Cconj (v a) *
     Csum (map (fun c =>
       (Csum (map (fun b => (Cscale (f b) (V a b) * Cconj (V c b))%C) lb)
        * v c)%C) l))%C) l)
  = Csum (map (fun b => Cscale (f b) (Cconj (w b) * w b)%C) lb).
Proof.
  transitivity
    (Csum (map (fun a => Csum (map (fun b => Csum (map (fun c =>
       Cscale (f b) ((V a b * Cconj (v a)) * (Cconj (V c b) * v c))%C) l)) lb))
           l)).
  - apply Csum_map_ext. intros a _.
    rewrite <- Csum_map_mul_l.
    rewrite (Csum_map_ext _ (fun c => Csum (map (fun b =>
       Cscale (f b) ((V a b * Cconj (v a)) * (Cconj (V c b) * v c))%C) lb))).
    + apply Csum_map_swap.
    + intros c _. rewrite <- Csum_map_mul_r, <- Csum_map_mul_l.
      apply Csum_map_ext. intros b _. apply C_eq; simpl; ring.
  - rewrite Csum_map_swap. apply Csum_map_ext. intros b _.
    rewrite Cconj_w. rewrite <- Csum_map_mul_r. rewrite <- Csum_map_scale.
    apply Csum_map_ext. intros a _.
    unfold w. rewrite <- Csum_map_mul_l, <- Csum_map_scale. reflexivity.
Qed.

End QuadraticForm.


Lemma Csum_delta_l (n : nat) (g : nat -> C) (a : nat) :
  (a < n)%nat ->
  Csum (map (fun c => ((if Nat.eqb a c then C1 else C0) * g c)%C) (seq 0 n))
  = g a.
Proof.
  intros Ha.
  rewrite (Csum_map_ext _ (fun c => (g c * (if Nat.eqb c a then C1 else
      C0))%C)).
  - apply (Csum_delta_r n g a Ha).
  - intros c _. rewrite (Nat.eqb_sym a c). apply Cmul_comm.
Qed.

Lemma Cdivr_mul_l (x y : C) (r : R) : (Cdivr x r * y)%C = Cdivr (x * y)%C r.
Proof. apply C_eq; simpl; unfold Rdiv; ring. Qed.

Lemma Cdivr_mul_r (x y : C) (r : R) : (x * Cdivr y r)%C = Cdivr (x * y)%C r.
Proof. apply C_eq; simpl; unfold Rdiv; ring. Qed.

Lemma Cnorm2_nonneg (x : C) : 0 <= Cnorm2 x.
Proof. unfold Cnorm2. nra. Qed.

Lemma Cnorm2_pos (x : C) : x <> C0 -> 0 < Cnorm2 x.
Proof.
  intros Hx. unfold Cnorm2.
  destruct (Req_dec_T (Re x) 0) as [Hr | Hr].
  - destruct (Req_dec_T (Im x) 0) as [Hi | Hi].
    + exfalso. apply Hx. apply C_eq; simpl; assumption.
    + nra.
  - nra.
Qed.

Section SpectralBound.

Variables n nk : nat.
Variable V : nat -> nat -> nat -> C.
Variable f : nat -> nat -> R.

Hypothesis Hnk : (0 < nk)%nat.
Hypothesis Hf : forall k b, 0 <= f k b <= 1.
Hypothesis HV : forall k a c, (k < nk)%nat -> (a < n)%nat -> (c < n)%nat ->
  Csum (map (fun b => (V k a b * Cconj (V k c b))%C) (seq 0 n))
  = if Nat.eqb a c then C1 else C0.

Let P (k a c : nat) : C :=
  Csum (map (fun b => (Cscale (f k b) (V k a b) * Cconj (V k c b))%C) (seq 0
      n)).
Let rho (a c : nat) : C :=
  Cdivr (Csum (map (fun k => P k a c) (seq 0 nk))) (INR nk).

Lemma spectral_hermitian (a c : nat) : rho a c = Cconj (rho c a).
Proof.
  unfold rho. 
  assert (H : forall x r, Cconj (Cdivr x r) = Cdivr (Cconj x) r)
    by (intros; apply C_eq; simpl; unfold Rdiv; ring).
  rewrite H, Cconj_Csum_map. f_equal. apply Csum_map_ext. intros k _.
  unfold P. rewrite Cconj_Csum_map. apply Csum_map_ext. intros b _.
  apply C_eq; simpl; ring.
Qed.

Variable v : nat -> C.

Let N : R := Rsum (map (fun a => Cnorm2 (v a)) (seq 0 n)).
Let Qk (k : nat) : C :=
  Csum (map (fun a =>
    (Cconj (v a) * Csum (map (fun c => (P k a c * v c)%C) (seq 0 n)))%C)
    (seq 0 n)).
Let Q : C :=
  Csum (map (fun a =>
    (Cconj (v a) * Csum (map (fun c => (rho a c * v c)%C) (seq 0 n)))%C)
    (seq 0 n)).

Lemma spectral_Q_average : Q = Cdivr (Csum (map Qk (seq 0 nk))) (INR nk).
Proof.
  unfold Q, Qk, rho.
  rewrite (Csum_map_ext _ (fun a => Cdivr (Csum (map (fun k =>
     (Cconj (v a) * Csum (map (fun c => (P k a c * v c)%C) (seq 0 n)))%C)
     (seq 0 nk))) (INR nk))).
  - rewrite Csum_map_divr. f_equal. apply Csum_map_swap.
  - intros a _.
    rewrite (Csum_map_ext _ (fun c => Cdivr (Csum (map (fun k =>
       (P k a c * v c)%C) (seq 0 nk))) (INR nk))).
    + rewrite Csum_map_divr, Cdivr_mul_r. f_equal.
      rewrite Csum_map_swap. symmetry. apply Csum_map_mul_l.
    + intros c _. rewrite Cdivr_mul_l. f_equal. symmetry.
      apply (Csum_map_mul_r (v c) (fun k => P k a c)).
Qed.

Let w (k b : nat) : C :=
  Csum (map (fun c => (Cconj (V k c b) * v c)%C) (seq 0 n)).

Lemma spectral_Qk (k : nat) :
  Qk k = Csum (map (fun b => Cscale (f k b) (Cconj (w k b) * w k b)%C) (seq 0
      n)).
Proof. unfold Qk, P, w. apply quad_form_single. Qed.

Lemma spectral_norm_preserved (k : nat) :
  (k < nk)%nat ->
  Rsum (map (fun b => Cnorm2 (w k b)) (seq 0 n)) = N.
Proof.
  intros Hk.
  pose proof (quad_form_single (V k) (fun _ => 1) v (seq 0 n) (seq 0 n)) as H.
  apply (f_equal Re) in H. rewrite !Re_Csum_map in H.
  unfold N. etransitivity; [| etransitivity; [symmetry; exact H |]].
  - apply Rsum_map_ext. intros b _. fold (w k b). unfold Cnorm2. simpl. ring.
  - apply Rsum_map_ext. intros a Ha. apply in_seq in Ha.
    rewrite (Csum_map_ext _ (fun c => ((if Nat.eqb a c then C1 else C0) * v
        c)%C)).
    + rewrite Csum_delta_l by lia. unfold Cnorm2. simpl. ring.
    + intros c Hc. apply in_seq in Hc. f_equal.
      rewrite <- (HV k a c) by lia. apply Csum_map_ext. intros b _.
      apply C_eq; simpl; ring.
Qed.

Lemma spectral_Qk_bounds (k : nat) :
  (k < nk)%nat -> Im (Qk k) = 0 /\ 0 <= Re (Qk k) <= N.
Proof.
  intros Hk. rewrite spectral_Qk. rewrite Im_Csum_map, Re_Csum_map.
  split; [| split].
  - rewrite (Rsum_map_ext _ (fun _ => 0)).
    + rewrite Rsum_map_const. ring.
    + intros b _. simpl. ring.
  - apply Rsum_map_nonneg. intros b _. simpl.
    pose proof (Hf k b). pose proof (Cnorm2_nonneg (w k b)) as Hn.
    unfold Cnorm2 in Hn. nra.
  - rewrite <- (spectral_norm_preserved k Hk). apply Rsum_map_le.
    intros b _. simpl.
    pose proof (Hf k b). pose proof (Cnorm2_nonneg (w k b)) as Hn.
    unfold Cnorm2 in *. nra.
Qed.

Lemma spectral_Q_bounds : Im Q = 0 /\ 0 <= Re Q <= N.
Proof.
  rewrite spectral_Q_average. simpl. rewrite Im_Csum_map, Re_Csum_map.
  assert (Hpos : 0 < INR nk) by (apply lt_0_INR; exact Hnk).
  assert (HIm : Rsum (map (fun k => Im (Qk k)) (seq 0 nk)) = 0).
  { rewrite (Rsum_map_ext _ (fun _ => 0)).
    - rewrite Rsum_map_const. ring.
    - intros k Hk. apply in_seq in Hk. apply spectral_Qk_bounds. lia. }
  assert (HRe0 : 0 <= Rsum (map (fun k => Re (Qk k)) (seq 0 nk))).
  { apply Rsum_map_nonneg. intros k Hk. apply in_seq in Hk.
    apply spectral_Qk_bounds. lia. }
  assert (HRe1 : Rsum (map (fun k => Re (Qk k)) (seq 0 nk)) <= INR nk * N).
  { replace (INR nk * N) with (INR (length (seq 0 nk)) * N)
      by (rewrite length_seq; reflexivity).
    rewrite <- Rsum_map_const.
    apply Rsum_map_le. intros k Hk. apply in_seq in Hk.
    apply spectral_Qk_bounds. lia. }
  rewrite HIm. split; [unfold Rdiv; ring |].
  split.
  - apply Rmult_le_pos; [exact HRe0 |]. left. apply Rinv_0_lt_compat. exact
      Hpos.
  - apply (Rmult_le_reg_r (INR nk)); [exact Hpos |].
    unfold Rdiv. rewrite Rmult_assoc, Rinv_l by lra. lra.
Qed.

Lemma spectral_eigenvalue (lam : C) :
  (forall a, (a < n)%nat ->
     Csum (map (fun c => (rho a c * v c)%C) (seq 0 n)) = (lam * v a)%C) ->
  (exists a, (a < n)%nat /\ v a <> C0) ->
  Im lam = 0 /\ 0 <= Re lam <= 1.
Proof.
  intros Heig [a0 [Ha0 Hv0]].
  assert (HQ : Q = (lam * mkC N 0)%C).
  { unfold Q.
    rewrite (Csum_map_ext _ (fun a => (lam * (Cconj (v a) * v a))%C)).
    - rewrite Csum_map_mul_l. f_equal. apply C_eq.
      + rewrite Re_Csum_map. unfold N. simpl. apply Rsum_map_ext.
        intros a _. unfold Cnorm2. simpl. ring.
      + rewrite Im_Csum_map. simpl.
        rewrite (Rsum_map_ext _ (fun _ => 0)).
        * rewrite Rsum_map_const. ring.
        * intros a _. simpl. ring.
    - intros a Ha. apply in_seq in Ha. rewrite Heig by lia.
      apply C_eq; simpl; ring. }
  assert (HN : 0 < N).
  { unfold N. 
    assert (Hle : Rsum (map (fun a => if Nat.eqb a a0 then Cnorm2 (v a0) else
        0) (seq 0 n))
                  <= Rsum (map (fun a => Cnorm2 (v a)) (seq 0 n))).
    { apply Rsum_map_le. intros a _. destruct (Nat.eqb a a0) eqn:E.
      - apply Nat.eqb_eq in E. subst. lra.
      - apply Cnorm2_nonneg. }
    assert (Hsum : Rsum (map (fun a => if Nat.eqb a a0 then Cnorm2 (v a0) else
        0) (seq 0 n)) = Cnorm2 (v a0)).
    { pose proof (Csum_delta_r n (fun _ => mkC (Cnorm2 (v a0)) 0) a0 Ha0) as H.
      unfold tabulate in H.
      apply (f_equal Re) in H. rewrite Re_Csum_map in H. simpl Re at 2 in H.
      etransitivity; [| exact H]. apply Rsum_map_ext. intros a _.
      destruct (Nat.eqb a a0); cbv [Re Im Cmul C1 C0]; ring. }
    pose proof (Cnorm2_pos (v a0) Hv0). lra. }
  destruct spectral_Q_bounds as [HIm [HRe0 HRe1]].
  rewrite HQ in HIm, HRe0, HRe1. simpl in HIm, HRe0, HRe1.
  split; [nra |]. split; nra.
Qed.

Lemma spectral_trace :
  let T := Csum (map (fun a => rho a a) (seq 0 n)) in
  Im T = 0 /\ 0 <= Re T <= INR n.
Proof.
  cbv zeta.
  assert (Hpos : 0 < INR nk) by (apply lt_0_INR; exact Hnk).
  assert (HT : Csum (map (fun a => rho a a) (seq 0 n))
               = Cdivr (Csum (map (fun a => Csum (map (fun k => P k a a) (seq 0
                   nk))) (seq 0 n))) (INR nk)).
  { unfold rho. apply Csum_map_divr. }
  rewrite HT. simpl. rewrite Im_Csum_map, Re_Csum_map.
  set (S := fun a k => Rsum (map (fun b => f k b * Cnorm2 (V k a b)) (seq 0
      n))).
  assert (HReP : forall k a, Re (P k a a) = S a k).
  { intros k a. unfold P, S. rewrite Re_Csum_map. apply Rsum_map_ext.
    intros b _. unfold Cnorm2. simpl. ring. }
  assert (HImP : forall k a, Im (P k a a) = 0).
  { intros k a. unfold P. rewrite Im_Csum_map.
    rewrite (Rsum_map_ext _ (fun _ => 0)).
    - rewrite Rsum_map_const. ring.
    - intros b _. simpl. ring. }
  assert (HIm : Rsum (map (fun a => Im (Csum (map (fun k => P k a a) (seq 0
      nk)))) (seq 0 n)) = 0).
  { rewrite (Rsum_map_ext _ (fun _ => 0)).
    - rewrite Rsum_map_const. ring.
    - intros a _. rewrite Im_Csum_map. rewrite (Rsum_map_ext _ (fun _ => 0)).
      + rewrite Rsum_map_const. ring.
      + intros k _. apply HImP. }
  rewrite HIm. split; [unfold Rdiv; ring |].
  assert (HSle : forall a k, (a < n)%nat -> (k < nk)%nat -> 0 <= S a k <= 1).
  { intros a k Ha Hk. unfold S. split.
    - apply Rsum_map_nonneg. intros b _. pose proof (Hf k b).
      pose proof (Cnorm2_nonneg (V k a b)). nra.
    - pose proof (HV k a a Hk Ha Ha) as H. rewrite Nat.eqb_refl in H.
      apply (f_equal Re) in H. rewrite Re_Csum_map in H. simpl in H.
      rewrite <- H. apply Rsum_map_le. intros b _. pose proof (Hf k b).
      pose proof (Cnorm2_nonneg (V k a b)) as Hn. unfold Cnorm2 in *. nra. }
  assert (HRe : Rsum (map (fun a => Re (Csum (map (fun k => P k a a) (seq 0
      nk)))) (seq 0 n))
                = Rsum (map (fun a => Rsum (map (fun k => S a k) (seq 0 nk)))
                    (seq 0 n))).
  { apply Rsum_map_ext. intros a _. rewrite Re_Csum_map.
    apply Rsum_map_ext. intros k _. apply HReP. }
  rewrite HRe.
  assert (H0 : 0 <= Rsum (map (fun a => Rsum (map (fun k => S a k) (seq 0 nk)))
      (seq 0 n))).
  { apply Rsum_map_nonneg. intros a Ha. apply in_seq in Ha.
    apply Rsum_map_nonneg. intros k Hk. apply in_seq in Hk. apply HSle; lia. }
  assert (H1 : Rsum (map (fun a => Rsum (map (fun k => S a k) (seq 0 nk))) (seq
      0 n))
               <= INR n * (INR nk * 1)).
  { replace (INR n * (INR nk * 1))
      with (INR (length (seq 0 n)) * (INR (length (seq 0 nk)) * 1))
      by (rewrite !length_seq; reflexivity).
    rewrite <- Rsum_map_const.
    apply Rsum_map_le. intros a Ha. apply in_seq in Ha.
    rewrite <- Rsum_map_const.
    apply Rsum_map_le. intros k Hk. apply in_seq in Hk. apply HSle; lia. }
  split.
  - apply Rmult_le_pos; [exact H0 |]. left. apply Rinv_0_lt_compat. exact Hpos.
  - apply (Rmult_le_reg_r (INR nk)); [exact Hpos |].
    unfold Rdiv. rewrite Rmult_assoc, Rinv_l by lra. lra.
Qed.

End SpectralBound.

(* ------------------------------------------------------------------ *)
(** ** The density matrix is a density matrix *)

Lemma aget_mconj3 (V : list mat) (k a b : nat) :
  aget (mconj3 V) k a b = Cconj (aget V k a b).
Proof.
  unfold aget. transitivity (mget (map (map Cconj) (nth k V [])) a b).
  - f_equal. unfold mconj3.
    apply (nth_map_default (map (map Cconj)) V [] [] k eq_refl).
  - apply mget_map_map. apply Cconj_C0.
Qed.

Lemma nth_map_fermi_bounds (row : list R) (beta : R) (b : nat) :
  0 <= nth b (map (fun x => fermi x beta) row) 0 <= 1.
Proof.
  destruct (nth_in_or_default b (map (fun x => fermi x beta) row) 0)
    as [Hin | ->]; [| lra].
  apply in_map_iff in Hin. destruct Hin as [x [<- _]].
  pose proof (fermi_pos x beta). pose proof (fermi_lt_1 x beta). lra.
Qed.

Lemma rget2_fermi_bounds (e : list rvec) (beta : R) (k b : nat) :
  0 <= rget2 (map (map (fun x => fermi x beta)) e) k b <= 1.
Proof.
  revert k. induction e as [| row e IH]; intros [| k]; unfold rget2 in *;
    simpl.
  - destruct b; lra.
  - destruct b; lra.
  - apply nth_map_fermi_bounds.
  - apply IH.
Qed.

Lemma dims_of_square_stack (n : nat) (a : list mat) :
  Forall (is_mat n n) a -> (0 < length a)%nat -> dim1 a = n /\ dim2 a = n.
Proof.
  intros Ha Hlen. destruct a as [| m a]; [simpl in Hlen; lia |].
  inversion Ha as [| ? ? Hm _]. subst. unfold dim1, dim2. simpl hd.
  split; [apply (nrows_is_mat n n m Hm) | apply (ncols_square n m Hm)].
Qed.

Lemma is_mat_density_matrix (e : list rvec) (V : list mat) (beta : R)
      (nk n : nat) :
  (0 < length V)%nat -> Forall (is_mat n n) V ->
  is_mat n n (density_matrix e V beta nk).
Proof.
  intros Hlen HV. unfold density_matrix. apply is_mat_map_map.
  pose proof (is_mat_einsum_ac V (map (map (fun x => fermi x beta)) e)
                               (mconj3 V)) as H.
  rewrite dim1_mconj3 in H.
  destruct (dims_of_square_stack n V HV Hlen) as [Hd _].
  rewrite Hd in H. exact H.
Qed.

Lemma mget_density_matrix (e : list rvec) (V : list mat) (beta : R)
      (nk n a c : nat) :
  (0 < length V)%nat -> Forall (is_mat n n) V ->
  (a < n)%nat -> (c < n)%nat ->
  mget (density_matrix e V beta nk) a c
  = Cdivr
      (Csum (map (fun k =>
         Csum (map (fun b =>
           (Cscale (rget2 (map (map (fun x => fermi x beta)) e) k b)
                   (aget V k a b)
            * Cconj (aget V k c b))%C) (seq 0 n))) (seq 0 (length V))))
      (INR nk).
Proof.
  intros Hlen HV Ha Hc. unfold density_matrix. rewrite mget_mdivr. f_equal.
  unfold einsum_kab_kb_kcb_ac. rewrite dim1_mconj3.
  destruct (dims_of_square_stack n V HV Hlen) as [-> ->].
  rewrite mget_tabulate2 by assumption. unfold tabulate.
  apply Csum_map_ext. intros k _. apply Csum_map_ext. intros b _.
  rewrite aget_mconj3. reflexivity.
Qed.

Lemma trace_as_sum (n : nat) (m : mat) :
  is_mat n n m -> trace m = Csum (map (fun a => mget m a a) (seq 0 n)).
Proof.
  intros Hm. unfold trace, diag_of_mat.
  rewrite (nrows_is_mat n n m Hm), (ncols_square n m Hm), Nat.min_id.
  reflexivity.
Qed.

(** The density matrix of unitary eigenvector matrices. *)
Lemma density_matrix_valid (e : list rvec) (V : list mat) (beta : R)
      (n : nat) :
  (0 < length V)%nat -> Forall (is_mat n n) V ->
  (forall k a c, (k < length V)%nat -> (a < n)%nat -> (c < n)%nat ->
     Csum (tabulate n (fun b => (aget V k a b * Cconj (aget V k c b))%C))
     = if Nat.eqb a c then C1 else C0) ->
  valid_density_matrix n (density_matrix e V beta (length V)).
Proof.
  intros Hlen HV Hunit.
  set (rho := density_matrix e V beta (length V)).
  set (f := fun k b => rget2 (map (map (fun x => fermi x beta)) e) k b).
  set (W := fun k a b => aget V k a b).
  assert (Hf : forall k b, 0 <= f k b <= 1)
    by (intros k b; apply rget2_fermi_bounds).
  assert (Hrho : is_mat n n rho) by (apply is_mat_density_matrix; assumption).
  assert (Hent : forall a c, (a < n)%nat -> (c < n)%nat ->
            mget rho a c
            = Cdivr (Csum (map (fun k => Csum (map (fun b =>
                (Cscale (f k b) (W k a b) * Cconj (W k c b))%C) (seq 0 n)))
                (seq 0 (length V)))) (INR (length V))).
  { intros a c Ha Hc. apply mget_density_matrix; assumption. }
  split; [exact Hrho |]. split; [| split].
  - intros a c Ha Hc. rewrite !Hent by assumption.
    apply (spectral_hermitian n (length V) W f).
  - intros lam (v & Hv & [a0 [Ha0 Hv0]] & Heig).
    apply (spectral_eigenvalue n (length V) W f Hlen Hf Hunit
             (fun a => vget v a) lam).
    + intros a Ha. rewrite <- (Heig a Ha). unfold tabulate.
      apply Csum_map_ext. intros c Hc. apply in_seq in Hc.
      rewrite Hent by lia. reflexivity.
    + exists a0. split; assumption.
  - rewrite (trace_as_sum n rho Hrho).
    rewrite (Csum_map_ext _ (fun a =>
       Cdivr (Csum (map (fun k => Csum (map (fun b =>
         (Cscale (f k b) (W k a b) * Cconj (W k a b))%C) (seq 0 n)))
         (seq 0 (length V)))) (INR (length V)))).
    + apply (spectral_trace n (length V) W f Hlen Hf Hunit).
    + intros a Ha. apply in_seq in Ha. apply Hent; lia.
Qed.

Lemma hermitian_zeros (n : nat) : hermitian n (zeros (n, n)).
Proof.
  intros a c Ha Hc. unfold zeros. simpl fst. simpl snd.
  rewrite !mget_tabulate2 by assumption. symmetry. apply Cconj_C0.
Qed.

(** [e + M - mu * I] is Hermitian when [e] and [M] are. *)
Lemma hermitian_shifted (n : nat) (m M : mat) (mu : R) :
  is_mat n n m -> hermitian n m -> is_mat n n M -> hermitian n M ->
  is_mat n n (msub (madd m M) (mscale mu (eye n))) /\
  hermitian n (msub (madd m M) (mscale mu (eye n))).
Proof.
  intros Hm Hhm HM HhM.
  assert (H1 : is_mat n n (madd m M)) by (apply is_mat_madd; assumption).
  assert (H2 : is_mat n n (mscale mu (eye n)))
    by (apply is_mat_map_map; apply is_mat_eye).
  split; [apply is_mat_msub; assumption |].
  intros a c Ha Hc.
  rewrite !(mget_msub n n), !(mget_madd n n) by assumption.
  unfold mscale.
  rewrite !(mget_map_map (Cscale mu)) by (apply C_eq; simpl; ring).
  rewrite !mget_eye by assumption.
  rewrite (Hhm a c Ha Hc), (HhM a c Ha Hc), (Nat.eqb_sym c a).
  destruct (Nat.eqb a c); apply C_eq; simpl; ring.
Qed.

(** C2.  With [np.linalg.eigh] returning unitary eigenvector matrices on
    Hermitian blocks: for every dispersion of Hermitian [n x n] blocks on a
    non-empty mesh, every [beta], every Hermitian mean field [M] (or none)
    and every [mu], [rho_mf] returns a Hermitian matrix whose eigenvalues
    are real and in [[0, 1]] and whose trace is real and in [[0, n]]; and
    on a solver whose mean-field dispersion is such a dispersion,
    [__update_density_matrix] stores such a matrix as [self.rho] and
    returns the real part of its diagonal. *)
Theorem density_matrix_is_valid :
  forall (eigh : list mat -> list rvec * list mat) (n : nat)
         (e_k : Gf) (beta : R) (M : option mat) (mu : option R)
         (s : Solver) (beta' : R),
    eigh_unitary eigh n ->
    target_shape e_k = (n, n) ->
    Forall (is_mat n n) (data e_k) ->
    Forall (hermitian n) (data e_k) ->
    (0 < len_mesh e_k)%nat ->
    match M with
    | Some m => is_mat n n m /\ hermitian n m
    | None => True
    end ->
    Forall (is_mat n n) (data (self_e_k_MF s)) ->
    Forall (hermitian n) (data (self_e_k_MF s)) ->
    (0 < len_mesh (self_e_k_MF s))%nat ->
    valid_density_matrix n (rho_mf eigh e_k beta M mu) /\
    exists rho : mat,
      self_rho (fst (update_density_matrix eigh s beta')) = Some rho /\
      valid_density_matrix n rho /\
      snd (update_density_matrix eigh s beta') = map Re (diag_of_mat rho).
Proof.
  intros eigh n e_k beta M mu s beta' Hu Ht Hwf Hherm Hmesh HM
         Hwf' Hherm' Hmesh'.
  split.
  - unfold rho_mf. rewrite Ht. simpl fst.
    set (M' := kwarg (zeros (n, n)) M).
    set (mu' := kwarg 0 mu).
    set (E := bcast_sub (bcast_add (data e_k) M') (mscale mu' (eye n))).
    assert (HM' : is_mat n n M' /\ hermitian n M').
    { unfold M'. destruct M as [m |]; simpl; [exact HM |].
      split; [apply is_mat_zeros | apply hermitian_zeros]. }
    assert (HE : Forall (fun X => is_mat n n X /\ hermitian n X) E).
    { unfold E, bcast_sub, bcast_add. rewrite map_map.
      apply Forall_forall. intros X HX. apply in_map_iff in HX.
      destruct HX as [m [<- Hm]]. rewrite Forall_forall in Hwf, Hherm.
      apply hermitian_shifted;
        [apply Hwf | apply Hherm | apply HM' | apply HM']; exact Hm. }
    assert (HlenE : length E = len_mesh e_k).
    { unfold E, bcast_sub, bcast_add, len_mesh. rewrite !length_map.
      reflexivity. }
    destruct (Hu E) as (Hlen & HV & Hunit).
    { apply Forall_forall. intros X HX. rewrite Forall_forall in HE.
      apply (HE X HX). }
    { apply Forall_forall. intros X HX. rewrite Forall_forall in HE.
      apply (HE X HX). }
    destruct (eigh E) as [e V]. simpl snd in *.
    rewrite <- HlenE, <- Hlen.
    apply density_matrix_valid; [lia | exact HV |].
    intros k a c Hk. apply Hunit. lia.
  - unfold update_density_matrix.
    destruct (Hu (data (self_e_k_MF s)) Hwf' Hherm') as (Hlen & HV & Hunit).
    destruct (eigh (data (self_e_k_MF s))) as [e V]. simpl snd in *.
    simpl fst. eexists. split; [reflexivity |]. split; [| reflexivity].
    unfold len_mesh. rewrite <- Hlen.
    apply density_matrix_valid; [unfold len_mesh in Hmesh'; lia | exact HV |].
    intros k a c Hk. apply Hunit. lia.
Qed.

Lemma eigh_of_diagonal_unitary (n : nat) : eigh_unitary eigh_of_diagonal n.
Proof.
  intros E HE _. unfold eigh_of_diagonal. simpl snd.
  split; [apply length_map |]. split.
  - apply Forall_forall. intros V HV. apply in_map_iff in HV.
    destruct HV as [m [<- Hm]]. rewrite Forall_forall in HE.
    rewrite (nrows_is_mat n n m (HE m Hm)). apply is_mat_eye.
  - intros k a c Hk Ha Hc. unfold aget.
    replace (nth k (map (fun m => eye (nrows m)) E) []) with (eye n).
    + unfold tabulate.
      rewrite (Csum_map_ext _
                 (fun b => ((if Nat.eqb a b then C1 else C0)
                            * Cconj (mget (eye n) c b))%C)).
      * rewrite Csum_delta_l by exact Ha. rewrite mget_eye by assumption.
        rewrite (Nat.eqb_sym c a).
        destruct (Nat.eqb a c); apply C_eq; simpl; ring.
      * intros b Hb. apply in_seq in Hb. rewrite mget_eye by lia.
        reflexivity.
    + rewrite (nth_indep _ [] (eye (nrows (@nil (list C)))))
        by (rewrite length_map; exact Hk).
      rewrite (map_nth (fun m => eye (nrows m))).
      rewrite (nrows_is_mat n n _ (Forall_is_mat_nth n n E k HE Hk)).
      reflexivity.
Qed.

(** The density matrix of the two free orbitals at [beta = 1]. *)
Lemma density_matrix_is_valid_witness :
  eigh_unitary eigh_of_diagonal 2 /\
  Forall (is_mat 2 2) (data two_orbital_e_k) /\
  Forall (hermitian 2) (data two_orbital_e_k) /\
  (0 < len_mesh two_orbital_e_k)%nat /\
  valid_density_matrix 2
    (rho_mf eigh_of_diagonal two_orbital_e_k 1 None None) /\
  exists rho : mat,
    self_rho (fst (update_density_matrix eigh_of_diagonal
                     two_orbital_free_solver 1)) = Some rho /\
    valid_density_matrix 2 rho.
Proof.
  assert (H1 : eigh_unitary eigh_of_diagonal 2)
    by apply eigh_of_diagonal_unitary.
  assert (H2 : Forall (is_mat 2 2) (data two_orbital_e_k))
    by (repeat constructor).
  assert (H3 : Forall (hermitian 2) (data two_orbital_e_k)).
  { repeat constructor. intros a c Ha Hc.
    assert (Ha' : a = 0%nat \/ a = 1%nat) by lia.
    assert (Hc' : c = 0%nat \/ c = 1%nat) by lia.
    destruct Ha' as [-> | ->], Hc' as [-> | ->]; arr_compute;
      apply C_eq; simpl; ring. }
  assert (H4 : (0 < len_mesh two_orbital_e_k)%nat)
    by (unfold len_mesh; simpl; lia).
  repeat (split; [assumption |]).
  destruct (density_matrix_is_valid eigh_of_diagonal 2 two_orbital_e_k 1
              None None two_orbital_free_solver 1 H1 eq_refl H2 H3 H4 I
              H2 H3 H4) as [Hrho (rho & Hs & Hvalid & _)].
  split; [exact Hrho |]. exists rho. split; assumption.
Defined.

(* ------------------------------------------------------------------ *)
(** ** The functions that read unbound names *)

Lemma load_global_kmesh : load_global "kmesh" = Raise (NameError "kmesh").
Proof. reflexivity. Qed.

Lemma load_global_shape : load_global "shape" = Raise (NameError "shape").
Proof. reflexivity. Qed.

Lemma load_global_e_k : load_global "e_k" = Raise (NameError "e_k").
Proof. reflexivity. Qed.

Lemma for_each_raised {A S : Type} (l : list A) (e : exn)
      (body : S -> A -> result S) :
  fold_left (fun acc x => s <- acc ;; body s x) l (Raise e) = Raise e.
Proof. induction l as [| x l IH]; simpl; [reflexivity | exact IH]. Qed.

Lemma for_each_first_raises {A S : Type} (l : list A) (init : S) (e : exn)
      (body : S -> A -> result S) :
  l <> [] -> (forall s x, body s x = Raise e) ->
  for_each l init body = Raise e.
Proof.
  intros Hl Hbody. destruct l as [| x l]; [contradiction |].
  unfold for_each. simpl. rewrite Hbody. apply for_each_raised.
Qed.

Lemma seq_nonempty (n : nat) : (0 < n)%nat -> seq 0 n <> [].
Proof. destruct n; [lia | discriminate]. Qed.

Lemma list_prod_seq_nonempty (n : nat) :
  (0 < n)%nat -> list_prod (seq 0 n) (seq 0 n) <> [].
Proof. destruct n; [lia | discriminate]. Qed.

Lemma shape_mscale (x : R) (m : mat) : shape (mscale x m) = shape m.
Proof.
  unfold shape, nrows, ncols, mscale. rewrite length_map.
  destruct m as [| r m]; simpl; [reflexivity |].
  rewrite length_map. reflexivity.
Qed.

Lemma broadcast_ok_refl (a : nat) : broadcast_ok a a = true.
Proof. unfold broadcast_ok. rewrite Nat.eqb_refl. reflexivity. Qed.

Lemma broadcast_dim_refl (a : nat) : broadcast_dim a a = a.
Proof.
  unfold broadcast_dim. destruct (Nat.eqb a 1) eqn:E; reflexivity.
Qed.

(** C9, as the code has it.  [chi0_op_accurate] and [local_density_matrix]
    raise [NameError] on [kmesh], for every input.  [_compute_drho_dop]
    raises [NameError] on [e_k] for every operator of the shape of the
    (square) blocks of the dispersion, where the two sums and the two calls
    of [eigh] return, and [ValueError] before that for an operator whose
    shape does not broadcast against the blocks.
    [_compute_R_ab] and [_compute_R_abcd] raise [NameError] on [shape],
    which their loop body reads first, whenever the response has at least
    one orbital; without orbitals their loops are empty and they return the
    array they allocated. *)
Theorem unbound_names_raise :
  forall (eigh : list mat -> list rvec * list mat) (inv : mat -> result mat)
         (e_k : Gf) (beta eps : R) (op : mat) (self : BaseResponse)
         (field_prefactor : C),
    chi0_op_accurate inv e_k beta op eps = Raise (NameError "kmesh") /\
    local_density_matrix inv e_k beta = Raise (NameError "kmesh") /\
    (forall n, target_shape (resp_e_k self) = (n, n) -> shape op = (n, n) ->
       _compute_drho_dop eigh self op = Raise (NameError "e_k")) /\
    (broadcast_ok (fst (target_shape (resp_e_k self))) (nrows op)
     && broadcast_ok (snd (target_shape (resp_e_k self))) (ncols op) = false ->
     _compute_drho_dop eigh self op = Raise ValueError) /\
    ((0 < resp_norb self)%nat ->
     _compute_R_ab eigh self = Raise (NameError "shape") /\
     _compute_R_abcd eigh self field_prefactor = Raise (NameError "shape")) /\
    (resp_norb self = 0%nat ->
     _compute_R_ab eigh self = Ok (zeros (resp_shape_ab self)) /\
     _compute_R_abcd eigh self field_prefactor
     = Ok (zeros4 (resp_shape_abcd self))).
Proof.
  intros eigh inv e_k beta eps op self field_prefactor.
  split; [reflexivity |]. split; [reflexivity |].
  split; [| split; [| split]].
  - intros n Ht Hop. unfold _compute_drho_dop. cbv zeta.
    unfold np_broadcast. cbv zeta.
    rewrite shape_mscale, Ht, Hop. cbn [fst snd].
    rewrite broadcast_ok_refl. cbn [andb bind].
    unfold eigh_of_shape, broadcast_shape. cbn [fst snd].
    rewrite broadcast_dim_refl, Nat.eqb_refl. cbn [bind].
    destruct (eigh _) as [e_p U_p]. destruct (eigh _) as [e_m U_m].
    rewrite load_global_e_k. reflexivity.
  - intros Hbad. unfold _compute_drho_dop. cbv zeta.
    unfold np_broadcast. cbv zeta. rewrite shape_mscale.
    unfold shape at 1 2. cbn [fst snd]. rewrite Hbad. reflexivity.
  - intros Hnorb. split.
    + unfold _compute_R_ab. apply for_each_first_raises.
      * apply seq_nonempty. exact Hnorb.
      * intros R_ab a. rewrite load_global_shape. reflexivity.
    + unfold _compute_R_abcd. apply for_each_first_raises.
      * apply list_prod_seq_nonempty. exact Hnorb.
      * intros R_abcd [a b]. rewrite load_global_shape. reflexivity.
  - intros Hnorb. unfold _compute_R_ab, _compute_R_abcd. rewrite Hnorb.
    split; reflexivity.
Qed.

(** The helpers on the response of the atom, which has one orbital. *)
Lemma unbound_names_raise_witness :
  (0 < resp_norb (BaseResponse_init atom_ready None))%nat /\
  _compute_drho_dop eigh_of_diagonal (BaseResponse_init atom_ready None)
                    [[C1]] = Raise (NameError "e_k") /\
  _compute_R_ab eigh_of_diagonal (BaseResponse_init atom_ready None)
  = Raise (NameError "shape") /\
  _compute_R_abcd eigh_of_diagonal (BaseResponse_init atom_ready None) C1
  = Raise (NameError "shape").
Proof.
  assert (Hnorb : (0 < resp_norb (BaseResponse_init atom_ready None))%nat)
    by (simpl; lia).
  destruct (unbound_names_raise eigh_of_diagonal inv_of_diagonal atom_e_k 1 1
              [[C1]] (BaseResponse_init atom_ready None) C1)
    as (_ & _ & Hdrho & _ & Hpos & _).
  destruct (Hpos Hnorb) as [Hab Habcd].
  split; [exact Hnorb |].
  split; [apply (Hdrho 1%nat); reflexivity |].
  split; assumption.
Defined.

(** C9 as stated fails: on the response of the two free orbitals, an
    operator of shape [(3, 3)] does not broadcast against the [(2, 2)]
    blocks of the dispersion, and [_compute_drho_dop] raises [ValueError],
    not a name-resolution error. *)
Lemma compute_drho_dop_raises_ValueError :
  _compute_drho_dop eigh_of_diagonal
                    (BaseResponse_init two_orbital_free_solver None)
                    (zeros (3%nat, 3%nat))
  = Raise ValueError.
Proof. reflexivity. Qed.

(** On a response without orbitals the loops of [_compute_R_ab] and
    [_compute_R_abcd] are empty: they return, and raise nothing. *)
Lemma compute_R_ab_returns_without_orbitals :
  _compute_R_ab eigh_of_diagonal (BaseResponse_init no_orbital_solver None)
  = Ok [] /\
  _compute_R_abcd eigh_of_diagonal (BaseResponse_init no_orbital_solver None)
                  C1 = Ok [].
Proof. split; reflexivity. Qed.


(* ================================================================== *)
(** * Further properties of the code *)

(* ------------------------------------------------------------------ *)
(** ** Construction of the solver *)

(** X1.  [DensityDensityMeanFieldSolver.__init__] returns a solver exactly
    when the target shape of the dispersion is [(n, n)] for [n] the first
    dimension of [U_abcd], and raises [AssertionError] otherwise; the
    solver it returns has [norb = n], the [n x n] density-density part of
    [U_abcd] as [U_ab], [e_k] as its mean-field dispersion, [mu = 0],
    [beta = -1], and no [M], [rho] or [N_tot] yet. *)
Theorem Solver_init_checks_shape :
  forall (e_k : Gf) (U_abcd : tensor4) (mu_max mu_min : option R),
    (target_shape e_k = (length U_abcd, length U_abcd) /\
     exists s : Solver,
       Solver_init e_k U_abcd mu_max mu_min = Ok s /\
       self_norb s = length U_abcd /\
       self_target_shape s = (length U_abcd, length U_abcd) /\
       self_U_ab s = extract_dens_dens U_abcd /\
       is_mat (length U_abcd) (length U_abcd) (self_U_ab s) /\
       self_e_k s = e_k /\ self_e_k_MF s = e_k /\
       self_mu s = 0 /\ self_beta s = -1 /\
       self_M s = None /\ self_rho s = None /\ self_N_tot s = None) \/
    (target_shape e_k <> (length U_abcd, length U_abcd) /\
     Solver_init e_k U_abcd mu_max mu_min = Raise AssertionError).
Proof.
  intros e_k U_abcd mu_max mu_min.
  pose proof (shape_square _ _ (is_mat_extract_dens_dens U_abcd)) as Hshape.
  unfold Solver_init. cbv zeta. rewrite Hshape.
  destruct (shape_eqb (target_shape e_k) (length U_abcd, length U_abcd))
    eqn:E.
  - left. apply shape_eqb_true in E. split; [exact E |].
    eexists. split; [reflexivity |]. simpl. rewrite E. simpl.
    repeat split; try reflexivity; apply is_mat_extract_dens_dens.
  - right. split; [| reflexivity].
    intros H. apply shape_eqb_true in H. rewrite H in E. discriminate E.
Qed.

(** X2.  A solver fresh from [__init__] has no [N_tot] and no [M]:
    [density_matrix_step] on it, with one occupation per orbital, raises
    [AttributeError] on [N_tot] (after it has set [M] and the mean-field
    dispersion), and
    [__update_mean_field_dispersion] alone raises it on [M]; no root find
    is attempted. *)
Theorem step_before_setup_raises :
  forall (eigh : list mat -> list rvec * list mat)
         (eigvalsh : list mat -> list rvec)
         (brentq : (R -> R) -> R -> R -> result R)
         (e_k : Gf) (U_abcd : tensor4) (mu_max mu_min : option R)
         (s : Solver) (rho_diag : rvec),
    Solver_init e_k U_abcd mu_max mu_min = Ok s ->
    length rho_diag = self_norb s ->
    density_matrix_step eigh eigvalsh brentq s rho_diag
    = Raise (AttributeError "N_tot") /\
    update_mean_field_dispersion s = Raise (AttributeError "M").
Proof.
  intros eigh eigvalsh brentq e_k U_abcd mu_max mu_min s rho_diag H _.
  unfold Solver_init in H. apply bind_Ok_inv in H.
  destruct H as [[] [_ H]]. injection H as <-.
  split; reflexivity.
Qed.

Lemma step_before_setup_raises_witness :
  Solver_init two_orbital_e_k two_orbital_U_abcd None None
  = Ok two_orbital_solver /\
  density_matrix_step eigh_of_diagonal eigvalsh_of_diagonal brentq_root_at_0
                      two_orbital_solver [1 / 2; 1 / 2]
  = Raise (AttributeError "N_tot").
Proof.
  split; [exact two_orbital_solver_init |].
  apply (step_before_setup_raises eigh_of_diagonal eigvalsh_of_diagonal
           brentq_root_at_0 two_orbital_e_k two_orbital_U_abcd None None
           two_orbital_solver [1 / 2; 1 / 2] two_orbital_solver_init
           eq_refl).
Defined.

(* ------------------------------------------------------------------ *)
(** ** The initial chemical potential *)

(** X3.  The value given as [mu0] has no effect: [solve_setup] stores it
    and overwrites it with the root it then finds, which does not depend on
    it, so two runs of [solve_setup], or of [solve_iter], that differ only
    in the value of [mu0] return the same result. *)
Theorem given_mu0_has_no_effect :
  forall (eigh : list mat -> list rvec * list mat)
         (eigvalsh : list mat -> list rvec)
         (brentq : (R -> R) -> R -> R -> result R)
         (s : Solver) (beta N_tot : R) (M0 : option mat) (mu0 mu0' : R)
         (nitermax : option nat) (mixing tol : option R),
    solve_setup eigh eigvalsh brentq s beta N_tot M0 (Some mu0)
    = solve_setup eigh eigvalsh brentq s beta N_tot M0 (Some mu0') /\
    solve_iter eigh eigvalsh brentq s beta N_tot M0 (Some mu0)
               nitermax mixing tol
    = solve_iter eigh eigvalsh brentq s beta N_tot M0 (Some mu0')
                 nitermax mixing tol.
Proof.
  intros eigh eigvalsh brentq s beta N_tot M0 mu0 mu0' nitermax mixing tol.
  assert (Hsetup : forall s0,
             solve_setup eigh eigvalsh brentq s0 beta N_tot M0 (Some mu0)
             = solve_setup eigh eigvalsh brentq s0 beta N_tot M0 (Some mu0')).
  { intros s0. unfold solve_setup, update_mean_field_dispersion,
      update_chemical_potential. simpl.
    destruct (brentq _ _ _) as [mu |]; reflexivity. }
  split; [apply Hsetup |].
  unfold solve_iter. rewrite Hsetup. reflexivity.
Qed.

(* ------------------------------------------------------------------ *)
(** ** The density as a function of the chemical potential *)

Lemma fermi_bounds (e beta : R) : 0 <= fermi e beta <= 1.
Proof.
  split; apply Rlt_le; [apply fermi_pos | apply fermi_lt_1].
Qed.

(** The occupation of one k-point with [n] levels lies between 0 and
    [n]. *)
Lemma row_occupation_bounds (row : rvec) (beta mu : R) (n : nat) :
  length row = n ->
  0 <= Rsum (map (fun x => fermi (x - mu) beta) row) <= INR n.
Proof.
  intros Hlen. split.
  - apply Rsum_map_nonneg. intros x _. apply fermi_bounds.
  - replace (INR n) with (Rsum (map (fun _ : R => 1) row))
      by (rewrite Rsum_map_const, Hlen; lra).
    apply Rsum_map_le. intros x _. apply fermi_bounds.
Qed.

(** The density of [n_k > 0] k-points with [n] levels each lies between 0
    and [n]. *)
Lemma density_bounds (e : list rvec) (beta mu : R) (n_k n : nat) :
  (0 < n_k)%nat -> length e = n_k ->
  Forall (fun row => length row = n) e ->
  0 <= Rsum (map (fun row => Rsum (map (fun x => fermi (x - mu) beta) row))
                 e)
       / INR n_k <= INR n.
Proof.
  intros Hnk Hlen Hrows.
  assert (HR : 0 < INR n_k) by (apply lt_0_INR; exact Hnk).
  rewrite Forall_forall in Hrows.
  set (S := Rsum (map (fun row : rvec =>
                        Rsum (map (fun x => fermi (x - mu) beta) row)) e)).
  assert (H0 : 0 <= S).
  { apply Rsum_map_nonneg. intros row Hrow.
    apply (row_occupation_bounds row beta mu n (Hrows row Hrow)). }
  assert (H1 : S <= INR n_k * INR n).
  { replace (INR n_k * INR n) with (Rsum (map (fun _ : rvec => INR n) e))
      by (rewrite Rsum_map_const, Hlen; reflexivity).
    apply Rsum_map_le. intros row Hrow.
    apply (row_occupation_bounds row beta mu n (Hrows row Hrow)). }
  assert (Hinv : 0 < / INR n_k) by (apply Rinv_0_lt_compat; exact HR).
  split.
  - apply Rmult_le_pos; [exact H0 | lra].
  - replace (INR n) with (INR n_k * INR n * / INR n_k) by (field; lra).
    apply Rmult_le_compat_r; [lra | exact H1].
Qed.

Lemma brentq_root_at_0_sign (f : R -> R) (a b : R) :
  0 < f a * f b -> brentq_root_at_0 f a b = Raise ValueError.
Proof.
  intros H. unfold brentq_root_at_0.
  destruct (Rlt_dec 0 (f a * f b)); [reflexivity | contradiction].
Qed.

(** X4.  With [n_k > 0] k-points of [n] levels each, the density
    [sum_k sum_b fermi(e_kb - mu) / N_k] lies between 0 and [n] for every
    [mu] (the ends included: a Fermi factor lies between 0 and 1), so a
    target density [N_tot < 0] or [N_tot > n] gives no sign change over any
    bracket: given scipy's contract that [brentq] then raises
    [ValueError], [__update_chemical_potential] raises it and returns no
    solver. *)
Theorem density_outside_range_raises :
  forall (eigvalsh : list mat -> list rvec)
         (brentq : (R -> R) -> R -> R -> result R)
         (s : Solver) (beta N_tot : R) (mu0 : option R) (n : nat),
    let e := eigvalsh (data (self_e_k_MF s)) in
    let n_k := len_mesh (self_e_k_MF s) in
    let density := fun mu : R =>
      Rsum (map (fun row => Rsum (map (fun x => fermi (x - mu) beta) row)) e)
      / INR n_k in
    let f := target_function e n_k beta N_tot in
    (0 < n_k)%nat -> length e = n_k ->
    Forall (fun row => length row = n) e ->
    (0 < f (self_mu_min s) * f (self_mu_max s) ->
     brentq f (self_mu_min s) (self_mu_max s) = Raise ValueError) ->
    N_tot < 0 \/ INR n < N_tot ->
    (forall mu, 0 <= density mu <= INR n) /\
    update_chemical_potential eigvalsh brentq s beta N_tot mu0
    = Raise ValueError.
Proof.
  intros eigvalsh brentq s beta N_tot mu0 n e n_k density f
         Hnk Hlen Hrows Hsign Hout.
  assert (Hd : forall mu, 0 <= density mu <= INR n)
    by (intros mu; apply density_bounds; assumption).
  split; [exact Hd |].
  unfold update_chemical_potential. fold e n_k f.
  rewrite Hsign; [reflexivity |].
  assert (Hf : forall mu, f mu = density mu - N_tot) by reflexivity.
  rewrite !Hf.
  pose proof (Hd (self_mu_min s)). pose proof (Hd (self_mu_max s)).
  destruct Hout; nra.
Qed.

Lemma density_outside_range_raises_witness :
  update_chemical_potential eigvalsh_of_diagonal brentq_root_at_0
                            atom_solver 1 2 None
  = Raise ValueError.
Proof.
  apply (density_outside_range_raises eigvalsh_of_diagonal brentq_root_at_0
           atom_solver 1 2 None 1).
  - cbv. lia.
  - reflexivity.
  - repeat constructor.
  - apply brentq_root_at_0_sign.
  - right. simpl. lra.
Defined.

Lemma fermi_nondecreasing_in_mu (x beta mu1 mu2 : R) :
  0 <= beta -> mu1 <= mu2 -> fermi (x - mu1) beta <= fermi (x - mu2) beta.
Proof.
  intros Hb Hmu. unfold fermi.
  assert (Hexp : exp (beta * (x - mu2)) <= exp (beta * (x - mu1))).
  { destruct (Req_dec (beta * (x - mu2)) (beta * (x - mu1))) as [-> | Hne];
      [lra |].
    apply Rlt_le, exp_increasing. nra. }
  pose proof (exp_pos (beta * (x - mu2))).
  pose proof (exp_pos (beta * (x - mu1))).
  unfold Rdiv. rewrite !Rmult_1_l.
  apply Rinv_le_contravar; lra.
Qed.

(** X5.  At an inverse temperature that is not negative and on a mesh
    that is not empty, the function [__update_chemical_potential] hands to
    [brentq] never decreases with [mu]: raising the chemical potential
    never lowers the density, so over a bracket its values lie between
    those at [mu_min] and at [mu_max]. *)
Theorem target_function_nondecreasing :
  forall (e : list rvec) (n_k : nat) (beta N_tot : R),
    0 <= beta -> (0 < n_k)%nat ->
    (forall mu1 mu2, mu1 <= mu2 ->
       target_function e n_k beta N_tot mu1
       <= target_function e n_k beta N_tot mu2) /\
    (forall mu_min mu_max mu, mu_min <= mu <= mu_max ->
       target_function e n_k beta N_tot mu_min
       <= target_function e n_k beta N_tot mu
       <= target_function e n_k beta N_tot mu_max).
Proof.
  intros e n_k beta N_tot Hb Hnk.
  assert (Hinc : forall mu1 mu2, mu1 <= mu2 ->
             target_function e n_k beta N_tot mu1
             <= target_function e n_k beta N_tot mu2).
  { intros mu1 mu2 Hmu. unfold target_function.
    assert (HR : 0 < / INR n_k)
      by (apply Rinv_0_lt_compat, lt_0_INR; exact Hnk).
    assert (HS :
      Rsum (map (fun row => Rsum (map (fun x => fermi (x - mu1) beta) row))
                e)
      <= Rsum (map (fun row => Rsum (map (fun x => fermi (x - mu2) beta)
                                         row)) e)).
    { apply Rsum_map_le. intros row _. apply Rsum_map_le. intros x _.
      apply fermi_nondecreasing_in_mu; assumption. }
    unfold Rdiv. nra. }
  split; [exact Hinc |].
  intros mu_min mu_max mu [Hlo Hhi]. split; apply Hinc; assumption.
Qed.

Lemma target_function_nondecreasing_witness :
  target_function [[0]] 1 1 (1 / 2) 0 <= target_function [[0]] 1 1 (1 / 2) 1.
Proof.
  apply (target_function_nondecreasing [[0]] 1 1 (1 / 2)).
  - lra.
  - lia.
  - lra.
Defined.

(* ------------------------------------------------------------------ *)
(** ** The occupations a step returns *)

Lemma Re_scaled_square (f : R) (v : C) :
  Re (Cscale f v * Cconj v)%C = f * Cnorm2 v.
Proof. unfold Cnorm2. simpl. ring. Qed.

Lemma Re_square (v : C) : Re (v * Cconj v)%C = Cnorm2 v.
Proof. unfold Cnorm2. simpl. ring. Qed.

(** A diagonal entry of the density matrix: the Fermi factors weighted by
    the squared moduli of row [a] of the eigenvector matrices. *)
Lemma Re_density_matrix_diag (e : list rvec) (V : list mat) (beta : R)
      (nk n a : nat) :
  (0 < length V)%nat -> Forall (is_mat n n) V -> (a < n)%nat ->
  Re (mget (density_matrix e V beta nk) a a)
  = Rsum (map (fun k =>
       Rsum (map (fun b =>
         rget2 (map (map (fun x => fermi x beta)) e) k b
         * Cnorm2 (aget V k a b)) (seq 0 n))) (seq 0 (length V)))
    / INR nk.
Proof.
  intros HV Hmat Ha.
  rewrite (mget_density_matrix e V beta nk n a a HV Hmat Ha Ha).
  unfold Cdivr. simpl Re. f_equal.
  rewrite Re_Csum_map. apply Rsum_map_ext. intros k _.
  rewrite Re_Csum_map. apply Rsum_map_ext. intros b _.
  apply Re_scaled_square.
Qed.

Lemma snd_update_density_matrix
      (eigh : list mat -> list rvec * list mat) (s : Solver) (beta : R) :
  snd (update_density_matrix eigh s beta)
  = map Re (diag_of_mat
      (density_matrix
         (map (map (fun x => x - self_mu s))
              (fst (eigh (data (self_e_k_MF s)))))
         (snd (eigh (data (self_e_k_MF s)))) beta
         (len_mesh (self_e_k_MF s)))).
Proof.
  unfold update_density_matrix.
  destruct (eigh (data (self_e_k_MF s))) as [e V]. reflexivity.
Qed.

Lemma occupations_as_diagonal (n : nat) (rho : mat) :
  is_mat n n rho ->
  map Re (diag_of_mat rho) = map (fun a => Re (mget rho a a)) (seq 0 n).
Proof.
  intros Hrho. unfold diag_of_mat, tabulate.
  rewrite (nrows_is_mat n n rho Hrho), (ncols_square n rho Hrho).
  rewrite Nat.min_id, map_map. reflexivity.
Qed.

(** With rows of unit length, a diagonal entry of the density matrix lies
    in [[0, 1]]. *)
Lemma density_matrix_diag_bounds (e : list rvec) (V : list mat) (beta : R)
      (n a : nat) :
  (0 < length V)%nat -> Forall (is_mat n n) V -> (a < n)%nat ->
  (forall k, (k < length V)%nat ->
     Csum (tabulate n (fun b => (aget V k a b * Cconj (aget V k a b))%C))
     = C1) ->
  0 <= Re (mget (density_matrix e V beta (length V)) a a) <= 1.
Proof.
  intros HV Hmat Ha Hrow.
  rewrite (Re_density_matrix_diag e V beta (length V) n a HV Hmat Ha).
  set (F := map (map (fun x => fermi x beta)) e).
  assert (Hnorm : forall k, In k (seq 0 (length V)) ->
             Rsum (map (fun b => Cnorm2 (aget V k a b)) (seq 0 n)) = 1).
  { intros k Hk. apply in_seq in Hk.
    assert (Hk' : (k < length V)%nat) by lia.
    pose proof (f_equal Re (Hrow k Hk')) as H. unfold tabulate in H.
    rewrite Re_Csum_map in H. simpl in H. rewrite <- H.
    apply Rsum_map_ext. intros b _. symmetry. apply Re_square. }
  assert (Hlo : 0 <= Rsum (map (fun k =>
             Rsum (map (fun b => rget2 F k b * Cnorm2 (aget V k a b))
                       (seq 0 n))) (seq 0 (length V)))).
  { apply Rsum_map_nonneg. intros k _. apply Rsum_map_nonneg. intros b _.
    pose proof (rget2_fermi_bounds e beta k b).
    pose proof (Cnorm2_nonneg (aget V k a b)). fold F in H. nra. }
  assert (Hhi : Rsum (map (fun k =>
             Rsum (map (fun b => rget2 F k b * Cnorm2 (aget V k a b))
                       (seq 0 n))) (seq 0 (length V)))
           <= INR (length V)).
  { replace (INR (length V))
      with (Rsum (map (fun _ : nat => 1) (seq 0 (length V))))
      by (rewrite Rsum_map_const, length_seq; lra).
    apply Rsum_map_le. intros k Hk. rewrite <- (Hnorm k Hk).
    apply Rsum_map_le. intros b _.
    pose proof (rget2_fermi_bounds e beta k b).
    pose proof (Cnorm2_nonneg (aget V k a b)). fold F in H. nra. }
  assert (HR : 0 < INR (length V)) by (apply lt_0_INR; exact HV).
  assert (Hinv : 0 < / INR (length V)) by (apply Rinv_0_lt_compat; exact HR).
  unfold Rdiv. split.
  - apply Rmult_le_pos; [exact Hlo | lra].
  - replace 1 with (INR (length V) * / INR (length V)) by (field; lra).
    apply Rmult_le_compat_r; [lra | exact Hhi].
Qed.

(** The state [density_matrix_step] hands to [__update_density_matrix]. *)
Lemma density_matrix_step_result
      (eigh : list mat -> list rvec * list mat)
      (eigvalsh : list mat -> list rvec)
      (brentq : (R -> R) -> R -> R -> result R)
      (s s' : Solver) (rho_diag occ : rvec) :
  density_matrix_step eigh eigvalsh brentq s rho_diag = Ok (s', occ) ->
  let M := diag_of_vec (dot_mv (self_U_ab s) rho_diag) in
  let e_k_MF := mkGf (bcast_add (data (self_e_k s)) M)
                     (target_shape (self_e_k_MF s)) in
  exists N_tot mu,
    self_N_tot s = Some N_tot /\
    brentq (target_function (eigvalsh (data e_k_MF)) (len_mesh e_k_MF)
                            (self_beta s) N_tot)
           (self_mu_min s) (self_mu_max s) = Ok mu /\
    self_e_k_MF s' = e_k_MF /\ self_mu s' = mu /\
    self_beta s' = self_beta s /\
    occ = snd (update_density_matrix eigh s' (self_beta s')).
Proof.
  intros H M e_k_MF. rewrite density_matrix_step_unfold in H.
  cbv zeta in H. fold M e_k_MF in H.
  destruct (self_N_tot s) as [N_tot |] eqn:EN; [| discriminate H].
  simpl getattr in H. cbv [bind] in H.
  destruct (brentq _ _ _) as [mu |] eqn:Eb; [| discriminate H].
  exists N_tot, mu. split; [reflexivity |]. split; [exact Eb |].
  injection H as H.
  set (s1 := set_mu (set_e_k_MF (set_M s M) e_k_MF) mu) in *.
  assert (Hs : s' = fst (update_density_matrix eigh s1 (self_beta s)))
    by (rewrite H; reflexivity).
  assert (Hocc : occ = snd (update_density_matrix eigh s1 (self_beta s)))
    by (rewrite H; reflexivity).
  assert (Hfst : exists rho, s' = set_rho s1 rho).
  { rewrite Hs. unfold update_density_matrix.
    destruct (eigh _) as [e V]. eexists. reflexivity. }
  destruct Hfst as [rho ->].
  repeat split; try reflexivity.
  rewrite Hocc, !snd_update_density_matrix. reflexivity.
Qed.

Lemma mean_field_dispersion_shape (n : nat) (a : list mat) (U_ab : mat)
      (rho_diag : rvec) :
  Forall (is_mat n n) a -> is_mat n n U_ab ->
  Forall (is_mat n n) (bcast_add a (diag_of_vec (dot_mv U_ab rho_diag))).
Proof.
  intros Ha [HU _]. apply Forall_is_mat_bcast_add; [exact Ha |].
  assert (Hl : length (dot_mv U_ab rho_diag) = n)
    by (unfold dot_mv; rewrite length_map; exact HU).
  unfold diag_of_vec. rewrite Hl. apply is_mat_tabulate2.
Qed.

(** X6.  The occupations [density_matrix_step] returns are one number per
    orbital, each in [[0, 1]]: for a dispersion of [n x n] blocks over a
    mesh that is not empty, an [n x n] matrix [U_ab] and [n] occupations
    going in, given that [np.linalg.eigh] returns unitary matrices of
    eigenvectors on a stack of Hermitian [n x n] blocks and that the
    mean-field dispersion [e_k + diag(U_ab rho)] the step diagonalises is
    Hermitian. *)
Theorem occupations_between_0_and_1 :
  forall (eigh : list mat -> list rvec * list mat)
         (eigvalsh : list mat -> list rvec)
         (brentq : (R -> R) -> R -> R -> result R)
         (n : nat) (s s' : Solver) (rho_diag occ : rvec),
    let E := bcast_add (data (self_e_k s))
                       (diag_of_vec (dot_mv (self_U_ab s) rho_diag)) in
    eigh_unitary eigh n ->
    Forall (is_mat n n) (data (self_e_k s)) ->
    is_mat n n (self_U_ab s) -> length rho_diag = n ->
    (0 < length E)%nat -> Forall (hermitian n) E ->
    density_matrix_step eigh eigvalsh brentq s rho_diag = Ok (s', occ) ->
    length occ = n /\
    forall a, (a < n)%nat -> 0 <= rget occ a <= 1.
Proof.
  intros eigh eigvalsh brentq n s s' rho_diag occ E Hu Hdata HU _ HE
         Hherm Hstep.
  assert (Hmat : Forall (is_mat n n) E)
    by (apply mean_field_dispersion_shape; assumption).
  destruct (density_matrix_step_result _ _ _ _ _ _ _ Hstep)
    as (N_tot & mu & _ & _ & He & _ & _ & Hocc).
  rewrite snd_update_density_matrix in Hocc. rewrite He in Hocc.
  simpl data in Hocc. fold E in Hocc.
  unfold len_mesh in Hocc. simpl data in Hocc. fold E in Hocc.
  destruct (Hu E Hmat Hherm) as (Hlen & HV & Hunit).
  set (V := snd (eigh E)) in *.
  assert (HVpos : (0 < length V)%nat) by lia.
  rewrite <- Hlen in Hocc.
  set (e := map (map (fun x => x - self_mu s')) (fst (eigh E))) in *.
  assert (Hrho : is_mat n n
                   (density_matrix e V (self_beta s') (length V)))
    by (apply is_mat_density_matrix; assumption).
  rewrite (occupations_as_diagonal n _ Hrho) in Hocc. subst occ.
  split; [rewrite length_map, length_seq; reflexivity |].
  intros a Ha. unfold rget.
  replace (nth a (map (fun a0 => Re (mget (density_matrix e V
                            (self_beta s') (length V)) a0 a0)) (seq 0 n)) 0)
    with (Re (mget (density_matrix e V (self_beta s') (length V)) a a))
    by (symmetry;
        apply (nth_tabulate n (fun a0 => Re (mget (density_matrix e V
                 (self_beta s') (length V)) a0 a0)) 0 a Ha)).
  apply (density_matrix_diag_bounds e V (self_beta s') n a HVpos HV Ha).
  intros k Hk.
  assert (Hk' : (k < length E)%nat) by lia.
  rewrite (Hunit k a a Hk' Ha Ha), Nat.eqb_refl. reflexivity.
Qed.

Lemma occupations_between_0_and_1_witness :
  exists s1,
    density_matrix_step eigh_of_diagonal eigvalsh_of_diagonal brentq_root_at_0
                        atom_ready [1 / 2] = Ok (s1, [1 / 2]) /\
    0 <= rget [1 / 2] 0 <= 1.
Proof.
  destruct (atom_step atom_ready (1 / 2) (same_model_refl atom_ready))
    as [s1 [H _]].
  exists s1. split; [exact H |].
  apply (occupations_between_0_and_1 eigh_of_diagonal eigvalsh_of_diagonal
           brentq_root_at_0 1 atom_ready s1 [1 / 2] [1 / 2]
           (eigh_of_diagonal_unitary 1)).
  - repeat constructor.
  - repeat constructor.
  - reflexivity.
  - cbv. lia.
  - constructor; [| constructor]. intros a c Ha Hc.
    assert (a = 0%nat) by lia. assert (c = 0%nat) by lia. subst a c.
    arr_compute. Csimp.
  - exact H.
  - lia.
Defined.

(* ------------------------------------------------------------------ *)
(** ** A step conserves the density *)

Lemma Rsum_index {A : Type} (g : A -> R) (l : list A) (d : A) :
  Rsum (map g l)
  = Rsum (map (fun i => g (nth i l d)) (seq 0 (length l))).
Proof.
  induction l as [| x l IH]; [reflexivity |].
  simpl length. rewrite <- cons_seq, <- seq_shift, map_cons, map_cons, map_map.
  simpl. rewrite IH. reflexivity.
Qed.

Lemma Rsum_map_mul_r {A : Type} (c : R) (f : A -> R) (l : list A) :
  Rsum (map (fun x => f x * c) l) = Rsum (map f l) * c.
Proof.
  induction l as [| x l IH]; simpl; [lra |]. rewrite IH. lra.
Qed.

Lemma rget2_map_map (h : R -> R) (e : list rvec) (k b : nat) :
  (b < length (nth k e []))%nat ->
  rget2 (map (map h) e) k b = h (rget2 e k b).
Proof.
  intros Hb. unfold rget2.
  transitivity (nth b (map h (nth k e [])) 0).
  { f_equal. apply (map_nth (map h) e [] k). }
  transitivity (nth b (map h (nth k e [])) (h 0)).
  { apply nth_indep. rewrite length_map. exact Hb. }
  apply map_nth.
Qed.

(** The sum of the occupations is the density: with eigenvectors
    (columns) of unit length, the trace of the density matrix is the mean
    over the mesh of the Fermi factors. *)
Lemma sum_of_occupations (e : list rvec) (V : list mat) (beta mu : R)
      (nk n : nat) :
  (0 < length V)%nat -> Forall (is_mat n n) V ->
  length e = length V -> Forall (fun row => length row = n) e ->
  (forall k b, (k < length V)%nat -> (b < n)%nat ->
     Csum (tabulate n (fun a => (Cconj (aget V k a b) * aget V k a b)%C))
     = C1) ->
  Rsum (map Re (diag_of_mat
    (density_matrix (map (map (fun x => x - mu)) e) V beta nk)))
  = Rsum (map (fun row => Rsum (map (fun x => fermi (x - mu) beta) row)) e)
    / INR nk.
Proof.
  intros HV Hmat Hlen Hrows Hcol.
  set (e' := map (map (fun x => x - mu)) e).
  set (F := map (map (fun x => fermi x beta)) e').
  rewrite (occupations_as_diagonal n _
             (is_mat_density_matrix e' V beta nk n HV Hmat)).
  transitivity
    (Rsum (map (fun a =>
       Rsum (map (fun k =>
         Rsum (map (fun b => rget2 F k b * Cnorm2 (aget V k a b))
                   (seq 0 n))) (seq 0 (length V))) * / INR nk)
       (seq 0 n))).
  { apply Rsum_map_ext. intros a Ha. apply in_seq in Ha.
    apply Re_density_matrix_diag; [exact HV | exact Hmat | lia]. }
  rewrite Rsum_map_mul_r. unfold Rdiv. f_equal.
  rewrite (Rsum_map_swap
             (fun a k => Rsum (map (fun b => rget2 F k b
                                             * Cnorm2 (aget V k a b))
                                   (seq 0 n)))).
  rewrite (Rsum_index _ e []), Hlen.
  apply Rsum_map_ext. intros k Hk. apply in_seq in Hk.
  rewrite (Rsum_map_swap
             (fun a b => rget2 F k b * Cnorm2 (aget V k a b))).
  assert (Hrow : length (nth k e []) = n).
  { rewrite Forall_forall in Hrows. apply Hrows, nth_In. lia. }
  rewrite (Rsum_index _ (nth k e []) 0), Hrow.
  apply Rsum_map_ext. intros b Hb. apply in_seq in Hb.
  rewrite Rsum_map_mul_l.
  assert (Hnorm : Rsum (map (fun a => Cnorm2 (aget V k a b)) (seq 0 n)) = 1).
  { assert (Hk' : (k < length V)%nat) by lia.
    assert (Hb' : (b < n)%nat) by lia.
    pose proof (f_equal Re (Hcol k b Hk' Hb')) as H. unfold tabulate in H.
    rewrite Re_Csum_map in H. simpl Re at 2 in H. rewrite <- H.
    apply Rsum_map_ext. intros a _. unfold Cnorm2. simpl. ring. }
  rewrite Hnorm, Rmult_1_r.
  unfold F, e'.
  rewrite rget2_map_map.
  - rewrite rget2_map_map by lia. reflexivity.
  - unfold rvec in *.
    replace (nth k (map (map (fun x => x - mu)) e) [])
      with (map (fun x => x - mu) (nth k e []))
      by (symmetry; apply (map_nth (map (fun x => x - mu)) e [] k)).
    rewrite length_map. lia.
Qed.

(** X7.  A step conserves the density: for a dispersion of [n x n]
    blocks, an [n x n] matrix [U_ab] and [n] occupations going in, the
    occupations [density_matrix_step] returns sum to [N_tot].  This rests
    on the contracts of the library calls at the mean-field dispersion [E]
    the step builds: [eigvalsh] returns the eigenvalues [eigh] returns, one row
    of [n] per mesh point; the eigenvectors [eigh] returns (the columns of
    its [n x n] matrices) have unit length; and what [brentq] returns is a
    root. *)
Theorem density_matrix_step_conserves_density :
  forall (eigh : list mat -> list rvec * list mat)
         (eigvalsh : list mat -> list rvec)
         (brentq : (R -> R) -> R -> R -> result R)
         (n : nat) (s s' : Solver) (rho_diag occ : rvec) (N_tot : R),
    let E := bcast_add (data (self_e_k s))
                       (diag_of_vec (dot_mv (self_U_ab s) rho_diag)) in
    let V := snd (eigh E) in
    let f := target_function (eigvalsh E) (length E) (self_beta s) N_tot in
    self_N_tot s = Some N_tot ->
    Forall (is_mat n n) (data (self_e_k s)) ->
    is_mat n n (self_U_ab s) -> length rho_diag = n ->
    (0 < length E)%nat ->
    eigvalsh E = fst (eigh E) ->
    length (fst (eigh E)) = length E ->
    Forall (fun row => length row = n) (fst (eigh E)) ->
    length V = length E -> Forall (is_mat n n) V ->
    (forall k b, (k < length E)%nat -> (b < n)%nat ->
       Csum (tabulate n (fun a => (Cconj (aget V k a b) * aget V k a b)%C))
       = C1) ->
    (forall x, brentq f (self_mu_min s) (self_mu_max s) = Ok x -> f x = 0) ->
    density_matrix_step eigh eigvalsh brentq s rho_diag = Ok (s', occ) ->
    Rsum occ = N_tot.
Proof.
  intros eigh eigvalsh brentq n s s' rho_diag occ N_tot E V f
         HN _ _ _ HE Hvals Hle Hrows HlV Hmat Hcol Hroot Hstep.
  destruct (density_matrix_step_result _ _ _ _ _ _ _ Hstep)
    as (N' & mu & HN' & Hb & He & Hmu & Hbeta & Hocc).
  rewrite HN in HN'. injection HN' as <-.
  unfold len_mesh in Hb. simpl data in Hb. fold E in Hb. fold f in Hb.
  pose proof (Hroot mu Hb) as Hf.
  rewrite snd_update_density_matrix in Hocc. rewrite He, Hmu, Hbeta in Hocc.
  unfold len_mesh in Hocc. simpl data in Hocc. fold E in Hocc.
  fold V in Hocc.
  rewrite Hocc.
  rewrite (sum_of_occupations (fst (eigh E)) V (self_beta s) mu
             (length E) n).
  - unfold f, target_function in Hf. rewrite Hvals in Hf. lra.
  - lia.
  - exact Hmat.
  - lia.
  - exact Hrows.
  - intros k b Hk Hb'. apply Hcol; [lia | exact Hb'].
Qed.

Lemma density_matrix_step_conserves_density_witness :
  exists s1,
    density_matrix_step eigh_of_diagonal eigvalsh_of_diagonal brentq_root_at_0
                        atom_ready [1 / 4] = Ok (s1, [1 / 2]) /\
    Rsum [1 / 2] = 1 / 2.
Proof.
  destruct (atom_step atom_ready (1 / 4) (same_model_refl atom_ready))
    as [s1 [H _]].
  exists s1. split; [exact H |].
  apply (density_matrix_step_conserves_density eigh_of_diagonal
           eigvalsh_of_diagonal brentq_root_at_0 1 atom_ready s1
           [1 / 4] [1 / 2] (1 / 2)).
  - reflexivity.
  - repeat constructor.
  - repeat constructor.
  - reflexivity.
  - cbv. lia.
  - reflexivity.
  - reflexivity.
  - repeat constructor.
  - reflexivity.
  - repeat constructor.
  - intros k b Hk Hb. simpl in Hk.
    assert (k = 0%nat) by lia. assert (b = 0%nat) by lia. subst k b.
    arr_compute. Csimp.
  - intros x Hx. unfold brentq_root_at_0 in Hx.
    destruct (Rlt_dec _ _) in Hx; [discriminate Hx |].
    injection Hx as <-. unfold target_function. arr_compute. cbv [INR].
    fermi_at_0.
  - exact H.
Defined.

(* ------------------------------------------------------------------ *)
(** ** The bare response to a field *)

Lemma map2_swap {A B D : Type} (f : A -> B -> D) (l : list A) (l' : list B) :
  map2 f l l' = map2 (fun y x => f x y) l' l.
Proof.
  unfold map2. revert l'.
  induction l as [| x l IH]; intros [| y l']; simpl; try reflexivity.
  rewrite IH. reflexivity.
Qed.

Lemma map2_ext {A B D : Type} (f g : A -> B -> D) (l : list A) (l' : list B) :
  (forall x y, f x y = g x y) -> map2 f l l' = map2 g l l'.
Proof.
  intros H. unfold map2. apply map_ext. intros [x y]. apply H.
Qed.

Lemma map2_map_r {A B B' D : Type} (f : A -> B -> D) (g : B' -> B)
      (l : list A) (l' : list B') :
  map2 f l (map g l') = map2 (fun x y => f x (g y)) l l'.
Proof.
  unfold map2. revert l'.
  induction l as [| x l IH]; intros [| y l']; simpl; try reflexivity.
  rewrite IH. reflexivity.
Qed.

Lemma map_map2 {A B D D' : Type} (h : D -> D') (f : A -> B -> D)
      (l : list A) (l' : list B) :
  map h (map2 f l l') = map2 (fun x y => h (f x y)) l l'.
Proof. unfold map2. apply map_map. Qed.

Lemma map2_diag {A D : Type} (f : A -> A -> D) (l : list A) :
  map2 f l l = map (fun x => f x x) l.
Proof.
  unfold map2. induction l as [| x l IH]; simpl; [reflexivity |].
  rewrite IH. reflexivity.
Qed.

(** Subtracting a field is adding its opposite, whatever the shapes. *)
Lemma madd_mscale_opp (a F : mat) (x : R) :
  madd a (mscale (- x) F) = msub a (mscale x F).
Proof.
  unfold madd, msub, mscale. rewrite !map2_map_r. apply map2_ext.
  intros r r'. rewrite !map2_map_r. apply map2_ext.
  intros u v. apply C_eq; simpl; ring.
Qed.

Lemma msub_mscale_opp (a F : mat) (x : R) :
  msub a (mscale (- x) F) = madd a (mscale x F).
Proof.
  unfold madd, msub, mscale. rewrite !map2_map_r. apply map2_ext.
  intros r r'. rewrite !map2_map_r. apply map2_ext.
  intros u v. apply C_eq; simpl; ring.
Qed.

Lemma mdivr_msub_swap (a b : mat) (c : R) :
  mdivr (msub b a) (- c) = mdivr (msub a b) c.
Proof.
  unfold mdivr, msub. rewrite !map_map2. rewrite map2_swap.
  apply map2_ext. intros r r'. rewrite !map_map2. rewrite map2_swap.
  apply map2_ext. intros u v.
  apply C_eq; simpl; unfold Rdiv; rewrite Rinv_opp; ring.
Qed.

(** X8.  The central difference of [chi0_op] does not see the sign of
    [eps]: for a field of the shape of the blocks of the dispersion and a
    step that is not zero, [chi0_op(e_k, beta, op, -eps)] is
    [chi0_op(e_k, beta, op, eps)], the two perturbed dispersions and the
    sign of the quotient swapping together. *)
Theorem chi0_op_even_in_eps :
  forall (eigh : list mat -> list rvec * list mat)
         (e_k : Gf) (beta : R) (op : mat) (eps : R) (n : nat),
    Forall (is_mat n n) (data e_k) -> is_mat n n op ->
    eps <> 0 ->
    chi0_op eigh e_k beta op (- eps) = chi0_op eigh e_k beta op eps.
Proof.
  intros eigh e_k beta op eps n _ _ _. unfold chi0_op.
  assert (Hp : bcast_add (data e_k) (mscale (- eps) op)
               = bcast_sub (data e_k) (mscale eps op)).
  { unfold bcast_add, bcast_sub. apply map_ext. intros ak.
    apply madd_mscale_opp. }
  assert (Hm : bcast_sub (data e_k) (mscale (- eps) op)
               = bcast_add (data e_k) (mscale eps op)).
  { unfold bcast_add, bcast_sub. apply map_ext. intros ak.
    apply msub_mscale_opp. }
  rewrite Hp, Hm.
  destruct (eigh (bcast_add (data e_k) (mscale eps op))) as [e_p U_p].
  destruct (eigh (bcast_sub (data e_k) (mscale eps op))) as [e_m U_m].
  cbv zeta. do 3 f_equal.
  rewrite !map_map2. rewrite map2_swap. apply map2_ext. intros P Q.
  replace (2 * - eps) with (- (2 * eps)) by ring.
  apply mdivr_msub_swap.
Qed.

Lemma chi0_op_even_in_eps_witness :
  chi0_op eigh_of_diagonal two_orbital_e_k 1 (eye 2) (- (1))
  = chi0_op eigh_of_diagonal two_orbital_e_k 1 (eye 2) 1.
Proof.
  apply (chi0_op_even_in_eps eigh_of_diagonal two_orbital_e_k 1 (eye 2) 1
           2).
  - repeat constructor.
  - apply is_mat_eye.
  - lra.
Defined.

Lemma mget_tabulate2_zero (n p : nat) (f : nat -> nat -> C) (i j : nat) :
  (forall i j, f i j = C0) -> mget (tabulate2 n p f) i j = C0.
Proof.
  intros Hf.
  destruct (lt_dec i n) as [Hi | Hi].
  - destruct (lt_dec j p) as [Hj | Hj].
    + rewrite mget_tabulate2 by assumption. apply Hf.
    + unfold mget, tabulate2.
      rewrite (nth_tabulate n (fun i => tabulate p (f i)) [] i Hi).
      apply nth_overflow. rewrite length_tabulate. lia.
  - apply mget_out_of_rows. unfold tabulate2. rewrite length_tabulate. lia.
Qed.

Lemma mscale_zeros (x : R) (sh : nat * nat) : mscale x (zeros sh) = zeros sh.
Proof.
  unfold mscale, zeros, tabulate2, tabulate. rewrite map_map.
  apply map_ext. intros i. rewrite map_map. apply map_ext. intros j.
  apply C_eq; simpl; ring.
Qed.

Lemma madd_zeros_as_msub (a : mat) (sh : nat * nat) :
  madd a (zeros sh) = msub a (zeros sh).
Proof.
  unfold madd, msub, zeros, tabulate2, tabulate.
  rewrite !map2_map_r. apply map2_ext. intros r i.
  rewrite !map2_map_r. apply map2_ext. intros u j.
  apply C_eq; simpl; ring.
Qed.

Lemma mget_msub_self (p : mat) (i j : nat) : mget (msub p p) i j = C0.
Proof.
  unfold msub. rewrite map2_diag.
  transitivity (mget (map (map (fun x : C => (x - x)%C)) p) i j).
  { f_equal. apply map_ext. intros r. apply map2_diag. }
  rewrite mget_map_map by (apply C_eq; simpl; ring).
  apply C_eq; simpl; ring.
Qed.

(** X9.  No field, no response: [chi0_op] of the zero operator of the
    shape of the blocks of the dispersion is zero everywhere, whatever
    [np.linalg.eigh] returns, when the step [eps] is not zero and the mesh
    is not empty. *)
Theorem chi0_op_of_zero_field :
  forall (eigh : list mat -> list rvec * list mat)
         (e_k : Gf) (beta eps : R) (sh : nat * nat) (i j : nat),
    Forall (is_mat (fst sh) (snd sh)) (data e_k) ->
    eps <> 0 -> (0 < len_mesh e_k)%nat ->
    mget (chi0_op eigh e_k beta (zeros sh) eps) i j = C0.
Proof.
  intros eigh e_k beta eps sh i j _ _ _. unfold chi0_op.
  rewrite mscale_zeros.
  assert (HE : bcast_add (data e_k) (zeros sh)
               = bcast_sub (data e_k) (zeros sh)).
  { unfold bcast_add, bcast_sub. apply map_ext. intros ak.
    apply madd_zeros_as_msub. }
  rewrite HE.
  destruct (eigh (bcast_sub (data e_k) (zeros sh))) as [e V].
  cbv zeta. rewrite mget_mneg, mget_mdivr.
  set (P := einsum_kab_kb_kcb_kac V (map (map (fun x => fermi x beta)) e)
                                  (mconj3 V)).
  assert (Hsum : mget (sum_axis0 (map (fun d => mdivr d (2 * eps))
                                      (map2 msub P P))) i j = C0).
  { unfold sum_axis0. apply mget_tabulate2_zero. intros i' j'.
    rewrite map2_diag, !map_map.
    rewrite (Csum_map_ext _ (fun _ => C0)); [apply Csum_map_C0 |].
    intros p _. rewrite mget_mdivr, mget_msub_self. apply Cdivr_C0. }
  rewrite Hsum, Cdivr_C0. apply Cneg_0.
Qed.

Lemma chi0_op_of_zero_field_witness :
  mget (chi0_op eigh_of_diagonal two_orbital_e_k 1 (zeros (2%nat, 2%nat)) 1)
       0 1 = C0.
Proof.
  apply (chi0_op_of_zero_field eigh_of_diagonal two_orbital_e_k 1 1
           (2%nat, 2%nat) 0 1).
  - repeat constructor.
  - lra.
  - cbv. lia.
Defined.

Lemma mget_mmul (n : nat) (a b : mat) (i j : nat) :
  is_mat n n a -> is_mat n n b -> (i < n)%nat -> (j < n)%nat ->
  mget (mmul a b) i j
  = Csum (tabulate n (fun l => (mget a i l * mget b l j)%C)).
Proof.
  intros Ha Hb Hi Hj. unfold mmul.
  rewrite (nrows_is_mat n n a Ha), (ncols_square n b Hb),
    (ncols_square n a Ha).
  rewrite mget_tabulate2 by assumption. reflexivity.
Qed.

Lemma mget_projector (n a i j : nat) :
  (i < n)%nat -> (j < n)%nat ->
  mget (projector (n, n) a) i j
  = if Nat.eqb i a && Nat.eqb j a then C1 else C0.
Proof.
  intros Hi Hj. unfold projector, assign_entry.
  rewrite (nrows_is_mat n n _ (is_mat_zeros n n)),
    (ncols_square n _ (is_mat_zeros n n)).
  rewrite mget_tabulate2 by assumption.
  destruct (Nat.eqb i a && Nat.eqb j a); [reflexivity |].
  unfold zeros. simpl fst. simpl snd.
  rewrite mget_tabulate2 by assumption. reflexivity.
Qed.

(** X10.  [chi0_mat] tabulates [chi0_op_op] on the orbital projectors:
    its entry [(a, b)] is what [chi0_op_op] returns for the projector on
    orbital [a] as the field and the projector on orbital [b] as the
    observable, for a dispersion of [n x n] blocks and a step [eps] that is
    not zero, when [np.linalg.eigh] returns one [n x n] matrix of
    eigenvectors per mesh point for the two perturbed dispersions. *)
Theorem chi0_mat_tabulates_chi0_op_op :
  forall (eigh : list mat -> list rvec * list mat)
         (e_k : Gf) (beta eps : R) (n a b : nat),
    let P := fun c => projector (n, n) c in
    target_shape e_k = (n, n) ->
    Forall (is_mat n n) (data e_k) ->
    (0 < len_mesh e_k)%nat ->
    eps <> 0 ->
    eigh_shape_ok eigh n (bcast_add (data e_k) (mscale eps (P a))) ->
    eigh_shape_ok eigh n (bcast_sub (data e_k) (mscale eps (P a))) ->
    (a < n)%nat -> (b < n)%nat ->
    mget (chi0_mat eigh e_k beta eps) a b
    = chi0_op_op eigh e_k beta (P a) (P b) eps.
Proof.
  intros eigh e_k beta eps n a b P Ht _ Hmesh _ [Hlp HVp] [Hlm HVm] Ha Hb.
  assert (Hlen_p : length (bcast_add (data e_k) (mscale eps (P a)))
                   = len_mesh e_k) by apply length_bcast_add.
  assert (Hlen_m : length (bcast_sub (data e_k) (mscale eps (P a)))
                   = len_mesh e_k) by (unfold bcast_sub; apply length_map).
  pose proof (mget_chi0_op eigh e_k beta (P a) eps n b b) as Hop.
  cbv zeta in Hop. rewrite Hlp, Hlm, Hlen_p, Hlen_m in Hop.
  destruct (Hop eq_refl Hmesh HVp HVm Hb Hb) as [Hshape _].
  rewrite (mget_chi0_mat eigh e_k beta eps n a b Ht Ha Hb Hshape).
  unfold chi0_op_op. cbv zeta. fold (P a).
  set (X := chi0_op eigh e_k beta (P a) eps) in *.
  assert (HPb : is_mat n n (P b)) by apply is_mat_projector.
  assert (Hmm : is_mat n n (mmul (P b) X))
    by (apply (is_mat_mmul n n n); assumption).
  unfold diag_of_mat.
  rewrite (nrows_is_mat n n _ Hmm), (ncols_square n _ Hmm), Nat.min_id.
  transitivity (Csum (map (fun i =>
                  ((if Nat.eqb b i then C1 else C0) * mget X b i)%C)
                  (seq 0 n))).
  { symmetry. apply (Csum_delta_l n (fun i => mget X b i) b Hb). }
  unfold tabulate. apply Csum_map_ext. intros i Hi. apply in_seq in Hi.
  rewrite (mget_mmul n (P b) X i i) by (try assumption; lia).
  destruct (Nat.eqb b i) eqn:Ebi.
  - apply Nat.eqb_eq in Ebi. subst i.
    transitivity (Csum (map (fun l =>
                    ((if Nat.eqb b l then C1 else C0) * mget X l b)%C)
                    (seq 0 n))).
    { rewrite (Csum_delta_l n (fun l => mget X l b) b Hb).
      apply Cmul_1_l. }
    unfold tabulate. apply Csum_map_ext. intros l Hl. apply in_seq in Hl.
    unfold P. rewrite mget_projector by lia.
    rewrite Nat.eqb_refl, (Nat.eqb_sym l b). reflexivity.
  - rewrite Cmul_0_l. symmetry. apply Csum_zeros. intros l Hl.
    unfold P. rewrite mget_projector by lia.
    rewrite (Nat.eqb_sym i b), Ebi. apply Cmul_0_l.
Qed.

Lemma chi0_mat_tabulates_chi0_op_op_witness :
  mget (chi0_mat eigh_of_diagonal two_orbital_e_k 1 1) 0 1
  = chi0_op_op eigh_of_diagonal two_orbital_e_k 1
               (projector (2%nat, 2%nat) 0) (projector (2%nat, 2%nat) 1) 1.
Proof.
  apply (chi0_mat_tabulates_chi0_op_op eigh_of_diagonal two_orbital_e_k
           1 1 2 0 1).
  - reflexivity.
  - repeat constructor.
  - cbv. lia.
  - lra.
  - apply eigh_of_diagonal_shape_ok. repeat constructor.
  - apply eigh_of_diagonal_shape_ok. repeat constructor.
  - lia.
  - lia.
Defined.

(* ------------------------------------------------------------------ *)
(** ** Probes of the Hartree response *)

Lemma diagonal_probe_accepted (n : nat) (op : mat) :
  is_mat n n op ->
  (forall i j, i <> j -> mget op i j = C0) ->
  probe_accepted n op.
Proof.
  intros Hop Hoff. split; [exact Hop |].
  intros i j _ _ Hij. rewrite (Hoff i j Hij), Cabs_C0.
  unfold almost_equal_tol. lra.
Qed.

Lemma einsum_aa_ab_bb_diagonals (n : nat) (op1 op1' op2 op2' chi : mat) :
  is_mat n n op1 -> is_mat n n op1' -> is_mat n n op2 -> is_mat n n op2' ->
  (forall a, (a < n)%nat -> mget op1 a a = mget op1' a a) ->
  (forall a, (a < n)%nat -> mget op2 a a = mget op2' a a) ->
  einsum_aa_ab_bb op1 chi op2 = einsum_aa_ab_bb op1' chi op2'.
Proof.
  intros H1 H1' H2 H2' Hd1 Hd2.
  assert (Hall : forall (op op' : mat),
             is_mat n n op -> is_mat n n op' ->
             (forall a, (a < n)%nat -> mget op a a = mget op' a a) ->
             forall a, mget op a a = mget op' a a).
  { intros op op' [Hl _] [Hl' _] Hd a.
    destruct (lt_dec a n) as [Ha | Ha]; [apply Hd, Ha |].
    rewrite !mget_out_of_rows by lia. reflexivity. }
  unfold einsum_aa_ab_bb. f_equal. apply tabulate_ext. intros a _.
  f_equal. apply tabulate_ext. intros b _.
  rewrite (Hall op1 op1' H1 H1' Hd1 a), (Hall op2 op2' H2 H2' Hd2 b).
  reflexivity.
Qed.

(** The response of the two free orbitals, with the shapes of its two
    matrices. *)
Lemma two_orbital_free_response_shapes :
  exists self : HartreeResponse,
    HartreeResponse_init eigh_of_diagonal inv_of_diagonal
                         two_orbital_free_solver None = Ok self /\
    target_shape (resp_e_k (base self)) = (2%nat, 2%nat) /\
    is_mat 2 2 (chi0_ab self) /\ is_mat 2 2 (chi_ab self).
Proof.
  assert (H1 : target_shape (self_e_k_MF two_orbital_free_solver)
               = (2%nat, 2%nat)) by reflexivity.
  assert (H2 : is_mat 2 2 (self_U_ab two_orbital_free_solver))
    by (repeat constructor).
  assert (H3 : forall i j, (i < 2)%nat -> (j < 2)%nat ->
                           mget (self_U_ab two_orbital_free_solver) i j = C0).
  { intros i j Hi Hj.
    change (self_U_ab two_orbital_free_solver) with (zeros (2%nat, 2%nat)).
    apply mget_tabulate2_zero. reflexivity. }
  destruct (dyson_matrix_without_interaction
              eigh_of_diagonal two_orbital_free_solver 2 H1 H2 H3)
    as [Hchi0 HI].
  unfold HartreeResponse_init. cbv zeta.
  rewrite HI, inv_of_diagonal_eye. cbv [bind].
  eexists. split; [reflexivity |]. split; [reflexivity |].
  cbn [chi0_ab chi_ab]. split; [exact Hchi0 |].
  rewrite (mmul_eye_r 2 _ Hchi0). exact Hchi0.
Qed.

(** X11.  The Hartree response reads the diagonals of its probes and
    nothing else: on a response object with [n x n] matrices [chi0_ab]
    and [chi_ab], two pairs of accepted probes that agree on their
    diagonals get the same [bare_response] and the same [response], and
    both return a value; what an accepted probe holds off its diagonal
    (below the tolerance of the check) is dropped without notice. *)
Theorem response_reads_diagonals_only :
  forall (self : HartreeResponse) (op1 op2 op1' op2' : mat) (n : nat),
    target_shape (resp_e_k (base self)) = (n, n) ->
    is_mat n n (chi0_ab self) -> is_mat n n (chi_ab self) ->
    probe_accepted n op1 -> probe_accepted n op2 ->
    probe_accepted n op1' -> probe_accepted n op2' ->
    (forall a, (a < n)%nat -> mget op1 a a = mget op1' a a) ->
    (forall a, (a < n)%nat -> mget op2 a a = mget op2' a a) ->
    (exists v, bare_response self op1 op2 = Ok v /\
               bare_response self op1' op2' = Ok v) /\
    (exists v, response self op1 op2 = Ok v /\
               response self op1' op2' = Ok v).
Proof.
  intros self op1 op2 op1' op2' n Ht _ _ A1 A2 A1' A2' Hd1 Hd2.
  unfold bare_response, response.
  rewrite !(check_op_accepted self _ n Ht) by assumption. cbv [bind].
  destruct A1 as [H1 _], A2 as [H2 _], A1' as [H1' _], A2' as [H2' _].
  split; eexists; (split; [reflexivity |]); f_equal; symmetry;
    apply (einsum_aa_ab_bb_diagonals n); assumption.
Qed.

Lemma response_reads_diagonals_only_witness :
  exists (self : HartreeResponse) (v : C),
    HartreeResponse_init eigh_of_diagonal inv_of_diagonal
                         two_orbital_free_solver None = Ok self /\
    response self nearly_diagonal_op (eye 2) = Ok v /\
    response self (zeros (2%nat, 2%nat)) (eye 2) = Ok v.
Proof.
  destruct two_orbital_free_response_shapes
    as (self & Hinit & Ht & Hchi0 & Hchi).
  assert (Hz : probe_accepted 2 (zeros (2%nat, 2%nat))).
  { apply diagonal_probe_accepted; [apply is_mat_zeros |].
    intros i j _. apply mget_tabulate2_zero. reflexivity. }
  assert (He : probe_accepted 2 (eye 2)).
  { apply diagonal_probe_accepted; [apply is_mat_eye |].
    intros i j Hij. apply mget_eye_off_diagonal. exact Hij. }
  destruct (response_reads_diagonals_only self nearly_diagonal_op (eye 2)
              (zeros (2%nat, 2%nat)) (eye 2) 2 Ht Hchi0 Hchi
              nearly_diagonal_op_accepted He Hz He)
    as [_ [v [Hv Hv']]].
  - intros a Ha. assert (Hc : a = 0%nat \/ a = 1%nat) by lia.
    destruct Hc as [-> | ->]; reflexivity.
  - intros a _. reflexivity.
  - exists self, v. split; [exact Hinit |]. split; assumption.
Defined.

(* ------------------------------------------------------------------ *)
(** ** Reshaping between four-index arrays and matrices *)

Lemma pair_index_bound (n a b : nat) :
  (a < n)%nat -> (b < n)%nat -> (a * n + b < n * n)%nat.
Proof. intros Ha Hb. nia. Qed.

Lemma pair_index_div (n a b : nat) :
  (b < n)%nat -> ((a * n + b) / n = a)%nat.
Proof.
  intros Hb. symmetry. apply (Nat.div_unique (a * n + b) n a b); lia.
Qed.

Lemma pair_index_mod (n a b : nat) :
  (b < n)%nat -> ((a * n + b) mod n = b)%nat.
Proof.
  intros Hb. symmetry. apply (Nat.mod_unique (a * n + b) n a b); lia.
Qed.

Lemma pair_index_split (n A : nat) :
  (A < n * n)%nat ->
  (A / n < n)%nat /\ (A mod n < n)%nat /\ (A / n * n + A mod n = A)%nat.
Proof.
  intros HA. assert (Hn : n <> 0%nat) by (intros ->; lia).
  split; [apply Nat.Div0.div_lt_upper_bound; exact HA |].
  split; [apply Nat.mod_upper_bound; exact Hn |].
  pose proof (Nat.div_mod_eq A n). lia.
Qed.

Lemma tget_to_tensor (n : nat) (M : mat) (a b c d : nat) :
  (a < n)%nat -> (b < n)%nat -> (c < n)%nat -> (d < n)%nat ->
  tget (to_tensor n M) a b c d = mget M (a * n + b) (c * n + d).
Proof.
  intros Ha Hb Hc Hd. unfold tget, to_tensor.
  rewrite (nth_tabulate n _ [] a Ha), (nth_tabulate n _ [] b Hb).
  rewrite mget_tabulate2 by assumption. reflexivity.
Qed.

Lemma mget_to_matrix (n : nat) (T : tensor4) (A B : nat) :
  (A < n * n)%nat -> (B < n * n)%nat ->
  mget (to_matrix n T) A B = tget T (A / n) (A mod n) (B / n) (B mod n).
Proof.
  intros HA HB. unfold to_matrix.
  rewrite mget_tabulate2 by assumption. reflexivity.
Qed.

Lemma is_mat_to_matrix (n : nat) (T : tensor4) :
  is_mat (n * n) (n * n) (to_matrix n T).
Proof. apply is_mat_tabulate2. Qed.


(** X12.  The two reshapes of [HartreeFockResponse.__init__] are inverse
    to each other: an [(n, n, n, n)] array reshaped to [(n**2, n**2)] and
    back is the same array, and an [(n**2, n**2)] matrix reshaped to
    [(n, n, n, n)] and back is the same matrix; entry [(a, b, c, d)] sits
    at row [a * n + b], column [c * n + d]. *)
Theorem reshape_round_trip :
  forall (n : nat) (T : tensor4) (M : mat),
    is_tensor4 n T -> is_mat (n * n) (n * n) M ->
    to_tensor n (to_matrix n T) = T /\
    to_matrix n (to_tensor n M) = M /\
    (forall a b c d, (a < n)%nat -> (b < n)%nat -> (c < n)%nat ->
       (d < n)%nat ->
       mget (to_matrix n T) (a * n + b) (c * n + d) = tget T a b c d).
Proof.
  intros n T M [HlT HT] HM. rewrite Forall_forall in HT.
  split; [| split].
  - apply (list_ext []).
    + unfold to_tensor. rewrite length_tabulate. symmetry. exact HlT.
    + unfold to_tensor at 1. rewrite length_tabulate. intros a Ha.
      destruct (HT (nth a T [])) as [Hla Hma];
        [apply nth_In; lia |]. rewrite Forall_forall in Hma.
      unfold to_tensor. rewrite (nth_tabulate n _ [] a Ha).
      apply (list_ext []).
      * rewrite length_tabulate. symmetry. exact Hla.
      * rewrite length_tabulate. intros b Hb.
        rewrite (nth_tabulate n _ [] b Hb).
        apply (mat_ext n n);
          [apply is_mat_tabulate2
          | apply Hma, nth_In;
            apply (Nat.lt_le_trans _ n); [exact Hb |];
            apply Nat.eq_le_incl; symmetry; exact Hla |].
        intros c d Hc Hd. rewrite mget_tabulate2 by assumption.
        rewrite mget_to_matrix by (apply pair_index_bound; assumption).
        rewrite !pair_index_div, !pair_index_mod by assumption.
        reflexivity.
  - apply (mat_ext (n * n) (n * n)); [apply is_mat_to_matrix | exact HM |].
    intros A B HA HB. rewrite mget_to_matrix by assumption.
    destruct (pair_index_split n A HA) as (HA1 & HA2 & HA3).
    destruct (pair_index_split n B HB) as (HB1 & HB2 & HB3).
    rewrite tget_to_tensor by assumption. rewrite HA3, HB3. reflexivity.
  - intros a b c d Ha Hb Hc Hd.
    rewrite mget_to_matrix by (apply pair_index_bound; assumption).
    rewrite !pair_index_div, !pair_index_mod by assumption. reflexivity.
Qed.

Lemma reshape_round_trip_witness :
  to_tensor 1 (to_matrix 1 [[[[C1]]]]) = [[[[C1]]]] /\
  to_matrix 1 (to_tensor 1 [[C1]]) = [[C1]] /\
  (forall a b c d, (a < 1)%nat -> (b < 1)%nat -> (c < 1)%nat ->
     (d < 1)%nat ->
     mget (to_matrix 1 [[[[C1]]]]) (a * 1 + b) (c * 1 + d)
     = tget [[[[C1]]]] a b c d).
Proof.
  apply (reshape_round_trip 1 [[[[C1]]]] [[C1]]).
  - split; [reflexivity |]. repeat constructor.
  - repeat constructor.
Defined.

(* ------------------------------------------------------------------ *)
(** ** The Hartree-Fock response *)







(* ------------------------------------------------------------------ *)
(** ** The Kanamori density-density matrix *)

Lemma rmget_tabulate2 (n p : nat) (f : nat -> nat -> R) (i j : nat) :
  (i < n)%nat -> (j < p)%nat -> rmget (tabulate2 n p f) i j = f i j.
Proof.
  intros Hi Hj. unfold rmget, tabulate2.
  rewrite (nth_tabulate n (fun i => tabulate p (f i)) [] i Hi).
  apply nth_tabulate. exact Hj.
Qed.

Lemma hd_tabulate2 {A : Type} (n p : nat) (f : nat -> nat -> A) :
  (0 < n)%nat -> hd [] (tabulate2 n p f) = tabulate p (f 0%nat).
Proof.
  intros Hn. destruct n as [| n]; [lia |]. reflexivity.
Qed.

Lemma rdiag_of_tabulate2 (n : nat) (f : nat -> nat -> R) :
  rdiag_of_mat (tabulate2 n n f) = tabulate n (fun i => f i i).
Proof.
  unfold rdiag_of_mat. destruct (Nat.eq_dec n 0) as [-> | Hn];
    [reflexivity |].
  rewrite hd_tabulate2 by lia. unfold tabulate2 at 1.
  rewrite !length_tabulate, Nat.min_id.
  apply tabulate_ext. intros i Hi. apply rmget_tabulate2; exact Hi.
Qed.

Lemma index_in_range (v : rvec) (i : nat) :
  (i < length v)%nat -> index v i = inl (nth i v 0).
Proof.
  intros Hi. unfold index. rewrite (nth_error_nth' v 0 Hi). reflexivity.
Qed.

Lemma index_out_of_range (v : rvec) (i : nat) :
  (length v <= i)%nat -> index v i = inr IndexError.
Proof.
  intros Hi. unfold index.
  replace (nth_error v i) with (@None R)
    by (symmetry; apply nth_error_None; exact Hi).
  reflexivity.
Qed.

Lemma half_of_even (h : nat) : ((2 * h) / 2 = h)%nat.
Proof. symmetry. apply (Nat.div_unique (2 * h) 2 h 0); lia. Qed.

Lemma half_of_odd (h : nat) : ((2 * h + 1) / 2 = h)%nat.
Proof. symmetry. apply (Nat.div_unique (2 * h + 1) 2 h 1); lia. Qed.

(** The spin and orbital labels of the [2 h] spin-orbitals: spin up for
    the first [h], spin down for the last [h]; orbital [i mod h]. *)
Lemma Sidx_spec (h : nat) :
  rdiag_of_mat (rkron 2 2 (rdiag_of_vec [1 / 2; - (1 / 2)]) h h (reye h))
  = tabulate (2 * h) (fun i => if (i <? h)%nat then 1 / 2 else - (1 / 2)).
Proof.
  unfold rkron. rewrite rdiag_of_tabulate2.
  apply tabulate_ext. intros i Hi.
  assert (Hh : h <> 0%nat) by lia.
  assert (Hm : (i mod h < h)%nat) by (apply Nat.mod_upper_bound; exact Hh).
  unfold reye. rewrite (rmget_tabulate2 h h _ _ _ Hm Hm), Nat.eqb_refl.
  destruct (i <? h)%nat eqn:E.
  - apply Nat.ltb_lt in E. rewrite (Nat.div_small i h E).
    cbv [rmget rdiag_of_vec tabulate2 tabulate map seq nth length Nat.eqb
         rget]. lra.
  - apply Nat.ltb_ge in E.
    replace (i / h)%nat with 1%nat
      by (apply (Nat.div_unique i h 1 (i - h)); lia).
    cbv [rmget rdiag_of_vec tabulate2 tabulate map seq nth length Nat.eqb
         rget]. lra.
Qed.

Lemma Oidx_spec (h : nat) :
  rdiag_of_mat (rkron 2 2 (reye 2) h h (rdiag_of_vec (map INR (seq 0 h))))
  = tabulate (2 * h) (fun i => INR (i mod h)).
Proof.
  unfold rkron. rewrite rdiag_of_tabulate2.
  apply tabulate_ext. intros i Hi.
  assert (Hh : h <> 0%nat) by lia.
  assert (Hm : (i mod h < h)%nat) by (apply Nat.mod_upper_bound; exact Hh).
  assert (Hq : (i / h < 2)%nat)
    by (apply Nat.Div0.div_lt_upper_bound; lia).
  unfold reye at 1. rewrite (rmget_tabulate2 2 2 _ _ _ Hq Hq), Nat.eqb_refl.
  unfold rdiag_of_vec. rewrite length_map, length_seq.
  rewrite (rmget_tabulate2 h h _ _ _ Hm Hm), Nat.eqb_refl.
  unfold rget.
  rewrite (nth_indep (map INR (seq 0 h)) 0 (INR 0))
    by (rewrite length_map, length_seq; exact Hm).
  rewrite map_nth, seq_nth by exact Hm. simpl. lra.
Qed.

Lemma fold_raised {A B E : Type} (f : A -> B -> A + E) (l : list B) (e : E) :
  fold_left (fun acc x => match acc with
                          | inl a => f a x
                          | inr e => inr e
                          end) l (inr e) = inr e.
Proof. induction l as [| x l IH]; [reflexivity | exact IH]. Qed.

Lemma fold_raises {A B : Type} (f : A -> B -> A + index_exn) (l : list B)
      (x : B) (acc : A + index_exn) :
  In x l -> (forall a, f a x = inr IndexError) ->
  fold_left (fun acc x => match acc with
                          | inl a => f a x
                          | inr e => inr e
                          end) l acc = inr IndexError.
Proof.
  intros Hin Hx. revert acc.
  induction l as [| y l IH]; intros acc; [destruct Hin |].
  destruct Hin as [-> | Hin].
  - simpl. destruct acc as [a | []].
    + rewrite Hx. apply fold_raised.
    + apply fold_raised.
  - simpl. apply IH. exact Hin.
Qed.

(** X14.  For an odd number of spin-orbitals [U_matrix_kanamori_dens_dens]
    raises [IndexError] and returns no matrix: the spin and orbital labels
    are built for [2 * (norb / 2)] spin-orbitals, one fewer than the loop
    then reads. *)
Theorem kanamori_odd_norb_raises :
  forall (h : nat) (U J : R),
    U_matrix_kanamori_dens_dens (2 * h + 1) U J = inr IndexError.
Proof.
  intros h U J. unfold U_matrix_kanamori_dens_dens.
  rewrite half_of_odd. cbv zeta. rewrite Sidx_spec, Oidx_spec.
  apply (fold_raises _ _ (0%nat, (2 * h)%nat)).
  - apply in_prod; apply in_seq; lia.
  - intros M. unfold kanamori_step.
    rewrite (index_out_of_range (tabulate (2 * h) _) (2 * h))
      by (rewrite length_tabulate; lia).
    destruct (index _ 0%nat); reflexivity.
Qed.

Lemma Reqb_INR (x y : nat) : Reqb (INR x) (INR y) = Nat.eqb x y.
Proof.
  unfold Reqb. destruct (Req_dec_T (INR x) (INR y)) as [e | ne].
  - apply INR_eq in e. subst y. symmetry. apply Nat.eqb_refl.
  - symmetry. apply Nat.eqb_neq. intros ->. apply ne. reflexivity.
Qed.

Section KanamoriEven.

Variables (h : nat) (U J : R).

Let N : nat := (2 * h)%nat.
Let Sidx : rvec :=
  tabulate N (fun i => if (i <? h)%nat then 1 / 2 else - (1 / 2)).
Let Oidx : rvec := tabulate N (fun i => INR (i mod h)).
Let orb_eq (i j : nat) : bool := Nat.eqb (i mod h) (j mod h).
Let spin_eq (i j : nat) : bool := Bool.eqb (i <? h)%nat (j <? h)%nat.

(** The value the loop leaves at [(i, j)]. *)
Let val (i j : nat) : R :=
  if orb_eq i j then (if spin_eq i j then 0 else U)
  else (if spin_eq i j then U - 3 * J else U - 2 * J).

(** The iteration that writes [(i, j)]. *)
Let writer (i j : nat) : nat * nat :=
  if orb_eq i j || spin_eq i j then (i, j) else (j, i).

Let is_rmat (M : rmat) : Prop :=
  length M = N /\ Forall (fun r => length r = N) M.

Let step_pure (M : rmat) (i12 : nat * nat) : rmat :=
  let (i1, i2) := i12 in
  if orb_eq i1 i2 then
    if negb (spin_eq i1 i2) then rassign M i1 i2 U else M
  else
    if spin_eq i1 i2 then rassign M i1 i2 (U - 3 * J)
    else rassign M i2 i1 (U - 2 * J).

Lemma orb_eq_sym (i j : nat) : orb_eq i j = orb_eq j i.
Proof. apply Nat.eqb_sym. Qed.

Lemma spin_eq_sym (i j : nat) : spin_eq i j = spin_eq j i.
Proof. unfold spin_eq. destruct (i <? h)%nat, (j <? h)%nat; reflexivity. Qed.

Lemma val_sym (i j : nat) : val i j = val j i.
Proof.
  unfold val. rewrite (orb_eq_sym i j), (spin_eq_sym i j). reflexivity.
Qed.

Lemma Reqb_spin (i j : nat) :
  (i < N)%nat -> (j < N)%nat ->
  Reqb (nth i Sidx 0) (nth j Sidx 0) = spin_eq i j.
Proof.
  intros Hi Hj. unfold Sidx, spin_eq.
  rewrite (nth_tabulate N _ 0 i Hi), (nth_tabulate N _ 0 j Hj).
  unfold Reqb.
  destruct (i <? h)%nat, (j <? h)%nat;
    match goal with
    | |- context [Req_dec_T ?x ?y] => destruct (Req_dec_T x y)
    end; simpl; try reflexivity; exfalso; lra.
Qed.

Lemma Reqb_orb (i j : nat) :
  (i < N)%nat -> (j < N)%nat ->
  Reqb (nth i Oidx 0) (nth j Oidx 0) = orb_eq i j.
Proof.
  intros Hi Hj. unfold Oidx, orb_eq.
  rewrite (nth_tabulate N _ 0 i Hi), (nth_tabulate N _ 0 j Hj).
  apply Reqb_INR.
Qed.

Lemma kanamori_step_in_range (M : rmat) (i1 i2 : nat) :
  (i1 < N)%nat -> (i2 < N)%nat ->
  kanamori_step Sidx Oidx U J M (i1, i2) = inl (step_pure M (i1, i2)).
Proof.
  intros H1 H2. unfold kanamori_step.
  rewrite !index_in_range
    by (unfold Sidx, Oidx; rewrite length_tabulate; assumption).
  rewrite (Reqb_orb i1 i2 H1 H2), (Reqb_spin i1 i2 H1 H2).
  unfold step_pure.
  destruct (orb_eq i1 i2), (spin_eq i1 i2); reflexivity.
Qed.

Lemma is_rmat_tabulate2 (f : nat -> nat -> R) : is_rmat (tabulate2 N N f).
Proof.
  split; [apply length_tabulate |].
  apply Forall_forall. intros r Hr. unfold tabulate2, tabulate in Hr.
  apply in_map_iff in Hr. destruct Hr as [i [<- _]]. apply length_tabulate.
Qed.

Lemma is_rmat_hd (M : rmat) : is_rmat M -> length (hd [] M) = N.
Proof.
  intros [Hl Hr]. destruct M as [| r M]; [exact Hl |].
  simpl. apply (Forall_inv Hr).
Qed.

Lemma is_rmat_rassign (M : rmat) (i j : nat) (x : R) :
  is_rmat M -> is_rmat (rassign M i j x).
Proof.
  intros HM. unfold rassign.
  rewrite (is_rmat_hd M HM), (proj1 HM). apply is_rmat_tabulate2.
Qed.

Lemma rmget_rassign (M : rmat) (i j : nat) (x : R) (i' j' : nat) :
  is_rmat M -> (i' < N)%nat -> (j' < N)%nat ->
  rmget (rassign M i j x) i' j'
  = if Nat.eqb i' i && Nat.eqb j' j then x else rmget M i' j'.
Proof.
  intros HM Hi Hj. unfold rassign.
  rewrite (is_rmat_hd M HM), (proj1 HM).
  apply rmget_tabulate2; assumption.
Qed.

Lemma is_rmat_step_pure (M : rmat) (i12 : nat * nat) :
  is_rmat M -> is_rmat (step_pure M i12).
Proof.
  intros HM. destruct i12 as [i1 i2]. unfold step_pure.
  destruct (orb_eq i1 i2), (spin_eq i1 i2); simpl;
    try exact HM; apply is_rmat_rassign; exact HM.
Qed.

(** An iteration writes [val] where it writes, and nothing elsewhere. *)
Lemma step_pure_keeps (M : rmat) (i1 i2 i j : nat) :
  is_rmat M -> (i < N)%nat -> (j < N)%nat ->
  rmget M i j = val i j -> rmget (step_pure M (i1, i2)) i j = val i j.
Proof.
  intros HM Hi Hj Hval. unfold step_pure.
  destruct (orb_eq i1 i2) eqn:Eo, (spin_eq i1 i2) eqn:Es; simpl;
    try exact Hval; rewrite rmget_rassign by assumption;
    match goal with
    | |- (if ?c then _ else _) = _ => destruct c eqn:Ec; [| exact Hval]
    end;
    apply andb_prop in Ec; destruct Ec as [E1 E2];
    apply Nat.eqb_eq in E1; apply Nat.eqb_eq in E2; subst i j; unfold val.
  - rewrite Eo, Es. reflexivity.
  - rewrite Eo, Es. reflexivity.
  - rewrite (orb_eq_sym i2 i1), (spin_eq_sym i2 i1), Eo, Es. reflexivity.
Qed.

Lemma step_pure_writes (M : rmat) (i j : nat) :
  is_rmat M -> (i < N)%nat -> (j < N)%nat ->
  orb_eq i j && spin_eq i j = false ->
  rmget (step_pure M (writer i j)) i j = val i j.
Proof.
  intros HM Hi Hj Hcat. unfold writer, step_pure, val.
  destruct (orb_eq i j) eqn:Eo, (spin_eq i j) eqn:Es; simpl in *;
    try discriminate Hcat.
  - rewrite Eo, Es. simpl. rewrite rmget_rassign by assumption.
    rewrite !Nat.eqb_refl. reflexivity.
  - rewrite Eo, Es. rewrite rmget_rassign by assumption.
    rewrite !Nat.eqb_refl. reflexivity.
  - rewrite (orb_eq_sym j i), (spin_eq_sym j i), Eo, Es.
    rewrite rmget_rassign by assumption.
    rewrite !Nat.eqb_refl. reflexivity.
Qed.

Lemma writer_in_range (i j : nat) :
  (i < N)%nat -> (j < N)%nat ->
  In (writer i j) (list_prod (seq 0 N) (seq 0 N)).
Proof.
  intros Hi Hj. unfold writer.
  destruct (orb_eq i j || spin_eq i j); apply in_prod; apply in_seq; lia.
Qed.

(** The loop run over a list of index pairs in range: it raises nothing,
    and an entry holds [val] once it held it or its iteration has run. *)
Lemma kanamori_fold (l : list (nat * nat)) :
  (forall x, In x l -> (fst x < N)%nat /\ (snd x < N)%nat) ->
  forall M, is_rmat M ->
  exists M',
    fold_left (fun acc i12 =>
                 match acc with
                 | inl U_mat => kanamori_step Sidx Oidx U J U_mat i12
                 | inr e => inr e
                 end) l (inl M) = inl M' /\
    is_rmat M' /\
    forall i j, (i < N)%nat -> (j < N)%nat ->
      rmget M i j = val i j \/
      (In (writer i j) l /\ orb_eq i j && spin_eq i j = false) ->
      rmget M' i j = val i j.
Proof.
  induction l as [| [i1 i2] l IH]; intros Hl M HM.
  - exists M. split; [reflexivity |]. split; [exact HM |].
    intros i j _ _ [H | [[] _]]. exact H.
  - destruct (Hl (i1, i2) (or_introl eq_refl)) as [H1 H2].
    simpl in H1, H2. cbn [fold_left].
    rewrite (kanamori_step_in_range M i1 i2 H1 H2).
    destruct (IH (fun x Hx => Hl x (or_intror Hx))
                 (step_pure M (i1, i2))
                 (is_rmat_step_pure M (i1, i2) HM))
      as (M' & Hfold & HM' & Hent).
    exists M'. split; [exact Hfold |]. split; [exact HM' |].
    intros i j Hi Hj [Hval | [[Hw | Hw] Hcat]].
    + apply Hent; [exact Hi | exact Hj |]. left.
      apply step_pure_keeps; assumption.
    + apply Hent; [exact Hi | exact Hj |]. left.
      rewrite Hw. apply step_pure_writes; assumption.
    + apply Hent; [exact Hi | exact Hj |]. right. split; assumption.
Qed.

Lemma kanamori_even (Sidx' Oidx' : rvec) :
  Sidx' = Sidx -> Oidx' = Oidx ->
  exists M,
    fold_left (fun acc i12 =>
                 match acc with
                 | inl U_mat => kanamori_step Sidx' Oidx' U J U_mat i12
                 | inr e => inr e
                 end)
              (list_prod (seq 0 N) (seq 0 N))
              (inl (tabulate2 N N (fun _ _ => 0))) = inl M /\
    length M = N /\ Forall (fun r => length r = N) M /\
    forall i j, (i < N)%nat -> (j < N)%nat ->
      rmget M i j
      = if Nat.eqb (i mod h) (j mod h)
        then (if Bool.eqb (i <? h)%nat (j <? h)%nat then 0 else U)
        else (if Bool.eqb (i <? h)%nat (j <? h)%nat
              then U - 3 * J else U - 2 * J).
Proof.
  intros -> ->.
  destruct (kanamori_fold (list_prod (seq 0 N) (seq 0 N)))
    with (M := tabulate2 N N (fun _ _ : nat => 0))
    as (M & Hfold & [HlM HrM] & Hent).
  - intros [i1 i2] Hx. apply in_prod_iff in Hx. destruct Hx as [Hx1 Hx2].
    apply in_seq in Hx1. apply in_seq in Hx2. simpl. lia.
  - apply is_rmat_tabulate2.
  - exists M. split; [exact Hfold |]. split; [exact HlM |].
    split; [exact HrM |].
    intros i j Hi Hj. change (rmget M i j = val i j).
    apply Hent; [exact Hi | exact Hj |].
    destruct (orb_eq i j && spin_eq i j) eqn:Ecat.
    + left. rewrite rmget_tabulate2 by assumption.
      apply andb_prop in Ecat. destruct Ecat as [Eo Es].
      unfold val. rewrite Eo, Es. reflexivity.
    + right. split; [apply writer_in_range; assumption | reflexivity].
Qed.

End KanamoriEven.

(** X15.  For an even number [2 h] of spin-orbitals
    [U_matrix_kanamori_dens_dens] returns a [2 h x 2 h] matrix whose entry
    [(i, j)] is [0] for the same spin-orbital, [U] for the two spins of one
    orbital, [U - 3 J] for two orbitals of one spin and [U - 2 J] for two
    orbitals of opposite spin (orbital [i mod h], spin up for [i < h]); the
    matrix is symmetric, although the last case is written at the
    transposed position. *)
Theorem kanamori_even_norb_entries :
  forall (h : nat) (U J : R),
  exists M : rmat,
    U_matrix_kanamori_dens_dens (2 * h) U J = inl M /\
    length M = (2 * h)%nat /\
    Forall (fun r => length r = (2 * h)%nat) M /\
    (forall i j, (i < 2 * h)%nat -> (j < 2 * h)%nat ->
       rmget M i j
       = if Nat.eqb (i mod h) (j mod h)
         then (if Bool.eqb (i <? h)%nat (j <? h)%nat then 0 else U)
         else (if Bool.eqb (i <? h)%nat (j <? h)%nat
               then U - 3 * J else U - 2 * J)) /\
    (forall i j, (i < 2 * h)%nat -> (j < 2 * h)%nat ->
       rmget M i j = rmget M j i).
Proof.
  intros h U J. unfold U_matrix_kanamori_dens_dens.
  rewrite half_of_even. cbv zeta.
  destruct (kanamori_even h U J _ _ (Sidx_spec h) (Oidx_spec h))
    as (M & Hfold & Hl & Hr & Hent).
  exists M. split; [exact Hfold |]. split; [exact Hl |].
  split; [exact Hr |]. split; [exact Hent |].
  intros i j Hi Hj. rewrite (Hent i j Hi Hj), (Hent j i Hj Hi).
  rewrite (Nat.eqb_sym (i mod h) (j mod h)).
  destruct (i <? h)%nat, (j <? h)%nat; reflexivity.
Qed.

(* ------------------------------------------------------------------ *)
(** ** The chemical potential as a field *)

Lemma mget_mscale (x : R) (m : mat) (i j : nat) :
  mget (mscale x m) i j = Cscale x (mget m i j).
Proof. unfold mscale. apply mget_map_map. apply C_eq; simpl; ring. Qed.

Lemma msub_madd_ext (n : nat) (x A B A' B' : mat) :
  is_mat n n x -> is_mat n n A -> is_mat n n B ->
  is_mat n n A' -> is_mat n n B' ->
  (forall i j, (i < n)%nat -> (j < n)%nat ->
     (mget A i j - mget B i j)%C = (mget A' i j - mget B' i j)%C) ->
  msub (madd x A) B = msub (madd x A') B'.
Proof.
  intros Hx HA HB HA' HB' H.
  assert (H1 : is_mat n n (madd x A)) by (apply is_mat_madd; assumption).
  assert (H2 : is_mat n n (madd x A')) by (apply is_mat_madd; assumption).
  apply (mat_ext n n); [apply is_mat_msub; assumption
                       | apply is_mat_msub; assumption |].
  intros i j Hi Hj.
  rewrite !(mget_msub n n), !(mget_madd n n) by assumption.
  pose proof (f_equal Re (H i j Hi Hj)) as Hre.
  pose proof (f_equal Im (H i j Hi Hj)) as Him.
  simpl in Hre, Him. apply C_eq; simpl; lra.
Qed.

Lemma shifted_stack_ext (n : nat) (a : list mat) (A B A' B' : mat) :
  Forall (is_mat n n) a ->
  is_mat n n A -> is_mat n n B -> is_mat n n A' -> is_mat n n B' ->
  (forall i j, (i < n)%nat -> (j < n)%nat ->
     (mget A i j - mget B i j)%C = (mget A' i j - mget B' i j)%C) ->
  bcast_sub (bcast_add a A) B = bcast_sub (bcast_add a A') B'.
Proof.
  intros Ha HA HB HA' HB' H. rewrite Forall_forall in Ha.
  unfold bcast_sub, bcast_add. rewrite !map_map.
  apply map_ext_in. intros x Hx.
  apply (msub_madd_ext n); try assumption. apply Ha, Hx.
Qed.

Lemma is_mat_mscale_eye (n : nat) (x : R) : is_mat n n (mscale x (eye n)).
Proof. apply is_mat_map_map, is_mat_eye. Qed.

(** X16.  In [rho_mf] a chemical potential is a uniform field: for a
    dispersion of [n x n] blocks with target shape [(n, n)],
    [rho_mf(e_k, beta, M, mu)] is [rho_mf(e_k, beta, M - mu * I)], and
    [rho_mf(e_k, beta, mu=mu)] is [rho_mf(e_k, beta, -mu * I)], the density
    matrix [fix_chemical_potential] asks for. *)
Theorem rho_mf_chemical_potential_is_a_field :
  forall (eigh : list mat -> list rvec * list mat)
         (e_k : Gf) (beta mu : R) (M : mat) (n : nat),
    target_shape e_k = (n, n) ->
    Forall (is_mat n n) (data e_k) ->
    is_mat n n M ->
    rho_mf eigh e_k beta (Some M) (Some mu)
    = rho_mf eigh e_k beta (Some (msub M (mscale mu (eye n)))) None /\
    rho_mf eigh e_k beta None (Some mu)
    = rho_mf eigh e_k beta (Some (mscale (- mu) (eye n))) None.
Proof.
  intros eigh e_k beta mu M n Ht He HM.
  assert (HI : forall x, is_mat n n (mscale x (eye n)))
    by (intros x; apply is_mat_mscale_eye).
  unfold rho_mf. cbv [kwarg]. rewrite Ht. simpl fst. split.
  - rewrite (shifted_stack_ext n (data e_k) M (mscale mu (eye n))
               (msub M (mscale mu (eye n))) (mscale 0 (eye n)));
      try assumption; try apply HI.
    + reflexivity.
    + apply is_mat_msub; [exact HM | apply HI].
    + intros i j Hi Hj.
      rewrite (mget_msub n n) by (try assumption; apply HI).
      rewrite !mget_mscale. apply C_eq; simpl; ring.
  - rewrite (shifted_stack_ext n (data e_k) (zeros (n, n))
               (mscale mu (eye n))
               (mscale (- mu) (eye n)) (mscale 0 (eye n)));
      try assumption; try apply HI; try apply is_mat_zeros.
    + reflexivity.
    + intros i j Hi Hj. rewrite !mget_mscale.
      replace (mget (zeros (n, n)) i j) with C0
        by (symmetry; apply mget_tabulate2_zero; reflexivity).
      apply C_eq; simpl; ring.
Qed.

Lemma rho_mf_chemical_potential_is_a_field_witness :
  rho_mf eigh_of_diagonal two_orbital_e_k 1 (Some (eye 2)) (Some 1)
  = rho_mf eigh_of_diagonal two_orbital_e_k 1
           (Some (msub (eye 2) (mscale 1 (eye 2)))) None /\
  rho_mf eigh_of_diagonal two_orbital_e_k 1 None (Some 1)
  = rho_mf eigh_of_diagonal two_orbital_e_k 1
           (Some (mscale (- (1)) (eye 2))) None.
Proof.
  apply (rho_mf_chemical_potential_is_a_field eigh_of_diagonal
           two_orbital_e_k 1 1 (eye 2) 2).
  - reflexivity.
  - repeat constructor.
  - apply is_mat_eye.
Defined.

Lemma hermitian_mscale_eye (n : nat) (x : R) :
  hermitian n (mscale x (eye n)).
Proof.
  intros a c Ha Hc. rewrite !mget_mscale, !mget_eye by assumption.
  rewrite (Nat.eqb_sym c a).
  destruct (Nat.eqb a c); apply C_eq; simpl; ring.
Qed.

(** The trace of [rho_mf] under a Hermitian field, for [eigh] unitary on
    Hermitian stacks: real part in [[0, n]]. *)
Lemma rho_mf_trace_bounds (eigh : list mat -> list rvec * list mat)
      (n : nat) (e_k : Gf) (beta : R) (M : mat) :
  eigh_unitary eigh n ->
  target_shape e_k = (n, n) ->
  Forall (is_mat n n) (data e_k) -> Forall (hermitian n) (data e_k) ->
  (0 < len_mesh e_k)%nat ->
  is_mat n n M -> hermitian n M ->
  0 <= Re (Csum (diag_of_mat (rho_mf eigh e_k beta (Some M) None))) <= INR n.
Proof.
  intros Hu Ht Hmat Hherm Hmesh HM HhM.
  unfold rho_mf. cbv [kwarg]. rewrite Ht. simpl fst.
  set (E := bcast_sub (bcast_add (data e_k) M) (mscale 0 (eye n))).
  assert (HE : Forall (is_mat n n) E /\ Forall (hermitian n) E).
  { rewrite Forall_forall in Hmat, Hherm.
    split; apply Forall_forall; intros x Hx;
      unfold E, bcast_sub, bcast_add in Hx; rewrite map_map in Hx;
      apply in_map_iff in Hx;
      destruct Hx as [y [<- Hy]];
      apply (hermitian_shifted n y M 0); auto. }
  destruct HE as [HE1 HE2].
  assert (HlE : length E = len_mesh e_k).
  { unfold E, bcast_sub, bcast_add. rewrite !length_map. reflexivity. }
  destruct (Hu E HE1 HE2) as (Hlen & HV & Hunit).
  destruct (eigh E) as [e V]. simpl snd in *.
  assert (HVpos : (0 < length V)%nat) by lia.
  replace (len_mesh e_k) with (length V) by lia.
  assert (Hunit' : forall k a c, (k < length V)%nat -> (a < n)%nat ->
             (c < n)%nat ->
             Csum (tabulate n (fun b =>
               (aget V k a b * Cconj (aget V k c b))%C))
             = if Nat.eqb a c then C1 else C0).
  { intros k a c Hk. apply Hunit. lia. }
  destruct (density_matrix_valid e V beta n HVpos HV Hunit')
    as (_ & _ & _ & _ & Htr).
  exact Htr.
Qed.

(** X17.  The standalone [fix_chemical_potential] cannot reach a density
    outside [[0, n]]: for a dispersion of Hermitian [n x n] blocks on a
    mesh that is not empty and [np.linalg.eigh] unitary, the trace it
    hands to [brentq] lies in [[0, n]] for every [mu], so a target [N < 0]
    or [N > n] gives no sign change over the fixed bracket [[-10, 10]];
    given scipy's contract that [brentq] then raises [ValueError], the call
    raises it, whatever [mu0] is. *)
Theorem fix_chemical_potential_outside_range_raises :
  forall (eigh : list mat -> list rvec * list mat)
         (brentq : (R -> R) -> R -> R -> result R)
         (e_k : Gf) (beta N : R) (mu0 : option R) (n : nat),
    let f := fix_target_function eigh e_k beta N in
    eigh_unitary eigh n ->
    target_shape e_k = (n, n) ->
    Forall (is_mat n n) (data e_k) -> Forall (hermitian n) (data e_k) ->
    (0 < len_mesh e_k)%nat ->
    (0 < f (-10) * f 10 -> brentq f (-10) 10 = Raise ValueError) ->
    N < 0 \/ INR n < N ->
    (forall mu, - N <= f mu <= INR n - N) /\
    fix_chemical_potential eigh brentq e_k beta N mu0 = Raise ValueError.
Proof.
  intros eigh brentq e_k beta N mu0 n f Hu Ht Hmat Hherm Hmesh Hsign Hout.
  assert (Hf : forall mu, - N <= f mu <= INR n - N).
  { intros mu. unfold f, fix_target_function. cbv zeta.
    rewrite Ht. simpl fst.
    pose proof (rho_mf_trace_bounds eigh n e_k beta
                  (mscale (- mu) (eye n)) Hu Ht Hmat Hherm Hmesh
                  (is_mat_mscale_eye n (- mu))
                  (hermitian_mscale_eye n (- mu))) as H.
    lra. }
  split; [exact Hf |].
  unfold fix_chemical_potential. cbv zeta. fold f.
  rewrite Hsign; [reflexivity |].
  pose proof (Hf (-10)). pose proof (Hf 10).
  destruct Hout; nra.
Qed.

Lemma fix_chemical_potential_outside_range_raises_witness :
  fix_chemical_potential eigh_of_diagonal brentq_root_at_0 atom_e_k 1 2
                         (Some 0)
  = Raise ValueError.
Proof.
  apply (fix_chemical_potential_outside_range_raises eigh_of_diagonal
           brentq_root_at_0 atom_e_k 1 2 (Some 0) 1).
  - apply eigh_of_diagonal_unitary.
  - reflexivity.
  - repeat constructor.
  - constructor; [| constructor]. intros a c Ha Hc.
    assert (a = 0%nat) by lia. assert (c = 0%nat) by lia. subst a c.
    arr_compute. Csimp.
  - cbv. lia.
  - apply brentq_root_at_0_sign.
  - right. simpl. lra.
Defined.

(* ------------------------------------------------------------------ *)
(** ** A density the bands cannot hold *)

Lemma update_chemical_potential_raises
      (eigvalsh : list mat -> list rvec)
      (brentq : (R -> R) -> R -> R -> result R)
      (s : Solver) (beta N_tot : R) (mu0 : option R) (n : nat) :
  (forall f a b, 0 < f a * f b -> brentq f a b = Raise ValueError) ->
  (0 < len_mesh (self_e_k_MF s))%nat ->
  length (eigvalsh (data (self_e_k_MF s))) = len_mesh (self_e_k_MF s) ->
  Forall (fun row => length row = n) (eigvalsh (data (self_e_k_MF s))) ->
  N_tot < 0 \/ INR n < N_tot ->
  update_chemical_potential eigvalsh brentq s beta N_tot mu0
  = Raise ValueError.
Proof.
  intros Hsign Hnk Hlen Hrows Hout.
  unfold update_chemical_potential. cbv zeta.
  rewrite Hsign; [reflexivity |].
  unfold target_function.
  pose proof (density_bounds _ beta (self_mu_min s) _ n Hnk Hlen Hrows).
  pose proof (density_bounds _ beta (self_mu_max s) _ n Hnk Hlen Hrows).
  destruct Hout; nra.
Qed.

Lemma solve_setup_raises
      (eigh : list mat -> list rvec * list mat)
      (eigvalsh : list mat -> list rvec)
      (brentq : (R -> R) -> R -> R -> result R)
      (s : Solver) (beta N_tot : R) (M0 : option mat) (mu0 : option R)
      (n : nat) :
  (forall E, Forall (is_mat n n) E ->
     length (eigvalsh E) = length E /\
     Forall (fun row => length row = n) (eigvalsh E)) ->
  (forall f a b, 0 < f a * f b -> brentq f a b = Raise ValueError) ->
  self_target_shape s = (n, n) ->
  Forall (is_mat n n) (data (self_e_k s)) ->
  Forall (is_mat n n) (data (self_e_k_MF s)) ->
  (0 < len_mesh (self_e_k s))%nat -> (0 < len_mesh (self_e_k_MF s))%nat ->
  match M0 with Some m => is_mat n n m | None => True end ->
  N_tot < 0 \/ INR n < N_tot ->
  solve_setup eigh eigvalsh brentq s beta N_tot M0 mu0 = Raise ValueError.
Proof.
  intros Hvals Hsign Hts He HeMF Hk HkMF HM0 Hout.
  unfold solve_setup. cbv zeta.
  assert (Hfirst : forall mu0',
             update_chemical_potential eigvalsh brentq
               (set_N_tot (set_beta s beta) N_tot) beta N_tot mu0'
             = Raise ValueError).
  { intros mu0'. destruct (Hvals _ HeMF) as [Hl Hr].
    apply (update_chemical_potential_raises _ _ _ _ _ _ n); assumption. }
  destruct mu0 as [mu0 |]; [| rewrite Hfirst; reflexivity].
  cbv [bind]. unfold update_mean_field_dispersion.
  cbn [self_M set_M getattr bind].
  set (M := kwarg _ M0).
  assert (HM : is_mat n n M).
  { unfold M. destruct M0 as [m |]; [exact HM0 |].
    cbn [kwarg self_target_shape set_mu set_N_tot set_beta].
    rewrite Hts. apply is_mat_zeros. }
  set (s3 := set_e_k_MF _ _).
  assert (HE : Forall (is_mat n n) (data (self_e_k_MF s3)))
    by (apply Forall_is_mat_bcast_add; assumption).
  destruct (Hvals _ HE) as [Hl Hr].
  rewrite (update_chemical_potential_raises eigvalsh brentq s3 beta N_tot
             None n); try assumption; [reflexivity |].
  unfold s3, len_mesh. cbn [self_e_k_MF set_e_k_MF data].
  rewrite length_bcast_add. exact Hk.
Qed.

(** X18.  A density the bands cannot hold stops [solve_iter] in its
    set-up: for [n] orbitals on a mesh that is not empty and a target
    [N_tot < 0] or [N_tot > n], [solve_setup] and [solve_iter] raise
    [ValueError], with or without [mu0] and [M0], before the first
    iteration; given that [np.linalg.eigvalsh] returns [n] eigenvalues per
    [n x n] block and that [brentq] raises [ValueError] when its function
    has one sign at both ends of the bracket. *)
Theorem solve_iter_density_outside_range_raises :
  forall (eigh : list mat -> list rvec * list mat)
         (eigvalsh : list mat -> list rvec)
         (brentq : (R -> R) -> R -> R -> result R)
         (s : Solver) (beta N_tot : R) (M0 : option mat) (mu0 : option R)
         (nitermax : option nat) (mixing tol : option R) (n : nat),
    (forall E, Forall (is_mat n n) E ->
       length (eigvalsh E) = length E /\
       Forall (fun row => length row = n) (eigvalsh E)) ->
    (forall f a b, 0 < f a * f b -> brentq f a b = Raise ValueError) ->
    self_target_shape s = (n, n) ->
    Forall (is_mat n n) (data (self_e_k s)) ->
    Forall (is_mat n n) (data (self_e_k_MF s)) ->
    (0 < len_mesh (self_e_k s))%nat -> (0 < len_mesh (self_e_k_MF s))%nat ->
    match M0 with Some m => is_mat n n m | None => True end ->
    0 <= kwarg default_mixing mixing <= 1 ->
    N_tot < 0 \/ INR n < N_tot ->
    solve_setup eigh eigvalsh brentq s beta N_tot M0 mu0 = Raise ValueError /\
    solve_iter eigh eigvalsh brentq s beta N_tot M0 mu0 nitermax mixing tol
    = Raise ValueError.
Proof.
  intros eigh eigvalsh brentq s beta N_tot M0 mu0 nitermax mixing tol n
         Hvals Hsign Hts He HeMF Hk HkMF HM0 [Hlo Hhi] Hout.
  split; [apply (solve_setup_raises _ _ _ _ _ _ _ _ n); assumption |].
  unfold solve_iter. cbv zeta.
  rewrite (proj2 (Rleb_true _ _) Hlo), (proj2 (Rleb_true _ _) Hhi).
  cbv [py_assert bind].
  rewrite (solve_setup_raises eigh eigvalsh brentq _ beta N_tot M0 mu0 n);
    try assumption. reflexivity.
Qed.

Lemma solve_iter_density_outside_range_raises_witness :
  solve_iter eigh_of_diagonal eigvalsh_of_diagonal brentq_root_at_0
             atom_solver 1 2 None None None None None
  = Raise ValueError.
Proof.
  apply (solve_iter_density_outside_range_raises eigh_of_diagonal
           eigvalsh_of_diagonal brentq_root_at_0 atom_solver 1 2 None None
           None None None 1).
  - intros E HE. unfold eigvalsh_of_diagonal, eigh_of_diagonal. simpl fst.
    split; [apply length_map |].
    apply Forall_forall. intros row Hrow. apply in_map_iff in Hrow.
    destruct Hrow as [m [<- Hm]]. rewrite Forall_forall in HE.
    rewrite length_map. unfold diag_of_mat. rewrite length_tabulate.
    rewrite (nrows_is_mat 1 1 m (HE m Hm)), (ncols_square 1 m (HE m Hm)).
    reflexivity.
  - apply brentq_root_at_0_sign.
  - reflexivity.
  - repeat constructor.
  - repeat constructor.
  - cbv. lia.
  - cbv. lia.
  - exact I.
  - unfold default_mixing. simpl. lra.
  - right. simpl. lra.
Defined.

(* ------------------------------------------------------------------ *)
(** ** The density along a whole run *)

Lemma length_mix (mixing : R) (old new : rvec) (n : nat) :
  length old = n -> length new = n -> length (mix mixing old new) = n.
Proof.
  intros Ho Hn. unfold mix, rvadd, rvscale.
  rewrite length_map2, !length_map, Ho, Hn. apply Nat.min_id.
Qed.

Lemma Rsum_mix (mixing : R) (old new : rvec) :
  length old = length new ->
  Rsum (mix mixing old new)
  = (1 - mixing) * Rsum old + mixing * Rsum new.
Proof.
  unfold mix, rvadd, rvscale, map2. revert new.
  induction old as [| x old IH]; intros [| y new] Hlen;
    try discriminate Hlen; simpl.
  - lra.
  - injection Hlen as Hlen. rewrite (IH new Hlen). lra.
Qed.

(** The occupations read off at a root of the density constraint: one per
    orbital, and they sum to the target density. *)
Lemma occupations_at_root
      (eigh : list mat -> list rvec * list mat)
      (eigvalsh : list mat -> list rvec) (n : nat)
      (E : list mat) (beta N_tot mu : R) :
  eigh_normalised eigh eigvalsh n ->
  Forall (is_mat n n) E -> (0 < length E)%nat ->
  target_function (eigvalsh E) (length E) beta N_tot mu = 0 ->
  let occ :=
    map Re (diag_of_mat
      (density_matrix (map (map (fun x => x - mu)) (fst (eigh E)))
                      (snd (eigh E)) beta (length E))) in
  length occ = n /\ Rsum occ = N_tot.
Proof.
  intros Hc HE Hpos Hf occ.
  destruct (Hc E HE) as (Hvals & Hle & Hrows & HlV & HV & Hcol).
  assert (HVpos : (0 < length (snd (eigh E)))%nat) by lia.
  split.
  - unfold occ.
    rewrite (occupations_as_diagonal n _
               (is_mat_density_matrix _ _ beta (length E) n HVpos HV)).
    rewrite length_map, length_seq. reflexivity.
  - unfold occ.
    rewrite (sum_of_occupations (fst (eigh E)) (snd (eigh E)) beta mu
               (length E) n HVpos HV);
      [| lia | exact Hrows | intros k b Hk Hb; apply Hcol; [lia | exact Hb]].
    unfold target_function in Hf. rewrite Hvals in Hf. lra.
Qed.

(** What [solve_setup] returns: the occupations at the root [brentq] found
    for the dispersion shifted by [M0], on a solver of the model it was
    given. *)
Lemma solve_setup_result
      (eigh : list mat -> list rvec * list mat)
      (eigvalsh : list mat -> list rvec)
      (brentq : (R -> R) -> R -> R -> result R)
      (s s0 : Solver) (beta N_tot : R) (M0 : option mat) (mu0 : option R)
      (rho0 : rvec) :
  solve_setup eigh eigvalsh brentq s beta N_tot M0 mu0 = Ok (s0, rho0) ->
  let E := bcast_add (data (self_e_k s))
                     (kwarg (zeros (self_target_shape s)) M0) in
  exists mu,
    brentq (target_function (eigvalsh E) (length E) beta N_tot)
           (self_mu_min s) (self_mu_max s) = Ok mu /\
    rho0 = map Re (diag_of_mat
             (density_matrix (map (map (fun x => x - mu)) (fst (eigh E)))
                             (snd (eigh E)) beta (length E))) /\
    self_e_k s0 = self_e_k s /\ self_U_ab s0 = self_U_ab s /\
    self_N_tot s0 = Some N_tot /\ self_beta s0 = beta /\
    self_mu_min s0 = self_mu_min s /\ self_mu_max s0 = self_mu_max s.
Proof.
  intros H E. unfold solve_setup in H. cbv zeta in H.
  apply bind_Ok_inv in H. destruct H as [s1 [H1 H]].
  assert (Hs1 : exists m,
             s1 = set_mu (set_N_tot (set_beta s beta) N_tot) m).
  { destruct mu0 as [m |].
    - injection H1 as <-. exists m. reflexivity.
    - unfold update_chemical_potential in H1. cbv zeta in H1.
      apply bind_Ok_inv in H1. destruct H1 as [m [_ H1]].
      injection H1 as <-. exists m. reflexivity. }
  destruct Hs1 as [m ->].
  unfold update_mean_field_dispersion in H.
  cbn [self_M set_M getattr bind] in H.
  apply bind_Ok_inv in H. destruct H as [s4 [H4 H]].
  unfold update_chemical_potential in H4. cbv zeta in H4.
  apply bind_Ok_inv in H4. destruct H4 as [mu [Hb H4]].
  injection H4 as <-.
  unfold len_mesh in Hb.
  cbn [self_e_k_MF self_e_k self_mu_min self_mu_max self_target_shape
       set_e_k_MF set_M set_mu set_N_tot set_beta data] in Hb.
  fold E in Hb.
  exists mu. split; [exact Hb |].
  injection H as H.
  assert (Hrho : rho0 = snd (update_density_matrix eigh
              (set_mu (set_e_k_MF
                 (set_M (set_mu (set_N_tot (set_beta s beta) N_tot) m)
                    (kwarg (zeros (self_target_shape s)) M0))
                 (mkGf E (target_shape (self_e_k_MF s)))) mu) beta)).
  { change rho0 with (snd (s0, rho0)). rewrite <- H. reflexivity. }
  assert (Hs0 : exists rho, s0 = set_rho
              (set_mu (set_e_k_MF
                 (set_M (set_mu (set_N_tot (set_beta s beta) N_tot) m)
                    (kwarg (zeros (self_target_shape s)) M0))
                 (mkGf E (target_shape (self_e_k_MF s)))) mu) rho).
  { change s0 with (fst (s0, rho0)). rewrite <- H.
    unfold update_density_matrix.
    destruct (eigh _) as [e V]. eexists. reflexivity. }
  destruct Hs0 as [rho ->].
  split; [| repeat split].
  rewrite Hrho, snd_update_density_matrix. reflexivity.
Qed.

(* ------------------------------------------------------------------ *)
(** ** The four-index bare response *)

Lemma is_mat_assign_entry (n p : nat) (m : mat) (i j : nat) (x : C) :
  is_mat n p m -> (0 < n)%nat -> is_mat n p (assign_entry m i j x).
Proof.
  intros Hm Hn. unfold assign_entry.
  rewrite (nrows_is_mat n p m Hm), (ncols_is_mat n p m Hm Hn).
  apply is_mat_tabulate2.
Qed.

Lemma mget_assign_entry (n p : nat) (m : mat) (i j : nat) (x : C)
      (i' j' : nat) :
  is_mat n p m -> (i' < n)%nat -> (j' < p)%nat ->
  mget (assign_entry m i j x) i' j'
  = if Nat.eqb i' i && Nat.eqb j' j then x else mget m i' j'.
Proof.
  intros Hm Hi Hj. unfold assign_entry.
  rewrite (nrows_is_mat n p m Hm), (ncols_is_mat n p m Hm) by lia.
  apply mget_tabulate2; assumption.
Qed.

(** The field [R_tensor] builds for the pair [(a, b)]: [scale] at
    [(a, b)] plus its conjugate at [(b, a)]. *)
Lemma R_tensor_field (n a b : nat) (scale : C) :
  (a < n)%nat -> (b < n)%nat ->
  let F0 := zeros (n, n) in
  let F1 := assign_entry F0 a b (mget F0 a b + scale)%C in
  let F2 := assign_entry F1 b a (mget F1 b a + Cconj scale)%C in
  is_mat n n F2 /\
  forall i j, (i < n)%nat -> (j < n)%nat ->
    mget F2 i j
    = ((if Nat.eqb i a && Nat.eqb j b then scale else C0)
       + (if Nat.eqb i b && Nat.eqb j a then Cconj scale else C0))%C.
Proof.
  intros Ha Hb F0 F1 F2.
  assert (Hn : (0 < n)%nat) by lia.
  assert (H0 : is_mat n n F0) by apply is_mat_zeros.
  assert (H1 : is_mat n n F1) by (apply is_mat_assign_entry; assumption).
  split; [apply is_mat_assign_entry; assumption |].
  assert (Hz : forall i j, mget F0 i j = C0)
    by (intros i j; apply mget_tabulate2_zero; reflexivity).
  assert (HF1 : forall i j, (i < n)%nat -> (j < n)%nat ->
             mget F1 i j
             = if Nat.eqb i a && Nat.eqb j b then scale else C0).
  { intros i j Hi Hj. unfold F1.
    rewrite (mget_assign_entry n n F0 a b _ i j H0 Hi Hj), !Hz.
    destruct (Nat.eqb i a && Nat.eqb j b); [apply Cadd_0_l | reflexivity]. }
  intros i j Hi Hj. unfold F2.
  rewrite (mget_assign_entry n n F1 b a _ i j H1 Hi Hj).
  rewrite (HF1 b a Hb Ha), (HF1 i j Hi Hj).
  destruct (Nat.eqb i b && Nat.eqb j a) eqn:E.
  - apply andb_prop in E. destruct E as [E1 E2].
    apply Nat.eqb_eq in E1. apply Nat.eqb_eq in E2. subst i j.
    reflexivity.
  - symmetry. apply Cadd_0_r.
Qed.

Lemma block_assign_block (n : nat) (t : tensor4) (i j : nat) (m : mat)
      (i' j' : nat) :
  length t = n -> (forall k, (k < n)%nat -> length (nth k t []) = n) ->
  (i' < n)%nat -> (j' < n)%nat ->
  nth j' (nth i' (assign_block t i j m) []) []
  = if Nat.eqb i' i && Nat.eqb j' j then m else nth j' (nth i' t []) [].
Proof.
  intros Hl Hr Hi Hj. unfold assign_block. rewrite Hl.
  rewrite (nth_tabulate n _ [] i' Hi), (Hr i' Hi).
  apply (nth_tabulate n
           (fun j0 => if Nat.eqb i' i && Nat.eqb j0 j then m
                      else nth j0 (nth i' t []) []) [] j' Hj).
Qed.

Lemma shape_assign_block (n : nat) (t : tensor4) (i j : nat) (m : mat) :
  length t = n -> (forall k, (k < n)%nat -> length (nth k t []) = n) ->
  length (assign_block t i j m) = n /\
  forall k, (k < n)%nat -> length (nth k (assign_block t i j m) []) = n.
Proof.
  intros Hl Hr. unfold assign_block. rewrite Hl.
  split; [apply length_tabulate |].
  intros k Hk. rewrite (nth_tabulate n _ [] k Hk), (Hr k Hk).
  apply length_tabulate.
Qed.

(** A loop that writes [g i1 i2] to block [(i2, i1)] at the pair
    [(i1, i2)]: block [(b, a)] holds [g a b] once it held it or the pair
    [(a, b)] has been visited. *)
Lemma fold_assign_block (n : nat) (g : nat -> nat -> mat)
      (l : list (nat * nat)) (a b : nat) :
  (a < n)%nat -> (b < n)%nat ->
  forall t : tensor4,
    length t = n -> (forall k, (k < n)%nat -> length (nth k t []) = n) ->
    nth a (nth b t []) [] = g a b \/ In (a, b) l ->
    nth a (nth b (fold_left (fun t (i12 : nat * nat) =>
                               let (i1, i2) := i12 in
                               assign_block t i2 i1 (g i1 i2)) l t) []) []
    = g a b.
Proof.
  intros Ha Hb.
  induction l as [| [i1 i2] l IH]; intros t Hl Hr H.
  - destruct H as [H | []]. exact H.
  - cbn [fold_left].
    destruct (shape_assign_block n t i2 i1 (g i1 i2) Hl Hr) as [Hl' Hr'].
    apply (IH _ Hl' Hr').
    assert (Hblock :
      nth a (nth b (assign_block t i2 i1 (g i1 i2)) []) []
      = if Nat.eqb b i2 && Nat.eqb a i1 then g i1 i2
        else nth a (nth b t []) [])
      by (apply (block_assign_block n); assumption).
    destruct H as [H | [Heq | Hin]].
    + left. rewrite Hblock.
      destruct (Nat.eqb b i2 && Nat.eqb a i1) eqn:E; [| exact H].
      apply andb_prop in E. destruct E as [E1 E2].
      apply Nat.eqb_eq in E1. apply Nat.eqb_eq in E2. subst i1 i2.
      reflexivity.
    + left. injection Heq as -> ->. rewrite Hblock, !Nat.eqb_refl.
      reflexivity.
    + right. exact Hin.
Qed.

(** X20.  What [R_tensor] stores, and where: for orbitals [a, b < n] of a
    dispersion with target shape [(n, n)], the block [R[b, a, :, :]] is
    [chi0_op] of the field with [scale] at [(a, b)] plus [conj(scale)] at
    [(b, a)]; the response to the field at [(a, b)] sits at the transposed
    pair of leading indices. *)
Theorem R_tensor_blocks :
  forall (eigh : list mat -> list rvec * list mat)
         (e_k : Gf) (beta eps : R) (scale : C) (n a b : nat),
    target_shape e_k = (n, n) -> (a < n)%nat -> (b < n)%nat ->
    exists F : mat,
      is_mat n n F /\
      (forall i j, (i < n)%nat -> (j < n)%nat ->
         mget F i j
         = ((if Nat.eqb i a && Nat.eqb j b then scale else C0)
            + (if Nat.eqb i b && Nat.eqb j a then Cconj scale else C0))%C) /\
      nth a (nth b (R_tensor eigh e_k beta eps scale) []) []
      = chi0_op eigh e_k beta F eps.
Proof.
  intros eigh e_k beta eps scale n a b Ht Ha Hb.
  destruct (R_tensor_field n a b scale Ha Hb) as [HF Hent].
  cbv zeta in HF, Hent.
  eexists. split; [exact HF |]. split; [exact Hent |].
  unfold R_tensor. cbv zeta. rewrite Ht. cbn [fst snd].
  apply (fold_assign_block n
           (fun i1 i2 =>
              chi0_op eigh e_k beta
                (assign_entry
                   (assign_entry (zeros (n, n)) i1 i2
                      (mget (zeros (n, n)) i1 i2 + scale)%C)
                   i2 i1
                   (mget (assign_entry (zeros (n, n)) i1 i2
                            (mget (zeros (n, n)) i1 i2 + scale)%C) i2 i1
                    + Cconj scale)%C) eps)
           _ a b Ha Hb).
  - unfold zeros4. cbn [nth]. apply length_tabulate.
  - intros k Hk. unfold zeros4. cbn [nth].
    rewrite (nth_tabulate n _ [] k Hk). apply length_tabulate.
  - right. apply in_prod; apply in_seq; lia.
Qed.

Lemma R_tensor_blocks_witness :
  exists F : mat,
    is_mat 2 2 F /\
    (forall i j, (i < 2)%nat -> (j < 2)%nat ->
       mget F i j
       = ((if Nat.eqb i 0 && Nat.eqb j 1 then C1 else C0)
          + (if Nat.eqb i 1 && Nat.eqb j 0 then Cconj C1 else C0))%C) /\
    nth 0 (nth 1 (R_tensor eigh_of_diagonal two_orbital_e_k 1 1 C1) []) []
    = chi0_op eigh_of_diagonal two_orbital_e_k 1 F 1.
Proof.
  apply (R_tensor_blocks eigh_of_diagonal two_orbital_e_k 1 1 C1 2 0 1).
  - reflexivity.
  - lia.
  - lia.
Defined.


(* ================================================================== *)
(** * Runs of the solver *)

(* ------------------------------------------------------------------ *)
(** ** The two-orbital model at half filling, run *)

Lemma fermi_symmetric (x beta : R) : fermi (- x) beta + fermi x beta = 1.
Proof.
  unfold fermi. replace (beta * - x) with (- (beta * x)) by ring.
  rewrite exp_Ropp. pose proof (exp_pos (beta * x)) as Hpos.
  set (t := exp (beta * x)) in *. field. split; lra.
Qed.

Lemma brentq_checked_at_roots (c : R) (f : R -> R) (a b x : R) :
  brentq_checked_at c f a b = Ok x -> f x = 0.
Proof.
  intros H. unfold brentq_checked_at in H.
  destruct (Rlt_dec 0 (f a * f b)); [discriminate H |].
  destruct (Req_dec_T (f c) 0) as [H0 | _]; [| discriminate H].
  injection H as <-. exact H0.
Qed.

(** Two levels placed symmetrically about [2], inside the bracket: the
    density constraint at half filling has its root at [2]. *)
Lemma brentq_two_orbital_target (x0 x1 : R) :
  x0 + x1 = 4 -> -10 < x0 < 10 -> -10 < x1 < 10 ->
  brentq_checked_at 2 (target_function [[x0; x1]] 1 1 1) (-10) 10 = Ok 2.
Proof.
  intros Hsum H0 H1. unfold brentq_checked_at.
  match goal with
  | |- context [Rlt_dec 0 ?x] => destruct (Rlt_dec 0 x) as [Hpos | Hneg]
  end.
  - exfalso. revert Hpos. unfold target_function. arr_compute. cbv [INR].
    assert (A0 : fermi (x0 - -10) 1 < 1 / 2) by (apply fermi_lt_half; lra).
    assert (A1 : fermi (x1 - -10) 1 < 1 / 2) by (apply fermi_lt_half; lra).
    assert (B0 : 1 / 2 < fermi (x0 - 10) 1) by (apply fermi_gt_half; lra).
    assert (B1 : 1 / 2 < fermi (x1 - 10) 1) by (apply fermi_gt_half; lra).
    intros Hpos. nra.
  - match goal with
    | |- context [Req_dec_T ?x 0] => destruct (Req_dec_T x 0) as [E | E]
    end; [reflexivity |].
    exfalso. apply E. unfold target_function. arr_compute. cbv [INR].
    replace (x0 - 2) with (- (x1 - 2)) by lra.
    pose proof (fermi_symmetric (x1 - 2) 1). lra.
Qed.

(** A composite step of the two-orbital model from occupations [(r0, r1)]
    that hold one particle: the mean field shifts orbital 0 by [3 r1] and
    orbital 1 by [3 r0], the chemical potential is [2], and the new
    occupations are the Fermi factors of the two shifted levels. *)
Lemma two_orbital_step (s : Solver) (r0 r1 : R) :
  same_model two_orbital_ready s ->
  0 <= r0 <= 1 -> 0 <= r1 <= 1 -> r0 + r1 = 1 ->
  exists s1,
    density_matrix_step eigh_of_diagonal eigvalsh_of_diagonal
                        (brentq_checked_at 2) s [r0; r1]
    = Ok (s1, [fermi (3 * r1 - 2) 1; fermi (3 * r0 - 1) 1]) /\
    same_model two_orbital_ready s1.
Proof.
  intros Hs H0 H1 Hsum.
  assert (Hex : exists s1,
             density_matrix_step eigh_of_diagonal eigvalsh_of_diagonal
               (brentq_checked_at 2) s [r0; r1]
             = Ok (s1, [fermi (3 * r1 - 2) 1; fermi (3 * r0 - 1) 1])).
  { destruct Hs as (Hb & HN & Hmin & Hmax & He & HU).
    rewrite density_matrix_step_unfold. cbv zeta.
    rewrite <- Hb, <- HN, <- Hmin, <- Hmax, <- He, <- HU.
    unfold two_orbital_ready. simpl getattr. cbv [bind]. arr_compute.
    rewrite brentq_two_orbital_target by lra.
    unfold update_density_matrix. arr_compute. cbv [INR].
    replace (0 + (r0 * 0 + (r1 * 3 + 0)) - 2) with (3 * r1 - 2) by lra.
    replace (1 + (r0 * 3 + (r1 * 0 + 0)) - 2) with (3 * r0 - 1) by lra.
    eexists. apply f_equal. apply f_equal2; [reflexivity |].
    f_equal; [lra |]. f_equal. lra. }
  destruct Hex as [s1 Hstep]. exists s1. split; [exact Hstep |].
  apply (same_model_trans _ s); [exact Hs |].
  apply (density_matrix_step_same_model _ _ _ _ _ _ _ Hstep).
Qed.

Lemma two_orbital_setup (mixing : R) (nitermax : nat) :
  exists s0,
    solve_setup eigh_of_diagonal eigvalsh_of_diagonal (brentq_checked_at 2)
                (set_nitermax (set_mixing two_orbital_solver mixing) nitermax)
                1 1 (Some two_orbital_M0) (Some 0)
    = Ok (s0, [fermi (- (1 / 2)) 1; fermi (1 / 2) 1]) /\
    same_model two_orbital_ready s0.
Proof.
  unfold solve_setup, update_chemical_potential, update_mean_field_dispersion.
  unfold two_orbital_M0.
  arr_compute. simpl getattr. cbv [bind RtoC]. arr_compute.
  rewrite brentq_two_orbital_target by lra.
  unfold update_density_matrix. arr_compute. cbv [INR].
  replace (0 + 3 / 2 - 2) with (- (1 / 2)) by lra.
  replace (1 + 3 / 2 - 2) with (1 / 2) by lra.
  eexists. split.
  - apply f_equal. apply f_equal2; [reflexivity |].
    f_equal; [lra |]. f_equal. lra.
  - repeat split.
Qed.

Lemma mix_two (mixing a b c d : R) :
  mix mixing [a; b] [c; d]
  = [(1 - mixing) * a + mixing * c; (1 - mixing) * b + mixing * d].
Proof. reflexivity. Qed.

(** [solve_iter] run on the two-orbital model with two iterations allowed,
    weight [1/2] and tolerance [0]: two steps are performed, none passes the
    test, and the second iterate is the mixture of the first with the
    result of the first step. *)
Lemma two_orbital_run :
  exists s',
    solve_iter eigh_of_diagonal eigvalsh_of_diagonal (brentq_checked_at 2)
               two_orbital_solver 1 1 (Some two_orbital_M0) (Some 0)
               (Some 2%nat) (Some (1 / 2)) (Some 0)
    = Ok (s', [two_orbital_rho0;
               mix (1 / 2) two_orbital_rho0 two_orbital_new0]).
Proof.
  unfold solve_iter. cbv [kwarg].
  rewrite (proj2 (Rleb_true 0 (1 / 2))) by lra.
  rewrite (proj2 (Rleb_true (1 / 2) 1)) by lra.
  cbv [py_assert bind].
  destruct (two_orbital_setup (1 / 2) 2) as (s0 & -> & Hs0).
  pose proof (fermi_symmetric (1 / 2) 1) as Hpq.
  pose proof (fermi_bounds (- (1 / 2)) 1) as Hp.
  pose proof (fermi_bounds (1 / 2) 1) as Hq.
  destruct (two_orbital_step s0 _ _ Hs0 Hp Hq Hpq) as (s1 & Hstep1 & Hs1).
  cbn [solve_iter_loop app]. rewrite Hstep1. cbv [bind].
  rewrite converged_tol_0.
  unfold two_orbital_rho0, two_orbital_new0. rewrite mix_two.
  set (p := fermi (- (1 / 2)) 1) in *. set (q := fermi (1 / 2) 1) in *.
  pose proof (fermi_bounds (3 * q - 2) 1) as Hn0.
  pose proof (fermi_bounds (3 * p - 1) 1) as Hn1.
  assert (Hn : fermi (3 * q - 2) 1 + fermi (3 * p - 1) 1 = 1).
  { replace (3 * q - 2) with (- (3 * p - 1)) by lra.
    apply fermi_symmetric. }
  set (n0 := fermi (3 * q - 2) 1) in *.
  set (n1 := fermi (3 * p - 1) 1) in *.
  assert (Hr0 : 0 <= (1 - 1 / 2) * p + 1 / 2 * n0 <= 1) by lra.
  assert (Hr1 : 0 <= (1 - 1 / 2) * q + 1 / 2 * n1 <= 1) by lra.
  assert (Hr : (1 - 1 / 2) * p + 1 / 2 * n0
               + ((1 - 1 / 2) * q + 1 / 2 * n1) = 1) by lra.
  destruct (two_orbital_step s1 _ _ Hs1 Hr0 Hr1 Hr) as (s2 & Hstep2 & _).
  cbn [solve_iter_loop app]. rewrite Hstep2. cbv [bind].
  rewrite converged_tol_0. exists s2. reflexivity.
Qed.

(* ------------------------------------------------------------------ *)
(** ** What a composite step computes *)

Lemma rget_mix (mixing : R) (old new : rvec) (j : nat) :
  length old = length new -> (j < length old)%nat ->
  rget (mix mixing old new) j
  = (1 - mixing) * rget old j + mixing * rget new j.
Proof.
  unfold rget, mix, rvadd, rvscale, map2. revert new j.
  induction old as [| x old IH]; intros [| y new] j Hlen Hj;
    try discriminate Hlen; simpl in Hj; [lia |].
  destruct j as [| j]; [reflexivity |].
  simpl. apply IH; [injection Hlen as Hlen; exact Hlen | lia].
Qed.

(** The composite step, read off a solver whose model is known: the mean
    field [diag(U_ab rho)] is added to the dispersion, [brentq] resolves
    the chemical potential on the eigenvalues of the sum, and the new
    occupations are the real diagonal of the density matrix at that
    chemical potential. *)
Lemma density_matrix_step_explicit
      (eigh : list mat -> list rvec * list mat)
      (eigvalsh : list mat -> list rvec)
      (brentq : (R -> R) -> R -> R -> result R)
      (e_k : Gf) (U_ab : mat) (beta N_tot mu_min mu_max : R)
      (s s1 : Solver) (rho new : rvec) :
  self_e_k s = e_k -> self_U_ab s = U_ab -> self_N_tot s = Some N_tot ->
  self_beta s = beta -> self_mu_min s = mu_min -> self_mu_max s = mu_max ->
  density_matrix_step eigh eigvalsh brentq s rho = Ok (s1, new) ->
  (self_e_k s1 = e_k /\ self_U_ab s1 = U_ab /\ self_N_tot s1 = Some N_tot /\
   self_beta s1 = beta /\ self_mu_min s1 = mu_min /\
   self_mu_max s1 = mu_max) /\
  let E := bcast_add (data e_k) (diag_of_vec (dot_mv U_ab rho)) in
  exists mu,
    brentq (target_function (eigvalsh E) (length E) beta N_tot) mu_min mu_max
    = Ok mu /\
    new = map Re (diag_of_mat
            (density_matrix (map (map (fun x => x - mu)) (fst (eigh E)))
                            (snd (eigh E)) beta (length E))).
Proof.
  intros He HU HN Hbeta Hmin Hmax Hstep.
  destruct (density_matrix_step_same_model _ _ _ _ _ _ _ Hstep)
    as (Hb1 & HN1 & Hmin1 & Hmax1 & He1 & HU1).
  split; [repeat split; congruence |].
  destruct (density_matrix_step_result _ _ _ _ _ _ _ Hstep)
    as (N' & mu & HN' & Hb & HeMF & Hmu & Hbeta' & Hocc).
  rewrite HN in HN'. injection HN' as <-.
  rewrite He, HU, Hbeta, Hmin, Hmax in Hb.
  unfold len_mesh in Hb. simpl data in Hb.
  cbv zeta. exists mu. split; [exact Hb |].
  rewrite snd_update_density_matrix, HeMF, Hmu, Hbeta', Hbeta, He, HU in Hocc.
  unfold len_mesh in Hocc. simpl data in Hocc. exact Hocc.
Qed.

Lemma step_rho_diag_explicit
      (eigh : list mat -> list rvec * list mat)
      (eigvalsh : list mat -> list rvec)
      (brentq : (R -> R) -> R -> R -> result R)
      (e_k : Gf) (U_ab : mat) (beta N_tot mu_min mu_max : R)
      (s : Solver) (rho new : rvec) :
  self_e_k s = e_k -> self_U_ab s = U_ab -> self_N_tot s = Some N_tot ->
  self_beta s = beta -> self_mu_min s = mu_min -> self_mu_max s = mu_max ->
  step_rho_diag eigh eigvalsh brentq s rho = Ok new ->
  let E := bcast_add (data e_k) (diag_of_vec (dot_mv U_ab rho)) in
  exists mu,
    brentq (target_function (eigvalsh E) (length E) beta N_tot) mu_min mu_max
    = Ok mu /\
    new = map Re (diag_of_mat
            (density_matrix (map (map (fun x => x - mu)) (fst (eigh E)))
                            (snd (eigh E)) beta (length E))).
Proof.
  intros He HU HN Hbeta Hmin Hmax H. unfold step_rho_diag in H.
  apply bind_Ok_inv in H. destruct H as [[s1 new'] [Hstep H]].
  injection H as <-.
  apply (density_matrix_step_explicit eigh eigvalsh brentq e_k U_ab beta
           N_tot mu_min mu_max s s1 rho new' He HU HN Hbeta Hmin Hmax Hstep).
Qed.

(** The loop of [solve_iter] keeps what every step establishes and mixing
    preserves. *)
Lemma solve_iter_loop_invariant
      (eigh : list mat -> list rvec * list mat)
      (eigvalsh : list mat -> list rvec)
      (brentq : (R -> R) -> R -> R -> result R)
      (mixing tol : R) (Inv : Solver -> Prop) (Q : rvec -> Prop) :
  (forall s rho s1 new,
     Inv s -> density_matrix_step eigh eigvalsh brentq s rho = Ok (s1, new) ->
     Inv s1 /\ Q new) ->
  (forall old new, Q old -> Q new -> Q (mix mixing old new)) ->
  forall (left : nat) (s : Solver) (rho : rvec) (acc : list rvec)
         (s' : Solver) (traj : list rvec),
    Inv s -> Q rho -> Forall Q acc ->
    solve_iter_loop eigh eigvalsh brentq left mixing tol s rho acc
    = Ok (s', traj) ->
    Forall Q traj.
Proof.
  intros Hstep Hmix.
  induction left as [| left IH]; intros s rho acc s' traj Hs Hrho Hacc H.
  - simpl in H. injection H as _ <-. exact Hacc.
  - cbn [solve_iter_loop] in H.
    apply bind_Ok_inv in H. destruct H as [[s1 new] [Hs1 H]].
    destruct (Hstep s rho s1 new Hs Hs1) as [Hinv Hnew].
    assert (Hacc' : Forall Q (acc ++ [rho])).
    { apply Forall_app. split; [exact Hacc |].
      constructor; [exact Hrho | constructor]. }
    destruct (converged rho new tol).
    + injection H as _ <-. exact Hacc'.
    + apply (IH s1 (mix mixing rho new) (acc ++ [rho]) s' traj);
        try assumption.
      apply Hmix; assumption.
Qed.

(** The occupations read off a stack of [n x n] blocks: one per orbital,
    when [eigh] returns eigenvector stacks of the shape of its argument. *)
Lemma length_occupations
      (eigh : list mat -> list rvec * list mat) (n : nat)
      (E : list mat) (e : list rvec) (beta : R) (nk : nat) :
  eigh_shape_ok eigh n E -> (0 < length E)%nat ->
  length (map Re (diag_of_mat (density_matrix e (snd (eigh E)) beta nk))) = n.
Proof.
  intros [Hl HV] Hpos.
  assert (HVpos : (0 < length (snd (eigh E)))%nat) by lia.
  rewrite (occupations_as_diagonal n _
             (is_mat_density_matrix e _ beta nk n HVpos HV)).
  rewrite length_map, length_seq. reflexivity.
Qed.

(* ------------------------------------------------------------------ *)
(** ** The iteration with linear mixing *)

(** C1.  Whenever [solve_iter] returns a trajectory, for a dispersion of
    [n x n] blocks on a mesh that is not empty, [U_ab] and [M0] (when
    given) [n x n], and [eigh] returning eigenvector stacks of the shape of
    its argument: the mixing weight passed the two assertions
    ([0 <= mixing <= 1]); the trajectory has at most [nitermax] entries, one
    per composite step performed, each with one occupation per orbital; it
    starts at the occupations [solve_setup] computes for the dispersion
    [e_k + M0]; every step but the last failed the convergence test and is
    followed by the linear mixture [(1 - mixing) * old + mixing * new] of
    its iterate and the step's result; and when fewer than [nitermax] steps
    were performed, the last one passed the test.  A composite step from
    [rho] adds the mean field [diag(U_ab rho)] to the dispersion, has
    [brentq] resolve the chemical potential on the eigenvalues of the sum
    for the density [N_tot], and returns the real diagonal of the density
    matrix at that chemical potential.  The test is
    [norm(old - new) / norm(old) < tol], with [tol] defaulting to
    [1e-9]. *)
Theorem solve_iter_linear_mixing :
  forall (eigh : list mat -> list rvec * list mat)
         (eigvalsh : list mat -> list rvec)
         (brentq : (R -> R) -> R -> R -> result R)
         (s : Solver) (beta N_tot : R) (M0 : option mat) (mu0 : option R)
         (nitermax_arg : option nat) (mixing_arg tol_arg : option R)
         (n : nat) (s' : Solver) (traj : list rvec),
    let nitermax := kwarg default_nitermax nitermax_arg in
    let mixing := kwarg default_mixing mixing_arg in
    let tol := kwarg default_tol tol_arg in
    let resolves := fun (E : list mat) (mu : R) =>
      brentq (target_function (eigvalsh E) (length E) beta N_tot)
             (self_mu_min s) (self_mu_max s) = Ok mu in
    let occupations := fun (E : list mat) (mu : R) =>
      map Re (diag_of_mat
        (density_matrix (map (map (fun x => x - mu)) (fst (eigh E)))
                        (snd (eigh E)) beta (length E))) in
    let E0 := bcast_add (data (self_e_k s))
                        (kwarg (zeros (self_target_shape s)) M0) in
    let step_of := fun (rho new : rvec) =>
      let E := bcast_add (data (self_e_k s))
                         (diag_of_vec (dot_mv (self_U_ab s) rho)) in
      exists mu, resolves E mu /\ new = occupations E mu in
    (forall E, Forall (is_mat n n) E -> eigh_shape_ok eigh n E) ->
    self_target_shape s = (n, n) ->
    Forall (is_mat n n) (data (self_e_k s)) ->
    (0 < len_mesh (self_e_k s))%nat ->
    is_mat n n (self_U_ab s) ->
    match M0 with Some m => is_mat n n m | None => True end ->
    solve_iter eigh eigvalsh brentq s beta N_tot M0 mu0
               nitermax_arg mixing_arg tol_arg = Ok (s', traj) ->
    0 <= mixing <= 1 /\
    (length traj <= nitermax)%nat /\
    Forall (fun rho => length rho = n) traj /\
    ((0 < nitermax)%nat ->
     (0 < length traj)%nat /\
     exists mu, resolves E0 mu /\ nth 0 traj [] = occupations E0 mu) /\
    (forall i, (S i < length traj)%nat ->
       exists new,
         step_of (nth i traj []) new /\
         converged (nth i traj []) new tol = false /\
         nth (S i) traj [] = mix mixing (nth i traj []) new) /\
    ((length traj < nitermax)%nat ->
       exists new,
         step_of (last traj []) new /\
         converged (last traj []) new tol = true) /\
    (forall old new, norm old <> 0 ->
       (converged old new tol = true
        <-> norm (rvsub old new) / norm old < tol)) /\
    (forall old new j, length old = length new -> (j < length old)%nat ->
       rget (mix mixing old new) j
       = (1 - mixing) * rget old j + mixing * rget new j) /\
    kwarg default_tol None = 1 / 10 ^ 9.
Proof.
  intros eigh eigvalsh brentq s beta N_tot M0 mu0 nitermax_arg mixing_arg
         tol_arg n s' traj nitermax mixing tol resolves occupations E0
         step_of Heigh Hts He Hk HU HM0 H.
  unfold solve_iter in H. fold nitermax mixing tol in H.
  apply bind_Ok_inv in H. destruct H as [[] [Hlo H]].
  apply bind_Ok_inv in H. destruct H as [[] [Hhi H]].
  apply bind_Ok_inv in H. destruct H as [[s0 rho0] [Hsetup H]].
  destruct (solve_setup_result _ _ _ _ _ _ _ _ _ _ Hsetup)
    as (mu & Hb & Hrho0 & He0 & HU0 & HN0 & Hbeta0 & Hmin0 & Hmax0).
  cbn [self_e_k self_U_ab self_mu_min self_mu_max self_target_shape
       set_nitermax set_mixing] in Hb, Hrho0, He0, HU0, Hmin0, Hmax0.
  fold E0 in Hb, Hrho0.
  assert (HM : is_mat n n (kwarg (zeros (self_target_shape s)) M0)).
  { destruct M0 as [m |]; [exact HM0 |]. cbn [kwarg]. rewrite Hts.
    apply is_mat_zeros. }
  assert (HE0 : Forall (is_mat n n) E0)
    by (apply Forall_is_mat_bcast_add; assumption).
  assert (HE0pos : (0 < length E0)%nat)
    by (unfold E0; rewrite length_bcast_add; exact Hk).
  assert (Hlen0 : length rho0 = n).
  { rewrite Hrho0. apply length_occupations; [apply Heigh |]; assumption. }
  assert (Hsteps : forall rho new,
             step_rho_diag eigh eigvalsh brentq s0 rho = Ok new ->
             step_of rho new).
  { intros rho new Hnew.
    apply (step_rho_diag_explicit eigh eigvalsh brentq (self_e_k s)
             (self_U_ab s) beta N_tot (self_mu_min s) (self_mu_max s)
             s0 rho new He0 HU0 HN0 Hbeta0 Hmin0 Hmax0 Hnew). }
  destruct (solve_iter_loop_spec eigh eigvalsh brentq mixing tol s0
              nitermax s0 rho0 [] s' traj (same_model_refl s0) H)
    as (steps & Htraj & Hlen & Hhd & Hmid & Hlast & _).
  simpl in Htraj. subst steps.
  split.
  { unfold py_assert in Hlo, Hhi.
    destruct (Rleb 0 mixing) eqn:E1; [| discriminate].
    destruct (Rleb mixing 1) eqn:E2; [| discriminate].
    apply Rleb_true in E1. apply Rleb_true in E2. split; assumption. }
  split; [exact Hlen |].
  split.
  { apply (solve_iter_loop_invariant eigh eigvalsh brentq mixing tol
             (fun x => self_e_k x = self_e_k s /\ self_U_ab x = self_U_ab s /\
                       self_N_tot x = Some N_tot /\ self_beta x = beta /\
                       self_mu_min x = self_mu_min s /\
                       self_mu_max x = self_mu_max s)
             (fun rho => length rho = n))
      with (left := nitermax) (s := s0) (rho := rho0) (acc := [])
           (s' := s'); try assumption.
    - intros x rho x1 new (A1 & A2 & A3 & A4 & A5 & A6) Hx.
      destruct (density_matrix_step_explicit eigh eigvalsh brentq
                  (self_e_k s) (self_U_ab s) beta N_tot (self_mu_min s)
                  (self_mu_max s) x x1 rho new A1 A2 A3 A4 A5 A6 Hx)
        as [Hinv (mu' & _ & Hnew)].
      split; [exact Hinv |]. rewrite Hnew.
      apply length_occupations.
      + apply Heigh. apply mean_field_dispersion_shape; assumption.
      + rewrite length_bcast_add. exact Hk.
    - intros old new Ho Hn. apply length_mix; assumption.
    - repeat split; assumption.
    - constructor. }
  split.
  { intros Hpos. destruct (Hhd Hpos) as [Hnth Hl]. split; [exact Hl |].
    exists mu. split; [exact Hb |]. rewrite Hnth. exact Hrho0. }
  split.
  { intros i Hi. destruct (Hmid i Hi) as (new & Hnew & Hconv & Hnext).
    exists new. split; [apply Hsteps; exact Hnew |]. split; assumption. }
  split.
  { intros Hlt. destruct (Hlast Hlt) as (new & Hnew & Hconv).
    exists new. split; [apply Hsteps; exact Hnew | exact Hconv]. }
  split; [intros old new Hn; apply converged_iff; exact Hn |].
  split; [intros old new j; apply rget_mix | reflexivity].
Qed.

(** [solve_iter] run on the two-orbital model, two iterations allowed:
    the trajectory has two entries, and the second is the mixture with
    weight [1/2] of the first and of what the composite step computes from
    the first. *)
Lemma solve_iter_linear_mixing_witness :
  exists (s' : Solver) (traj : list rvec),
    solve_iter eigh_of_diagonal eigvalsh_of_diagonal (brentq_checked_at 2)
               two_orbital_solver 1 1 (Some two_orbital_M0) (Some 0)
               (Some 2%nat) (Some (1 / 2)) (Some 0)
    = Ok (s', traj) /\
    length traj = 2%nat /\
    Forall (fun rho => length rho = 2%nat) traj /\
    exists new mu,
      brentq_checked_at 2
        (target_function
           (eigvalsh_of_diagonal
              (bcast_add (data two_orbital_e_k)
                 (diag_of_vec (dot_mv (self_U_ab two_orbital_solver)
                                      (nth 0 traj [])))))
           1 1 1) (-10) 10 = Ok mu /\
      converged (nth 0 traj []) new 0 = false /\
      nth 1 traj [] = mix (1 / 2) (nth 0 traj []) new.
Proof.
  destruct two_orbital_run as [s' Hrun].
  exists s', [two_orbital_rho0; mix (1 / 2) two_orbital_rho0 two_orbital_new0].
  split; [exact Hrun |]. split; [reflexivity |].
  destruct (solve_iter_linear_mixing eigh_of_diagonal eigvalsh_of_diagonal
              (brentq_checked_at 2) two_orbital_solver 1 1
              (Some two_orbital_M0) (Some 0) (Some 2%nat) (Some (1 / 2))
              (Some 0) 2 s'
              [two_orbital_rho0; mix (1 / 2) two_orbital_rho0 two_orbital_new0])
    as (_ & _ & Hlens & _ & Hmid & _).
  - intros E HE. apply eigh_of_diagonal_shape_ok. exact HE.
  - reflexivity.
  - repeat constructor.
  - cbv. lia.
  - repeat constructor.
  - repeat constructor.
  - exact Hrun.
  - split; [exact Hlens |].
    destruct (Hmid 0%nat) as (new & (mu & Hmu & _) & Hconv & Hnext);
      [simpl; lia |].
    exists new, mu. split; [exact Hmu |]. split; assumption.
Defined.

(* ------------------------------------------------------------------ *)
(** ** The density along a whole run *)

(** X19.  The density is conserved along a whole run: every iterate in the
    trajectory [solve_iter] returns has one occupation per orbital, and
    they sum to [N_tot], the starting point and the mixed iterates alike.
    The dispersion has [n x n] blocks on a mesh that is not empty, [U_ab]
    and [M0] (when given) are [n x n]; [eigh] and [eigvalsh] return the
    same [n] eigenvalues per block and eigenvectors of unit length; and at
    the calls the solver makes, on the density constraint of a dispersion
    [e_k + M], what [brentq] returns is a root. *)
Theorem solve_iter_conserves_density :
  forall (eigh : list mat -> list rvec * list mat)
         (eigvalsh : list mat -> list rvec)
         (brentq : (R -> R) -> R -> R -> result R)
         (s : Solver) (beta N_tot : R) (M0 : option mat) (mu0 : option R)
         (nitermax : option nat) (mixing tol : option R) (n : nat)
         (s' : Solver) (traj : list rvec),
    eigh_normalised eigh eigvalsh n ->
    brentq_solves_density brentq eigvalsh (self_e_k s) n beta N_tot
                          (self_mu_min s) (self_mu_max s) ->
    self_target_shape s = (n, n) ->
    Forall (is_mat n n) (data (self_e_k s)) ->
    (0 < len_mesh (self_e_k s))%nat ->
    is_mat n n (self_U_ab s) ->
    match M0 with Some m => is_mat n n m | None => True end ->
    solve_iter eigh eigvalsh brentq s beta N_tot M0 mu0 nitermax mixing tol
    = Ok (s', traj) ->
    Forall (fun rho => length rho = n /\ Rsum rho = N_tot) traj.
Proof.
  intros eigh eigvalsh brentq s beta N_tot M0 mu0 nitermax mixing tol n
         s' traj Hc Hroot Hts He Hk HU HM0 H.
  unfold solve_iter in H. cbv zeta in H.
  apply bind_Ok_inv in H. destruct H as [[] [_ H]].
  apply bind_Ok_inv in H. destruct H as [[] [_ H]].
  apply bind_Ok_inv in H. destruct H as [[s0 rho0] [Hsetup H]].
  destruct (solve_setup_result _ _ _ _ _ _ _ _ _ _ Hsetup)
    as (mu & Hb & Hrho0 & He0 & HU0 & HN0 & Hbeta0 & Hmin0 & Hmax0).
  cbn [self_e_k self_U_ab self_mu_min self_mu_max self_target_shape
       set_nitermax set_mixing] in Hb, Hrho0, He0, HU0, Hmin0, Hmax0.
  assert (HM : is_mat n n (kwarg (zeros (self_target_shape s)) M0)).
  { destruct M0 as [m |]; [exact HM0 |]. cbn [kwarg]. rewrite Hts.
    apply is_mat_zeros. }
  assert (Hocc : forall (M : mat) (mu' : R),
             is_mat n n M ->
             let E := bcast_add (data (self_e_k s)) M in
             brentq (target_function (eigvalsh E) (length E) beta N_tot)
                    (self_mu_min s) (self_mu_max s) = Ok mu' ->
             let occ :=
               map Re (diag_of_mat
                 (density_matrix (map (map (fun x => x - mu')) (fst (eigh E)))
                                 (snd (eigh E)) beta (length E))) in
             length occ = n /\ Rsum occ = N_tot).
  { intros M mu' HMn E Hb'.
    apply (occupations_at_root eigh eigvalsh n E beta N_tot mu' Hc).
    - apply Forall_is_mat_bcast_add; assumption.
    - unfold E. rewrite length_bcast_add. exact Hk.
    - apply (Hroot M mu' HMn Hb'). }
  pose proof (Hocc _ mu HM Hb) as Hrho0'. cbv zeta in Hrho0'.
  rewrite <- Hrho0 in Hrho0'.
  apply (solve_iter_loop_invariant eigh eigvalsh brentq
           (kwarg default_mixing mixing) (kwarg default_tol tol)
           (fun x => self_e_k x = self_e_k s /\ self_U_ab x = self_U_ab s /\
                     self_N_tot x = Some N_tot /\ self_beta x = beta /\
                     self_mu_min x = self_mu_min s /\
                     self_mu_max x = self_mu_max s)
           (fun rho => length rho = n /\ Rsum rho = N_tot))
    with (left := kwarg default_nitermax nitermax) (s := s0) (rho := rho0)
         (acc := []) (s' := s'); try assumption.
  - intros x rho x1 new (A1 & A2 & A3 & A4 & A5 & A6) Hx.
    destruct (density_matrix_step_explicit eigh eigvalsh brentq
                (self_e_k s) (self_U_ab s) beta N_tot (self_mu_min s)
                (self_mu_max s) x x1 rho new A1 A2 A3 A4 A5 A6 Hx)
      as [Hinv (mu' & Hb' & Hnew)].
    split; [exact Hinv |]. rewrite Hnew.
    apply (Hocc (diag_of_vec (dot_mv (self_U_ab s) rho)) mu');
      [| exact Hb'].
    destruct HU as [HUl _]. unfold diag_of_vec.
    assert (Hl : length (dot_mv (self_U_ab s) rho) = n)
      by (unfold dot_mv; rewrite length_map; exact HUl).
    rewrite Hl. apply is_mat_tabulate2.
  - intros old new [Hlo Hso] [Hln Hsn]. split.
    + apply length_mix; assumption.
    + rewrite Rsum_mix by congruence. rewrite Hso, Hsn. ring.
  - repeat split; assumption.
  - constructor.
Qed.

Lemma eigh_of_diagonal_normalised (n : nat) :
  eigh_normalised eigh_of_diagonal eigvalsh_of_diagonal n.
Proof.
  intros E HE. unfold eigvalsh_of_diagonal, eigh_of_diagonal.
  simpl fst. simpl snd.
  split; [reflexivity |]. split; [apply length_map |]. split; [| split].
  - apply Forall_forall. intros row Hrow. apply in_map_iff in Hrow.
    destruct Hrow as [m [<- Hm]]. rewrite Forall_forall in HE.
    rewrite length_map. unfold diag_of_mat. rewrite length_tabulate.
    rewrite (nrows_is_mat n n m (HE m Hm)), (ncols_square n m (HE m Hm)).
    apply Nat.min_id.
  - apply length_map.
  - split.
    + apply Forall_forall. intros V HV. apply in_map_iff in HV.
      destruct HV as [m [<- Hm]]. rewrite Forall_forall in HE.
      rewrite (nrows_is_mat n n m (HE m Hm)). apply is_mat_eye.
    + intros k b Hk Hb. unfold aget.
      replace (nth k (map (fun m => eye (nrows m)) E) []) with (eye n).
      * unfold tabulate.
        rewrite (Csum_map_ext _
                   (fun a => ((if Nat.eqb b a then C1 else C0)
                              * mget (eye n) a b)%C)).
        -- rewrite Csum_delta_l by exact Hb.
           rewrite mget_eye, Nat.eqb_refl by assumption. reflexivity.
        -- intros a Ha. apply in_seq in Ha. rewrite mget_eye by lia.
           rewrite (Nat.eqb_sym a b).
           destruct (Nat.eqb b a); apply C_eq; simpl; ring.
      * rewrite (nth_indep _ [] (eye (nrows (@nil (list C)))))
          by (rewrite length_map; exact Hk).
        rewrite (map_nth (fun m => eye (nrows m))).
        rewrite (nrows_is_mat n n _ (Forall_is_mat_nth n n E k HE Hk)).
        reflexivity.
Qed.

(** The two-orbital run: both iterates, the start and the mixture, hold
    two occupations that sum to [N_tot = 1]. *)
Lemma solve_iter_conserves_density_witness :
  exists s',
    solve_iter eigh_of_diagonal eigvalsh_of_diagonal (brentq_checked_at 2)
               two_orbital_solver 1 1 (Some two_orbital_M0) (Some 0)
               (Some 2%nat) (Some (1 / 2)) (Some 0)
    = Ok (s', [two_orbital_rho0;
               mix (1 / 2) two_orbital_rho0 two_orbital_new0]) /\
    Forall (fun rho => length rho = 2%nat /\ Rsum rho = 1)
           [two_orbital_rho0; mix (1 / 2) two_orbital_rho0 two_orbital_new0].
Proof.
  destruct two_orbital_run as [s' H]. exists s'. split; [exact H |].
  apply (solve_iter_conserves_density eigh_of_diagonal eigvalsh_of_diagonal
           (brentq_checked_at 2) two_orbital_solver 1 1
           (Some two_orbital_M0) (Some 0) (Some 2%nat) (Some (1 / 2))
           (Some 0) 2 s' _).
  - apply eigh_of_diagonal_normalised.
  - intros M mu _ E Hb. apply (brentq_checked_at_roots 2 _ _ _ _ Hb).
  - reflexivity.
  - repeat constructor.
  - cbv. lia.
  - repeat constructor.
  - repeat constructor.
  - exact H.
Defined.
